(** * Chart version selection (internal/helm/helm.go)

    A shallow embedding of the chart-version resolver of
    [internal/helm/helm.go] together with the library code it runs:
    Go's [strings], [strconv], [regexp] and [sort] packages, the error
    values of [github.com/pkg/errors] and the version and constraint model of
    [github.com/Masterminds/semver] (v1).  Network, YAML and registry
    access are oracles of a Section. *)

From Stdlib Require Import ZArith Ascii String List Lia Bool DecimalString.
From stdpp Require Import base list strings gmap.

Local Open Scope Z_scope.

(** ** Go strings: byte sequences *)

Module strings.

(** [strings.HasPrefix(s, prefix)]. *)
Fixpoint HasPrefix (s prefix : string) : bool :=
  match prefix, s with
  | EmptyString, _ => true
  | String c p, String d t => if Ascii.eqb c d then HasPrefix t p else false
  | String _ _, EmptyString => false
  end.

(** [s[n:]] for [n <= len(s)]. *)
Fixpoint drop (n : nat) (s : string) : string :=
  match n, s with
  | O, _ => s
  | S n', String _ t => drop n' t
  | S _, EmptyString => EmptyString
  end.

(** [s[:n]] for [n <= len(s)]. *)
Fixpoint take (n : nat) (s : string) : string :=
  match n, s with
  | O, _ => EmptyString
  | S n', String c t => String c (take n' t)
  | S _, EmptyString => EmptyString
  end.

(** [strings.TrimPrefix(s, prefix)]. *)
Definition TrimPrefix (s prefix : string) : string :=
  if HasPrefix s prefix then drop (String.length prefix) s else s.

(** [strings.HasSuffix(s, suffix)]. *)
Definition HasSuffix (s suffix : string) : bool :=
  (String.length suffix <=? String.length s)%nat &&
  String.eqb (drop (String.length s - String.length suffix) s) suffix.

(** [strings.TrimSuffix(s, suffix)]. *)
Definition TrimSuffix (s suffix : string) : string :=
  if HasSuffix s suffix
  then take (String.length s - String.length suffix) s
  else s.

(** [strings.Index(s, sep)]: offset of the first occurrence. *)
Fixpoint Index (s sep : string) : option nat :=
  if HasPrefix s sep then Some O
  else match s with
       | EmptyString => None
       | String _ t => S <$> Index t sep
       end.

(** [strings.Split(s, sep)] for a non-empty separator: the pieces between
    the successive leftmost occurrences of [sep]. *)
Fixpoint splitFrom (fuel : nat) (s sep : string) : list string :=
  match fuel with
  | O => [s]
  | S fuel' =>
      match Index s sep with
      | None => [s]
      | Some i => take i s :: splitFrom fuel' (drop (i + String.length sep) s) sep
      end
  end.

Definition Split (s sep : string) : list string :=
  splitFrom (String.length s) s sep.

(** [strings.Replace(s, old, new, 1)]: the first occurrence only. *)
Definition Replace1 (s old new : string) : string :=
  match Index s old with
  | None => s
  | Some i => take i s +:+ new +:+ drop (i + String.length old) s
  end.

End strings.

(** ** Error values

    A message is kept as the pieces its format string produces: literal
    text and operands formatted by the [%q] verb.  [render] turns a message
    into text once the [%q] rendering ([strconv.Quote]) is supplied. *)

Module errors.

Inductive frag : Type :=
| lit (s : string)
| quoted (s : string).

Definition message : Type := list frag.

Fixpoint render (quote : string -> string) (m : message) : string :=
  match m with
  | [] => EmptyString
  | lit s :: m' => s +:+ render quote m'
  | quoted s :: m' => quote s +:+ render quote m'
  end.

(** An error is a root error ([errors.New], [errors.Errorf], [fmt.Errorf])
    or an error annotated by [errors.Wrapf]. *)
Inductive error : Type :=
| fundamental (msg : message)
| withMessage (cause : error) (msg : message).

(** [err.Error()]: the annotation, a colon, the cause's text. *)
Fixpoint Error (e : error) : message :=
  match e with
  | fundamental msg => msg
  | withMessage cause msg => msg ++ lit ": " :: Error cause
  end.

Definition New (text : string) : error := fundamental [lit text].

Definition Errorf (msg : message) : error := fundamental msg.

(** [errors.Wrapf(err, format, args...)]: nil when [err] is nil. *)
Definition Wrapf (err : option error) (msg : message) : option error :=
  match err with
  | None => None
  | Some e => Some (withMessage e msg)
  end.

(** A Go result pair [(T, error)] of a call that yields either a value or
    an error. *)
Inductive result (T : Type) : Type :=
| Ok (v : T)
| Err (e : error).

Arguments Ok {T} v.
Arguments Err {T} e.

End errors.

Import errors.

(** ** strconv *)

Module strconv.

Definition isDigit (c : ascii) : bool :=
  (48 <=? nat_of_ascii c)%nat && (nat_of_ascii c <=? 57)%nat.

Definition digitVal (c : ascii) : Z := Z.of_nat (nat_of_ascii c) - 48.

Definition syntaxError (fn num : string) : error :=
  fundamental [lit ("strconv." +:+ fn +:+ ": parsing "); quoted num;
               lit ": invalid syntax"].

Definition rangeError (fn num : string) : error :=
  fundamental [lit ("strconv." +:+ fn +:+ ": parsing "); quoted num;
               lit ": value out of range"].

Definition maxUint64 : Z := 2 ^ 64 - 1.

Inductive numErr : Type := ErrSyntax | ErrRange.

(** The digit loop of [ParseUint(s, 10, 64)]. *)
Fixpoint parseDigits (s : string) (n : Z) : Z + numErr :=
  match s with
  | EmptyString => inl n
  | String c t =>
      if isDigit c then
        if maxUint64 / 10 + 1 <=? n then inr ErrRange
        else
          let n1 := n * 10 + digitVal c in
          if maxUint64 <? n1 then inr ErrRange else parseDigits t n1
      else inr ErrSyntax
  end.

Definition parseUint (s : string) : Z + numErr :=
  match s with
  | EmptyString => inr ErrSyntax
  | _ => parseDigits s 0
  end.

(** [strconv.ParseUint(s, 10, 64)]. *)
Definition ParseUint (s : string) : result Z :=
  match parseUint s with
  | inl n => Ok n
  | inr ErrSyntax => Err (syntaxError "ParseUint" s)
  | inr ErrRange => Err (rangeError "ParseUint" s)
  end.

(** [strconv.ParseInt(s, 10, 64)]. *)
Definition ParseInt (s0 : string) : result Z :=
  match s0 with
  | EmptyString => Err (syntaxError "ParseInt" s0)
  | String c t =>
      let neg := Ascii.eqb c "-" in
      let s := if Ascii.eqb c "+" || neg then t else s0 in
      match parseUint s with
      | inr ErrSyntax => Err (syntaxError "ParseInt" s0)
      | inr ErrRange =>
          (* [un] is the largest uint64: out of range for either sign *)
          Err (rangeError "ParseInt" s0)
      | inl un =>
          let cutoff := 2 ^ 63 in
          if negb neg && (cutoff <=? un) then Err (rangeError "ParseInt" s0)
          else if neg && (cutoff <? un) then Err (rangeError "ParseInt" s0)
          else Ok (if neg then - un else un)
      end
  end.

(** [%d] of an integer. *)
Definition Itoa (n : Z) : string :=
  DecimalString.NilZero.string_of_int (Z.to_int n).

End strconv.

(** ** regexp: leftmost-first matching with submatches *)

Module regexp.

Inductive regex : Type :=
| Empty
| Class (p : ascii -> bool)
| Cat (r1 r2 : regex)
| Alt (r1 r2 : regex)
| Star (r : regex)
| Cap (n : nat) (r : regex).

(** [r+], [r?] and a literal string. *)
Definition Plus (r : regex) : regex := Cat r (Star r).
Definition Opt (r : regex) : regex := Alt r Empty.
Fixpoint Lit (s : string) : regex :=
  match s with
  | EmptyString => Empty
  | String c t => Cat (Class (Ascii.eqb c)) (Lit t)
  end.

(** The preferred way to match [r] at the start of [s] such that the
    continuation [k] accepts the rest: earlier alternatives first, longer
    repetitions first.  [caps] holds the text of each capture group, the
    empty string for a group that took no part. *)
Fixpoint run {R : Type} (r : regex) (s : string) (caps : list string)
    (k : string -> list string -> option R) : option R :=
  match r with
  | Empty => k s caps
  | Class p =>
      match s with
      | String c t => if p c then k t caps else None
      | EmptyString => None
      end
  | Cat r1 r2 => run r1 s caps (fun s' caps' => run r2 s' caps' k)
  | Alt r1 r2 =>
      match run r1 s caps k with
      | Some x => Some x
      | None => run r2 s caps k
      end
  | Star r1 =>
      (fix loop (fuel : nat) (s : string) (caps : list string) : option R :=
         match fuel with
         | O => k s caps
         | S fuel' =>
             match run r1 s caps
                     (fun s' caps' =>
                        if (String.length s' <? String.length s)%nat
                        then loop fuel' s' caps' else None) with
             | Some x => Some x
             | None => k s caps
             end
         end) (String.length s) s caps
  | Cap n r1 =>
      run r1 s caps
        (fun s' caps' =>
           k s' (<[n := strings.take (String.length s - String.length s') s]>
                   caps'))
  end.

(** [FindStringSubmatch] of [^r$] with [groups] capture groups: the whole
    string and the text of each group, or nil. *)
Definition FindStringSubmatchAnchored (groups : nat) (r : regex) (s : string)
  : option (list string) :=
  run r s (s :: replicate groups EmptyString)
    (fun rest caps => match rest with EmptyString => Some caps | _ => None end).

(** The leftmost match of the unanchored [r] in [s]: the submatches (index
    0 is the matched text) and the text after the match. *)
Fixpoint findFrom (groups : nat) (r : regex) (s : string)
  : option (list string * string) :=
  match run r s (EmptyString :: replicate groups EmptyString)
          (fun rest caps =>
             Some (<[O := strings.take (String.length s - String.length rest) s]>
                     caps, rest)) with
  | Some m => Some m
  | None =>
      match s with
      | String _ t => findFrom groups r t
      | EmptyString => None
      end
  end.

(** [FindAllStringSubmatch(s, -1)] of a regexp that matches no empty
    string: the successive non-overlapping leftmost matches. *)
Fixpoint findAll (groups : nat) (r : regex) (s : string) (fuel : nat)
  : list (list string) :=
  match fuel with
  | O => []
  | S fuel' =>
      match findFrom groups r s with
      | Some (caps, rest) => caps :: findAll groups r rest fuel'
      | None => []
      end
  end.

Definition FindAllStringSubmatch (groups : nat) (r : regex) (s : string)
  : list (list string) :=
  findAll groups r s (String.length s).

End regexp.

(** ** github.com/Masterminds/semver (v1): versions *)

Module semver.

Import regexp.

Record Version : Type := mkVersion {
  major : Z;
  minor : Z;
  patch : Z;
  pre : string;
  metadata : string;
  original : string
}.

Definition inRange (lo hi : string) (c : ascii) : bool :=
  match lo, hi with
  | String l _, String h _ =>
      (nat_of_ascii l <=? nat_of_ascii c)%nat &&
      (nat_of_ascii c <=? nat_of_ascii h)%nat
  | _, _ => false
  end.

(** [[0-9]] *)
Definition digit (c : ascii) : bool := inRange "0" "9" c.

(** [[0-9A-Za-z\-]] *)
Definition identChar (c : ascii) : bool :=
  inRange "0" "9" c || inRange "A" "Z" c || inRange "a" "z" c ||
  Ascii.eqb c "-".

(** [[0-9|x|X|\*]]: inside a class the bars are characters too. *)
Definition cvChar (c : ascii) : bool :=
  inRange "0" "9" c || Ascii.eqb c "|" || Ascii.eqb c "x" ||
  Ascii.eqb c "X" || Ascii.eqb c "*".

(** [\s] *)
Definition space (c : ascii) : bool :=
  let n := nat_of_ascii c in
  (n =? 9)%nat || (n =? 10)%nat || (n =? 12)%nat || (n =? 13)%nat ||
  (n =? 32)%nat.

(** [[0-9A-Za-z\-]+(\.[0-9A-Za-z\-]+)*], the inner group numbered [g]. *)
Definition dotted (g : nat) : regex :=
  Cat (Plus (Class identChar))
      (Star (Cap g (Cat (Lit ".") (Plus (Class identChar))))).

(** The shape shared by [SemVerRegex] and [cvRegex]: [num] is the class of
    a numeric segment and the nine groups are numbered from [b + 1]. *)
Definition versionShape (num : ascii -> bool) (b : nat) : regex :=
  Cat (Opt (Lit "v"))
 (Cat (Cap (b + 1) (Plus (Class num)))
 (Cat (Opt (Cap (b + 2) (Cat (Lit ".") (Plus (Class num)))))
 (Cat (Opt (Cap (b + 3) (Cat (Lit ".") (Plus (Class num)))))
 (Cat (Opt (Cap (b + 4) (Cat (Lit "-") (Cap (b + 5) (dotted (b + 6))))))
      (Opt (Cap (b + 7) (Cat (Lit "+") (Cap (b + 8) (dotted (b + 9)))))))))).

(** [v?([0-9]+)(\.[0-9]+)?(\.[0-9]+)?(-(...))?(\+(...))?] *)
Definition SemVerRegex : regex := versionShape digit 0.

(** [versionRegex = "^" + SemVerRegex + "$"] *)
Definition versionRegexFind (v : string) : option (list string) :=
  FindStringSubmatchAnchored 9 SemVerRegex v.

Definition ErrInvalidSemVer : error := New "Invalid Semantic Version".

(** [m[i]] of a submatch slice. *)
Definition sub (m : list string) (i : nat) : string :=
  default EmptyString (m !! i).

(** One of the optional segments of [NewVersion]: zero when the group is
    empty, else the number after the dot. *)
Definition parseSegment (g : string) : result Z :=
  if String.eqb g EmptyString then Ok 0
  else strconv.ParseInt (strings.TrimPrefix g ".").

Definition segmentError (err : error) : error :=
  fundamental (lit "Error parsing version segment: " :: Error err).

(** [semver.NewVersion(v)] *)
Definition NewVersion (v : string) : result Version :=
  match versionRegexFind v with
  | None => Err ErrInvalidSemVer
  | Some m =>
      match strconv.ParseInt (sub m 1) with
      | Err err => Err (segmentError err)
      | Ok ma =>
          match parseSegment (sub m 2) with
          | Err err => Err (segmentError err)
          | Ok mi =>
              match parseSegment (sub m 3) with
              | Err err => Err (segmentError err)
              | Ok pa =>
                  Ok {| major := ma; minor := mi; patch := pa;
                        pre := sub m 5; metadata := sub m 8; original := v |}
              end
          end
      end
  end.

(** [v.String()] *)
Definition String (v : Version) : string :=
  strconv.Itoa (major v) +:+ "." +:+ strconv.Itoa (minor v) +:+ "." +:+
  strconv.Itoa (patch v) +:+
  (if String.eqb (pre v) EmptyString then EmptyString else "-" +:+ pre v) +:+
  (if String.eqb (metadata v) EmptyString then EmptyString
   else "+" +:+ metadata v).

Definition compareSegment (v o : Z) : Z :=
  if v <? o then -1 else if o <? v then 1 else 0.

Definition isErr {T : Type} (r : result T) : bool :=
  match r with Err _ => true | Ok _ => false end.

Definition valueOr0 (r : result Z) : Z :=
  match r with Ok n => n | Err _ => 0 end.

(** [comparePrePart(s, o)] *)
Definition comparePrePart (s o : string) : Z :=
  if String.eqb s o then 0
  else if String.eqb s EmptyString then
    (if negb (String.eqb o EmptyString) then -1 else 1)
  else if String.eqb o EmptyString then
    (if negb (String.eqb s EmptyString) then 1 else -1)
  else
    let oi := strconv.ParseUint o in
    let si := strconv.ParseUint s in
    if isErr oi && isErr si then
      (match String.compare s o with Gt => 1 | _ => -1 end)
    else if isErr oi then -1
    else if isErr si then 1
    else if valueOr0 oi <? valueOr0 si then 1 else -1.

(** The loop of [comparePrerelease]: parts [i], [i+1], ... for [n] more
    rounds, a missing part read as the empty string. *)
Fixpoint comparePreLoop (sparts oparts : list string) (i n : nat) : Z :=
  match n with
  | O => 0
  | S n' =>
      let d := comparePrePart (sub sparts i) (sub oparts i) in
      if d =? 0 then comparePreLoop sparts oparts (S i) n' else d
  end.

(** [comparePrerelease(v, o)] *)
Definition comparePrerelease (v o : string) : Z :=
  let sparts := strings.Split v "." in
  let oparts := strings.Split o "." in
  comparePreLoop sparts oparts 0 (Nat.max (length sparts) (length oparts)).

(** [v.Compare(o)] *)
Definition Compare (v o : Version) : Z :=
  let d := compareSegment (major v) (major o) in
  if negb (d =? 0) then d else
  let d := compareSegment (minor v) (minor o) in
  if negb (d =? 0) then d else
  let d := compareSegment (patch v) (patch o) in
  if negb (d =? 0) then d else
  let ps := pre v in
  let po := pre o in
  if String.eqb ps EmptyString && String.eqb po EmptyString then 0
  else if String.eqb ps EmptyString then 1
  else if String.eqb po EmptyString then -1
  else comparePrerelease ps po.

Definition LessThan (v o : Version) : bool := Compare v o <? 0.
Definition GreaterThan (v o : Version) : bool := 0 <? Compare v o.
Definition Equal (v o : Version) : bool := Compare v o =? 0.

(** *** Constraints *)

(** [cvRegex]: [SemVerRegex] with [[0-9|x|X|\*]+] for the numeric segments. *)
Definition cvRegex (b : nat) : regex := versionShape cvChar b.

(** The constraint functions, by the operators that select them. *)
Inductive cfunc : Type :=
| opTildeOrEqual | opNotEqual | opGreaterThan | opLessThan
| opGreaterThanEqual | opLessThanEqual | opTilde | opCaret.

(** The table [constraintOps]. *)
Definition constraintOps (op : string) : option cfunc :=
  if String.eqb op "" then Some opTildeOrEqual
  else if String.eqb op "=" then Some opTildeOrEqual
  else if String.eqb op "!=" then Some opNotEqual
  else if String.eqb op ">" then Some opGreaterThan
  else if String.eqb op "<" then Some opLessThan
  else if String.eqb op ">=" then Some opGreaterThanEqual
  else if String.eqb op "=>" then Some opGreaterThanEqual
  else if String.eqb op "<=" then Some opLessThanEqual
  else if String.eqb op "=<" then Some opLessThanEqual
  else if String.eqb op "~" then Some opTilde
  else if String.eqb op "~>" then Some opTilde
  else if String.eqb op "^" then Some opCaret
  else None.

(** The alternation of the operators.  The library builds it by ranging
    over the table, in no fixed order; the anchored match does not depend on
    the order, since no character that starts a version or is a blank occurs
    in an operator. *)
Definition opsRegex : regex :=
  Alt (Lit ">=") (Alt (Lit "=>") (Alt (Lit "<=") (Alt (Lit "=<")
 (Alt (Lit "~>") (Alt (Lit "!=") (Alt (Lit "=") (Alt (Lit ">")
 (Alt (Lit "<") (Alt (Lit "~") (Alt (Lit "^") Empty)))))))))).

(** [^\s*(ops)\s*(cvRegex)\s*$]: group 1 the operator, group 2 the version,
    groups 3 to 11 those of [cvRegex]. *)
Definition constraintRegex : regex :=
  Cat (Star (Class space))
 (Cat (Cap 1 opsRegex)
 (Cat (Star (Class space))
 (Cat (Cap 2 (cvRegex 2))
      (Star (Class space))))).

(** [\s*(cvRegex)\s+-\s+(cvRegex)\s*]: groups 1 and 11 the two versions. *)
Definition constraintRangeRegex : regex :=
  Cat (Star (Class space))
 (Cat (Cap 1 (cvRegex 1))
 (Cat (Plus (Class space))
 (Cat (Lit "-")
 (Cat (Plus (Class space))
 (Cat (Cap 11 (cvRegex 11))
      (Star (Class space))))))).

Record constraint : Type := mkConstraint {
  function : cfunc;
  con : Version;
  orig : string;
  minorDirty : bool;
  dirty : bool;
  patchDirty : bool
}.

(** [isX(x)] *)
Definition isX (x : string) : bool :=
  String.eqb x "x" || String.eqb x "*" || String.eqb x "X".

(** [rewriteRange(i)]: hyphen ranges become a pair of comparisons. *)
Definition rewriteRange (i : string) : string :=
  foldl (fun o v =>
           strings.Replace1 o (sub v 0)
             (">= " +:+ sub v 1 +:+ ", <= " +:+ sub v 11))
        i (FindAllStringSubmatch 20 constraintRangeRegex i).

(** [parseConstraint(c)] *)
Definition parseConstraint (c : string) : result constraint :=
  match FindStringSubmatchAnchored 11 constraintRegex c with
  | None => Err (fundamental [lit ("improper constraint: " +:+ c)])
  | Some m =>
      let '(ver, minorD, patchD, d) :=
        if isX (sub m 3) then ("0.0.0", false, false, true)
        else if isX (strings.TrimPrefix (sub m 4) ".")
                || String.eqb (sub m 4) EmptyString
        then (sub m 3 +:+ ".0.0" +:+ sub m 6, true, false, true)
        else if isX (strings.TrimPrefix (sub m 5) ".")
        then (sub m 3 +:+ sub m 4 +:+ ".0" +:+ sub m 6, false, true, true)
        else (sub m 2, false, false, false) in
      match NewVersion ver, constraintOps (sub m 1) with
      | Ok cv, Some f =>
          Ok {| function := f; con := cv; orig := sub m 2;
                minorDirty := minorD; dirty := d; patchDirty := patchD |}
      | _, _ => Err (New "constraint Parser Error")
      end
  end.

Definition isNonZero (v : Version) : bool :=
  negb (major v =? 0) || negb (minor v =? 0) || negb (patch v =? 0) ||
  negb (String.eqb (pre v) EmptyString).

(** The guard that opens most constraint functions: a prerelease version
    against a constraint that names none. *)
Definition prereleaseMismatch (v : Version) (c : constraint) : bool :=
  negb (String.eqb (pre v) EmptyString) &&
  String.eqb (pre (con c)) EmptyString.

Definition constraintNotEqual (v : Version) (c : constraint) : bool :=
  if dirty c then
    if prereleaseMismatch v c then false
    else if negb (major (con c) =? major v) then true
    else if negb (minor (con c) =? minor v) && negb (minorDirty c) then true
    else false
  else negb (Equal v (con c)).

Definition constraintGreaterThan (v : Version) (c : constraint) : bool :=
  if negb (isNonZero (con c)) && isNonZero v then true
  else if prereleaseMismatch v c then false
  else Compare v (con c) =? 1.

Definition constraintLessThan (v : Version) (c : constraint) : bool :=
  if prereleaseMismatch v c then false
  else if negb (dirty c) then Compare v (con c) <? 0
  else if major (con c) <? major v then false
  else if (minor (con c) <? minor v) && negb (minorDirty c) then false
  else true.

Definition constraintGreaterThanEqual (v : Version) (c : constraint) : bool :=
  if negb (isNonZero (con c)) && isNonZero v then true
  else if prereleaseMismatch v c then false
  else 0 <=? Compare v (con c).

Definition constraintLessThanEqual (v : Version) (c : constraint) : bool :=
  if prereleaseMismatch v c then false
  else if negb (dirty c) then Compare v (con c) <=? 0
  else if major (con c) <? major v then false
  else if (minor (con c) <? minor v) && negb (minorDirty c) then false
  else true.

Definition constraintTilde (v : Version) (c : constraint) : bool :=
  if prereleaseMismatch v c then false
  else if LessThan v (con c) then false
  else if (major (con c) =? 0) && (minor (con c) =? 0) && (patch (con c) =? 0)
          && negb (minorDirty c) && negb (patchDirty c) then true
  else if negb (major v =? major (con c)) then false
  else if negb (minor v =? minor (con c)) && negb (minorDirty c) then false
  else true.

Definition constraintTildeOrEqual (v : Version) (c : constraint) : bool :=
  if prereleaseMismatch v c then false
  else if dirty c then constraintTilde v c
  else Equal v (con c).

Definition constraintCaret (v : Version) (c : constraint) : bool :=
  if prereleaseMismatch v c then false
  else if LessThan v (con c) then false
  else if negb (major v =? major (con c)) then false
  else true.

(** [c.check(v)] *)
Definition check (c : constraint) (v : Version) : bool :=
  match function c with
  | opTildeOrEqual => constraintTildeOrEqual v c
  | opNotEqual => constraintNotEqual v c
  | opGreaterThan => constraintGreaterThan v c
  | opLessThan => constraintLessThan v c
  | opGreaterThanEqual => constraintGreaterThanEqual v c
  | opLessThanEqual => constraintLessThanEqual v c
  | opTilde => constraintTilde v c
  | opCaret => constraintCaret v c
  end.

(** A disjunction of conjunctions of constraints. *)
Record Constraints : Type := mkConstraints {
  constraints : list (list constraint)
}.

(** The first error of a loop that parses every element. *)
Fixpoint parseEach {T U : Type} (f : T -> result U) (l : list T)
  : result (list U) :=
  match l with
  | [] => Ok []
  | x :: l' =>
      match f x with
      | Err e => Err e
      | Ok y =>
          match parseEach f l' with
          | Err e => Err e
          | Ok ys => Ok (y :: ys)
          end
      end
  end.

(** [semver.NewConstraint(c)] *)
Definition NewConstraint (c : string) : result Constraints :=
  let c := rewriteRange c in
  let ors := strings.Split c "||" in
  match parseEach (fun v => parseEach parseConstraint (strings.Split v ","))
          ors with
  | Err e => Err e
  | Ok or => Ok {| constraints := or |}
  end.

(** [cs.Check(v)] *)
Definition Check (cs : Constraints) (v : Version) : bool :=
  existsb (fun o => forallb (fun c => check c v) o) (constraints cs).

End semver.

(** ** sort.Sort: pattern-defeating quicksort (Go 1.19 and later)

    [data] is the slice behind a [sort.Interface]; [Less] and [Swap] are
    the interface's methods for a slice type such as [semver.Collection].
    The sort only passes indices below [Len()] to them. *)

Module sort.

Section Interface.

Context {A : Type} (less : A -> A -> bool).

(** [data.Less(i, j)] *)
Definition Less (data : list A) (i j : nat) : bool :=
  match data !! i, data !! j with
  | Some x, Some y => less x y
  | _, _ => false
  end.

(** [data.Swap(i, j)] *)
Definition Swap (data : list A) (i j : nat) : list A :=
  match data !! i, data !! j with
  | Some x, Some y => <[j := x]> (<[i := y]> data)
  | _, _ => data
  end.

(** The inner loop of [insertionSort]:
    [for j := i; j > a && data.Less(j, j-1); j-- { data.Swap(j, j-1) }]. *)
Fixpoint insertionInner (data : list A) (a j : nat) : list A :=
  match j with
  | O => data
  | S j' =>
      if (a <? j)%nat && Less data j j'
      then insertionInner (Swap data j j') a j'
      else data
  end.

(** The outer loop, [for i := a + 1; i < b; i++], with [n = b - i] rounds
    to go. *)
Fixpoint insertionOuter (data : list A) (a i n : nat) : list A :=
  match n with
  | O => data
  | S n' => insertionOuter (insertionInner data a i) a (S i) n'
  end.

(** [insertionSort(data, a, b)] *)
Definition insertionSort (data : list A) (a b : nat) : list A :=
  insertionOuter data a (a + 1) (b - (a + 1)).

(** [siftDown(data, lo, hi, first)]; [root] starts at [lo] and at least
    doubles in every round, so [hi] rounds are enough. *)
Fixpoint siftDownLoop (fuel : nat) (data : list A) (root hi first : nat)
  : list A :=
  match fuel with
  | O => data
  | S fuel' =>
      let child := (2 * root + 1)%nat in
      if (hi <=? child)%nat then data
      else
        let child :=
          if (child + 1 <? hi)%nat
             && Less data (first + child) (first + child + 1)
          then (child + 1)%nat else child in
        if negb (Less data (first + root) (first + child)) then data
        else siftDownLoop fuel' (Swap data (first + root) (first + child))
               child hi first
  end.

Definition siftDown (data : list A) (lo hi first : nat) : list A :=
  siftDownLoop hi data lo hi first.

(** [for i := (hi - 1) / 2; i >= 0; i-- { siftDown(data, i, hi, first) }],
    [n] being [i + 1]. *)
Fixpoint heapBuild (data : list A) (n hi first : nat) : list A :=
  match n with
  | O => data
  | S i => heapBuild (siftDown data i hi first) i hi first
  end.

(** [for i := hi - 1; i >= 0; i-- { data.Swap(first, first+i);
    siftDown(data, lo, i, first) }], [n] being [i + 1]. *)
Fixpoint heapPop (data : list A) (n first : nat) : list A :=
  match n with
  | O => data
  | S i => heapPop (siftDown (Swap data first (first + i)) 0 i first) i first
  end.

(** [heapSort(data, a, b)] *)
Definition heapSort (data : list A) (a b : nat) : list A :=
  let first := a in
  let hi := (b - a)%nat in
  heapPop (heapBuild data ((hi - 1) / 2 + 1) hi first) hi first.

Inductive sortedHint : Type := unknownHint | increasingHint | decreasingHint.

(** [order2(data, a, b, swaps)] *)
Definition order2 (data : list A) (a b swaps : nat) : nat * nat * nat :=
  if Less data b a then (b, a, S swaps) else (a, b, swaps).

(** [median(data, a, b, c, swaps)] *)
Definition median (data : list A) (a b c swaps : nat) : nat * nat :=
  let '(a, b, swaps) := order2 data a b swaps in
  let '(b, c, swaps) := order2 data b c swaps in
  let '(a, b, swaps) := order2 data a b swaps in
  (b, swaps).

(** [medianAdjacent(data, a, swaps)] *)
Definition medianAdjacent (data : list A) (a swaps : nat) : nat * nat :=
  median data (a - 1) a (a + 1) swaps.

(** [choosePivot(data, a, b)] *)
Definition choosePivot (data : list A) (a b : nat) : nat * sortedHint :=
  let l := (b - a)%nat in
  let i := (a + l / 4 * 1)%nat in
  let j := (a + l / 4 * 2)%nat in
  let k := (a + l / 4 * 3)%nat in
  let '(j, swaps) :=
    if (8 <=? l)%nat then
      let '(i, j, k, swaps) :=
        if (50 <=? l)%nat then
          let '(i, swaps) := medianAdjacent data i 0 in
          let '(j, swaps) := medianAdjacent data j swaps in
          let '(k, swaps) := medianAdjacent data k swaps in
          (i, j, k, swaps)
        else (i, j, k, O) in
      median data i j k swaps
    else (j, O) in
  if (swaps =? 0)%nat then (j, increasingHint)
  else if (swaps =? 4 * 3)%nat then (j, decreasingHint)
  else (j, unknownHint).

(** [for i < j { data.Swap(i, j); i++; j-- }] *)
Fixpoint reverseLoop (data : list A) (i j n : nat) : list A :=
  match n with
  | O => data
  | S n' =>
      if (i <? j)%nat then reverseLoop (Swap data i j) (i + 1) (j - 1) n'
      else data
  end.

(** [reverseRange(data, a, b)] *)
Definition reverseRange (data : list A) (a b : nat) : list A :=
  reverseLoop data a (b - 1) (b - a).

(** [for i < b && !data.Less(i, i-1) { i++ }], at most [n] rounds. *)
Fixpoint skipOrdered (data : list A) (i b n : nat) : nat :=
  match n with
  | O => i
  | S n' =>
      if (i <? b)%nat && negb (Less data i (i - 1))
      then skipOrdered data (i + 1) b n' else i
  end.

(** [for j := i - 1; j >= 1; j-- { if !data.Less(j, j-1) { break };
    data.Swap(j, j-1) }] *)
Fixpoint shiftLeft (data : list A) (j : nat) : list A :=
  match j with
  | O => data
  | S j' =>
      if negb (Less data j j') then data
      else shiftLeft (Swap data j j') j'
  end.

(** [for j := i + 1; j < b; j++ { if !data.Less(j, j-1) { break };
    data.Swap(j, j-1) }], [n] being [b - j]. *)
Fixpoint shiftRight (data : list A) (j n : nat) : list A :=
  match n with
  | O => data
  | S n' =>
      if negb (Less data j (j - 1)) then data
      else shiftRight (Swap data j (j - 1)) (j + 1) n'
  end.

(** The loop of [partialInsertionSort], [steps] rounds to go. *)
Fixpoint partialInsertionLoop (data : list A) (a b i steps : nat)
  : list A * bool :=
  match steps with
  | O => (data, false)
  | S steps' =>
      let i := skipOrdered data i b (b - i) in
      if (i =? b)%nat then (data, true)
      else if (b - a <? 50)%nat then (data, false)
      else
        let data := Swap data i (i - 1) in
        let data := if (2 <=? i - a)%nat then shiftLeft data (i - 1) else data in
        let data :=
          if (2 <=? b - i)%nat then shiftRight data (i + 1) (b - (i + 1))
          else data in
        partialInsertionLoop data a b i steps'
  end.

(** [partialInsertionSort(data, a, b)] *)
Definition partialInsertionSort (data : list A) (a b : nat) : list A * bool :=
  partialInsertionLoop data a b (a + 1) 5.

(** [for i <= j && data.Less(i, a) { i++ }], at most [n] rounds. *)
Fixpoint scanLess (data : list A) (a i j n : nat) : nat :=
  match n with
  | O => i
  | S n' =>
      if (i <=? j)%nat && Less data i a then scanLess data a (i + 1) j n'
      else i
  end.

(** [for i <= j && !data.Less(j, a) { j-- }]; [i] is at least 1. *)
Fixpoint scanNotLess (data : list A) (a i j : nat) : nat :=
  match j with
  | O => O
  | S j' =>
      if (i <=? j)%nat && negb (Less data j a) then scanNotLess data a i j'
      else j
  end.

(** The second loop of [partition]. *)
Fixpoint partitionLoop (fuel : nat) (data : list A) (a i j : nat)
  : list A * nat :=
  match fuel with
  | O => (data, j)
  | S fuel' =>
      let i := scanLess data a i j (S j - i) in
      let j := scanNotLess data a i j in
      if (j <? i)%nat then (data, j)
      else partitionLoop fuel' (Swap data i j) a (i + 1) (j - 1)
  end.

(** [partition(data, a, b, pivot)]: the slice, the pivot's new index and
    whether the slice was already partitioned. *)
Definition partition (data : list A) (a b pivot : nat) : list A * nat * bool :=
  let data := Swap data a pivot in
  let i := (a + 1)%nat in
  let j := (b - 1)%nat in
  let i := scanLess data a i j (S j - i) in
  let j := scanNotLess data a i j in
  if (j <? i)%nat then (Swap data j a, j, true)
  else
    let data := Swap data i j in
    let '(data, j) := partitionLoop (b - a) data a (i + 1) (j - 1) in
    (Swap data j a, j, false).

(** [for i <= j && !data.Less(a, i) { i++ }] *)
Fixpoint scanNotGreater (data : list A) (a i j n : nat) : nat :=
  match n with
  | O => i
  | S n' =>
      if (i <=? j)%nat && negb (Less data a i)
      then scanNotGreater data a (i + 1) j n' else i
  end.

(** [for i <= j && data.Less(a, j) { j-- }] *)
Fixpoint scanGreater (data : list A) (a i j : nat) : nat :=
  match j with
  | O => O
  | S j' =>
      if (i <=? j)%nat && Less data a j then scanGreater data a i j' else j
  end.

Fixpoint partitionEqualLoop (fuel : nat) (data : list A) (a i j : nat)
  : list A * nat :=
  match fuel with
  | O => (data, i)
  | S fuel' =>
      let i := scanNotGreater data a i j (S j - i) in
      let j := scanGreater data a i j in
      if (j <? i)%nat then (data, i)
      else partitionEqualLoop fuel' (Swap data i j) a (i + 1) (j - 1)
  end.

(** [partitionEqual(data, a, b, pivot)] *)
Definition partitionEqual (data : list A) (a b pivot : nat) : list A * nat :=
  let data := Swap data a pivot in
  partitionEqualLoop (S (b - a)) data a (a + 1) (b - 1).

(** [bits.Len(uint(n))] *)
Definition bitsLen (n : nat) : nat :=
  match n with
  | O => O
  | _ => S (Nat.log2 n)
  end.

(** [random.Next()] of [type xorshift uint64].  It only chooses which
    elements [breakPatterns] swaps: no property below depends on the shift
    amounts. *)
Definition xorshiftNext (r : Z) : Z :=
  let r := Z.lxor r (Z.shiftl r 13 mod 2 ^ 64) in
  let r := Z.lxor r (Z.shiftr r 17) in
  Z.lxor r (Z.shiftl r 5 mod 2 ^ 64).

(** The three swaps of [breakPatterns]. *)
Fixpoint breakLoop (data : list A) (a idx length : nat) (modulus random : Z)
    (i n : nat) : list A :=
  match n with
  | O => data
  | S n' =>
      let random := xorshiftNext random in
      let other := Z.to_nat (Z.land random (modulus - 1)) in
      let other := if (length <=? other)%nat then (other - length)%nat else other in
      breakLoop (Swap data (idx - 1 + i) (a + other)) a idx length modulus
        random (S i) n'
  end.

(** [breakPatterns(data, a, b)] *)
Definition breakPatterns (data : list A) (a b : nat) : list A :=
  let length := (b - a)%nat in
  if (8 <=? length)%nat then
    let random := Z.of_nat length in
    let modulus := 2 ^ Z.of_nat (bitsLen length) in
    let idx := (a + length / 4 * 2 - 1)%nat in
    breakLoop data a idx length modulus random 0 3
  else data.

Definition isIncreasing (h : sortedHint) : bool :=
  match h with increasingHint => true | _ => false end.

Definition isDecreasing (h : sortedHint) : bool :=
  match h with decreasingHint => true | _ => false end.

(** [pdqsort(data, a, b, limit)]; the two flags are the loop's
    [wasBalanced] and [wasPartitioned].  Every round and every recursive
    call works on a shorter range, so [b - a] units of fuel are enough. *)
Fixpoint pdqsortLoop (fuel : nat) (data : list A) (a b limit : nat)
    (wasBalanced wasPartitioned : bool) : list A :=
  match fuel with
  | O => data
  | S fuel' =>
      let length := (b - a)%nat in
      if (length <=? 12)%nat then insertionSort data a b
      else if (limit =? 0)%nat then heapSort data a b
      else
        let '(data, limit) :=
          if negb wasBalanced then (breakPatterns data a b, (limit - 1)%nat)
          else (data, limit) in
        let '(pivot, hint) := choosePivot data a b in
        let '(data, pivot, hint) :=
          if isDecreasing hint
          then (reverseRange data a b, (b - 1 - (pivot - a))%nat, increasingHint)
          else (data, pivot, hint) in
        let '(data, done) :=
          if wasBalanced && wasPartitioned && isIncreasing hint
          then partialInsertionSort data a b else (data, false) in
        if done then data
        else if (0 <? a)%nat && negb (Less data (a - 1) pivot) then
          let '(data, mid) := partitionEqual data a b pivot in
          pdqsortLoop fuel' data mid b limit wasBalanced wasPartitioned
        else
          let '(data, mid, alreadyPartitioned) := partition data a b pivot in
          let leftLen := (mid - a)%nat in
          let rightLen := (b - mid)%nat in
          let balanceThreshold := (length / 8)%nat in
          if (leftLen <? rightLen)%nat then
            let data := pdqsortLoop fuel' data a mid limit true true in
            pdqsortLoop fuel' data (mid + 1) b limit
              (balanceThreshold <=? leftLen)%nat alreadyPartitioned
          else
            let data := pdqsortLoop fuel' data (mid + 1) b limit true true in
            pdqsortLoop fuel' data a mid limit
              (balanceThreshold <=? rightLen)%nat alreadyPartitioned
  end.

Definition pdqsort (data : list A) (a b limit : nat) : list A :=
  pdqsortLoop (S (b - a)) data a b limit true true.

(** [sort.Sort(data)] *)
Definition Sort (data : list A) : list A :=
  let n := length data in
  if (n <=? 1)%nat then data
  else pdqsort data 0 n (bitsLen n).

End Interface.

End sort.

(** ** path/filepath and os/exec, on Unix *)

Module filepath.

(** [path] without its trailing separators. *)
Fixpoint stripTrailingSeparators (path : string) : string :=
  match path with
  | EmptyString => EmptyString
  | String c t =>
      let t' := stripTrailingSeparators t in
      if String.eqb t' EmptyString && Ascii.eqb c "/" then EmptyString
      else String c t'
  end.

Fixpoint hasSeparator (path : string) : bool :=
  match path with
  | EmptyString => false
  | String c t => Ascii.eqb c "/" || hasSeparator t
  end.

(** What follows the last separator of [path]; [path] when it has none. *)
Fixpoint lastElement (path : string) : string :=
  match path with
  | EmptyString => EmptyString
  | String c t =>
      if hasSeparator t then lastElement t
      else if Ascii.eqb c "/" then t else path
  end.

(** [filepath.Base(path)] *)
Definition Base (path : string) : string :=
  if String.eqb path EmptyString then "."
  else
    let path := lastElement (stripTrailingSeparators path) in
    if String.eqb path EmptyString then "/" else path.

End filepath.

Module exec.

(** [exec.Cmd]: the fields that [exec.Command] and the code set.  [Env] is
    [None] for a nil slice. *)
Record Cmd : Type := mkCmd {
  Path : string;
  Args : list string;
  Env : option (list string);
  Err : option error
}.

Section LookPath.

(** [exec.LookPath(file)]: the path found, empty when there is none, and
    the error. *)
Variable LookPath : string -> string * option error.

(** [exec.Command(name, arg...)] *)
Definition Command (name : string) (arg : list string) : Cmd :=
  let cmd := {| Path := name; Args := name :: arg; Env := None;
                Err := None |} in
  if String.eqb (filepath.Base name) name then
    let '(lp, err) := LookPath name in
    let cmd :=
      if negb (String.eqb lp EmptyString)
      then {| Path := lp; Args := Args cmd; Env := Env cmd; Err := Err cmd |}
      else cmd in
    match err with
    | Some e =>
        {| Path := Path cmd; Args := Args cmd; Env := Env cmd; Err := Some e |}
    | None => cmd
    end
  else cmd.

End LookPath.

End exec.

(** ** internal/helm *)

Module helm.

Import strings.

Record Credentials : Type := mkCredentials {
  Username : string;
  Password : string
}.

(** *** What the code sees of net/http, yaml and the OCI registry client *)

(** A request as [http.NewRequest] builds it; [BasicAuth] is the pair set
    by [req.SetBasicAuth]. *)
Record Request : Type := mkRequest {
  Method : string;
  URL : string;
  BasicAuth : option (string * string)
}.

(** A response: its status code and what [io.ReadAll(res.Body)] yields. *)
Record Response : Type := mkResponse {
  StatusCode : Z;
  Body : result string
}.

(** The struct the index document is unmarshalled into. *)
Record entry : Type := mkEntry { Version : string }.

Record index : Type := mkIndex { Entries : gmap string (list entry) }.

(** [auth.Credential] *)
Record Credential : Type := mkCredential {
  CredUsername : string;
  CredPassword : string;
  RefreshToken : string;
  AccessToken : string
}.

Definition EmptyCredential : Credential :=
  mkCredential EmptyString EmptyString EmptyString EmptyString.

(** A Go run-time panic. *)
Inductive runtimeError : Type :=
| indexOutOfRange (i : Z).

(** A call returns or panics. *)
Inductive outcome (T : Type) : Type :=
| Return (v : T)
| Panic (e : runtimeError).

Arguments Return {T} v.
Arguments Panic {T} e.

(** [s[i]] with Go's bounds check. *)
Definition at_index {T : Type} (s : list T) (i : Z) : outcome T :=
  if (0 <=? i) && (i <? Z.of_nat (length s)) then
    match s !! Z.to_nat i with
    | Some x => Return x
    | None => Panic (indexOutOfRange i)
    end
  else Panic (indexOutOfRange i).

(** *** getLatestVersion *)

(** The loop over [versions] that fills [semvers]: the parsed versions in
    order, or the first entry that does not parse with its error. *)
Fixpoint parseVersions (versions : list string)
  : list semver.Version + string * error :=
  match versions with
  | [] => inl []
  | version :: rest =>
      match semver.NewVersion version with
      | Err err => inr (version, err)
      | Ok v =>
          match parseVersions rest with
          | inl semvers => inl (v :: semvers)
          | inr bad => inr bad
          end
      end
  end.

(** [for i := len(semvers) - 1; i >= 0; i--], [n] being [i + 1]: the first
    version, from the end, that the constraint accepts. *)
Fixpoint lastSatisfying (constraint : semver.Constraints)
    (semvers : list semver.Version) (n : nat) : option semver.Version :=
  match n with
  | O => None
  | S i =>
      match semvers !! i with
      | Some v =>
          if semver.Check constraint v then Some v
          else lastSatisfying constraint semvers i
      | None => None
      end
  end.

(** [sort.Sort(semver.Collection(semvers))]: [Collection.Less(i, j)] is
    [c[i].LessThan(c[j])]. *)
Definition sortCollection (semvers : list semver.Version)
  : list semver.Version :=
  sort.Sort semver.LessThan semvers.

Definition getLatestVersion (versions : list string) (constraintStr : string)
  : outcome (string * option error) :=
  match parseVersions versions with
  | inr (version, err) =>
      Return (EmptyString,
              Wrapf (Some err) [lit "error parsing version "; quoted version])
  | inl semvers =>
      let semvers := sortCollection semvers in
      if String.eqb constraintStr EmptyString then
        match at_index semvers (Z.of_nat (length semvers) - 1) with
        | Panic e => Panic e
        | Return v => Return (semver.String v, None)
        end
      else
        match semver.NewConstraint constraintStr with
        | Err err =>
            Return (EmptyString,
                    Wrapf (Some err)
                      [lit "error parsing constraint "; quoted constraintStr])
        | Ok constraint =>
            match lastSatisfying constraint semvers (length semvers) with
            | Some v => Return (semver.String v, None)
            | None => Return (EmptyString, None)
            end
        end
  end.

Section Upstream.

(** [registry.Reference] *)
Variable Reference : Type.

(** The error of [http.NewRequest] for a URL, if any. *)
Variable newRequestError : string -> option error.

(** [http.DefaultClient.Do]: the network. *)
Variable Do : Request -> result Response.

(** [yaml.Unmarshal] into the index struct. *)
Variable yamlUnmarshal : string -> result index.

(** [registry.ParseReference] *)
Variable ParseReference : string -> result Reference.

(** [rep.Tags(ctx, fn)] for a repository with the given reference and
    credential callback: the pages handed to [fn], in order, and the error
    returned at the end, if any. *)
Variable Tags :
  Reference -> (string -> Credential) -> list (list string) * option error.

(** What a call did to the outside world. *)
Inductive event : Type :=
| HTTPDo (req : Request)
| RegistryTags (ref : Reference) (credential : string -> Credential).

(** [http.NewRequest(http.MethodGet, url, nil)] *)
Definition NewRequest (url : string) : result Request :=
  match newRequestError url with
  | Some err => Err err
  | None => Ok {| Method := "GET"; URL := url; BasicAuth := None |}
  end.

Definition SetBasicAuth (req : Request) (username password : string)
  : Request :=
  {| Method := Method req; URL := URL req;
     BasicAuth := Some (username, password) |}.

(** [for i, entry := range entries { versions[i] = entry.Version }] *)
Fixpoint copyVersions (versions : list string) (i : nat)
    (entries : list entry) : list string :=
  match entries with
  | [] => versions
  | e :: rest => copyVersions (<[i := Version e]> versions) (S i) rest
  end.

Definition getChartVersionsFromClassicRepo (repoURL chart : string)
    (creds : option Credentials)
  : (list string * option error) * list event :=
  let indexURL := TrimSuffix repoURL "/" +:+ "/index.yaml" in
  match NewRequest indexURL with
  | Err err =>
      (([], Wrapf (Some err)
              [lit "error preparing HTTP/S request to "; quoted indexURL]),
       [])
  | Ok req =>
      let req :=
        match creds with
        | Some c => SetBasicAuth req (Username c) (Password c)
        | None => req
        end in
      match Do req with
      | Err err =>
          (([], Wrapf (Some err)
                  [lit "error querying repository index at ";
                   quoted indexURL]),
           [HTTPDo req])
      | Ok res =>
          if negb (StatusCode res =? 200) then
            (([], Some (Errorf
                          [lit "received unexpected HTTP ";
                           lit (strconv.Itoa (StatusCode res));
                           lit " when querying repository index at ";
                           quoted indexURL])),
             [HTTPDo req])
          else
            match Body res with
            | Err err =>
                (([], Wrapf (Some err)
                        [lit "error reading repository index from ";
                         quoted indexURL]),
                 [HTTPDo req])
            | Ok resBodyBytes =>
                match yamlUnmarshal resBodyBytes with
                | Err err =>
                    (([], Wrapf (Some err)
                            [lit "error unmarshaling repository index from ";
                             quoted indexURL]),
                     [HTTPDo req])
                | Ok idx =>
                    match Entries idx !! chart with
                    | None =>
                        (([], Some (Errorf
                                      [lit "no versions of chart ";
                                       quoted chart;
                                       lit " found in repository index from ";
                                       quoted indexURL])),
                         [HTTPDo req])
                    | Some entries =>
                        ((copyVersions
                            (replicate (length entries) EmptyString) 0 entries,
                          None),
                         [HTTPDo req])
                    end
                end
            end
      end
  end.

(** In [return versions, errors.Wrapf(rep.Tags(ctx, fn), ...)] the call runs
    before [versions] is read, as the gc compiler orders the operands of a
    return statement: the slice returned holds what [fn] appended. *)
Definition getChartVersionsFromOCIRepo (repoURL : string)
    (creds : option Credentials)
  : (list string * option error) * list event :=
  match ParseReference (TrimPrefix repoURL "oci://") with
  | Err err =>
      (([], Wrapf (Some err)
              [lit "error parsing repository URL "; quoted repoURL]),
       [])
  | Ok ref =>
      let credential := fun _ : string =>
        match creds with
        | Some c =>
            {| CredUsername := Username c; CredPassword := Password c;
               RefreshToken := EmptyString; AccessToken := EmptyString |}
        | None => EmptyCredential
        end in
      let '(pages, err) := Tags ref credential in
      let versions := foldl (fun versions t => versions ++ t) [] pages in
      ((versions,
        Wrapf err
          [lit "error retrieving versions of chart from repository ";
           quoted repoURL]),
       [RegistryTags ref credential])
  end.

Definition SelectChartVersion (repoURL chart semverConstraint : string)
    (creds : option Credentials)
  : outcome (string * option error) * list event :=
  let fetched :=
    if HasPrefix repoURL "http://" || HasPrefix repoURL "https://" then
      Some (getChartVersionsFromClassicRepo repoURL chart creds)
    else if HasPrefix repoURL "oci://" then
      Some (getChartVersionsFromOCIRepo repoURL creds)
    else None in
  match fetched with
  | None =>
      (Return (EmptyString,
               Some (Errorf [lit "repository URL "; quoted repoURL;
                             lit " is invalid"])),
       [])
  | Some ((versions, Some err), trace) =>
      (Return (EmptyString,
               Wrapf (Some err)
                 [lit "error retrieving versions of chart "; quoted chart;
                  lit " from repository "; quoted repoURL]),
       trace)
  | Some ((versions, None), trace) =>
      match getLatestVersion versions semverConstraint with
      | Panic e => (Panic e, trace)
      | Return (latestVersion, err) =>
          (Return (latestVersion,
                   Wrapf err
                     [lit "error determining latest version of chart ";
                      quoted chart; lit " from repository "; quoted repoURL]),
           trace)
      end
  end.

End Upstream.

Section Dependencies.

Variable LookPath : string -> string * option error.

(** [libExec.Exec(cmd)] of [internal/exec]: the output of the run and its
    error. *)
Variable Exec : exec.Cmd -> string * option error.

(** The second component is the command handed to [libExec.Exec]. *)
Definition UpdateChartDependencies (homePath chartPath : string)
  : option error * exec.Cmd :=
  let cmd :=
    exec.Command LookPath "helm" ["dependency"; "update"; chartPath] in
  let homeEnvVar := "HOME=" +:+ homePath in
  let cmd :=
    match exec.Env cmd with
    | None =>
        {| exec.Path := exec.Path cmd; exec.Args := exec.Args cmd;
           exec.Env := Some [homeEnvVar]; exec.Err := exec.Err cmd |}
    | Some env =>
        {| exec.Path := exec.Path cmd; exec.Args := exec.Args cmd;
           exec.Env := Some (env ++ [homeEnvVar]); exec.Err := exec.Err cmd |}
    end in
  let '(_, err) := Exec cmd in
  (Wrapf err
     [lit "error running `helm dependency update` for chart at ";
      quoted chartPath],
   cmd).

End Dependencies.

End helm.

(** ** connectrpc.com/connect *)

Module connect.

Inductive Code : Type :=
| CodeCanceled | CodeUnknown | CodeInvalidArgument | CodeDeadlineExceeded
| CodeNotFound | CodeAlreadyExists | CodePermissionDenied
| CodeResourceExhausted | CodeFailedPrecondition | CodeAborted
| CodeOutOfRange | CodeUnimplemented | CodeInternal | CodeUnavailable
| CodeDataLoss | CodeUnauthenticated.

(** [*connect.Error], as [connect.NewError(c, underlying)] builds it. *)
Record Error : Type := NewError {
  code : Code;
  underlying : option error
}.

End connect.

(** ** internal/api *)

Module api.

(** An [error] the handler returns: a [*connect.Error] or another error. *)
Inductive handlerError : Type :=
| connectError (e : connect.Error)
| otherError (e : error).

Section Server.

(** The protobuf message [StageSpec], the type of the [Spec] field of
    [kargoapi.Stage], what [kargoapi.Stage] holds beside namespace, name
    and spec, and the protobuf message [Stage]. *)
Variable StageSpecProto : Type.
Variable StageSpec : Type.
Variable StageRest : Type.
Variable StageProto : Type.

(** The zero value of the other fields of [kargoapi.Stage]. *)
Variable zeroRest : StageRest.

(** The message [TypedStageSpec]; [Spec] is [None] for a nil pointer. *)
Record TypedStageSpec : Type := mkTypedStageSpec {
  Project : string;
  TypedName : string;
  Spec : option StageSpecProto
}.

(** The oneof [stage] of [CreateStageRequest]; a typed stage may hold a nil
    pointer. *)
Inductive requestStage : Type :=
| stageYaml (yaml : string)
| stageTyped (typed : option TypedStageSpec)
| stageNotSet.

(** The getters of the generated code, which accept a nil receiver. *)
Definition GetYaml (msg : requestStage) : string :=
  match msg with stageYaml yaml => yaml | _ => EmptyString end.

Definition GetTyped (msg : requestStage) : option TypedStageSpec :=
  match msg with stageTyped typed => typed | _ => None end.

Definition GetProject (typed : option TypedStageSpec) : string :=
  match typed with Some t => Project t | None => EmptyString end.

Definition GetName (typed : option TypedStageSpec) : string :=
  match typed with Some t => TypedName t | None => EmptyString end.

Definition GetSpec (typed : option TypedStageSpec) : option StageSpecProto :=
  match typed with Some t => Spec t | None => None end.

(** [kargoapi.Stage] *)
Record Stage : Type := mkStage {
  Namespace : string;
  Name : string;
  StageSpecOf : StageSpec;
  Rest : StageRest
}.

Definition GetNamespace (stage : Stage) : string := Namespace stage.

Record CreateStageResponse : Type := mkCreateStageResponse {
  ResponseStage : StageProto
}.

(** [yaml.Unmarshal] into a zero [kargoapi.Stage]. *)
Variable yamlUnmarshal : string -> result Stage.

Variable FromStageSpecProto : option StageSpecProto -> StageSpec.
Variable ToStageProto : Stage -> StageProto.

(** [s.validateProject(ctx, project)] *)
Variable validateProject : string -> option handlerError.

(** [s.client.Create(ctx, &stage)]: the object as the cluster returns it,
    or the error. *)
Variable clientCreate : Stage -> result Stage.

(** [kubeerr.IsAlreadyExists] *)
Variable IsAlreadyExists : error -> bool.

(** What a call asked of the cluster. *)
Inductive event : Type :=
| ValidateProject (project : string)
| Create (stage : Stage).

Definition invalidArgument (err : option error) : handlerError :=
  connectError (connect.NewError connect.CodeInvalidArgument err).

(** The [switch] of [CreateStage]: the stage to create, or the error. *)
Definition requestedStage (msg : requestStage) : Stage + handlerError :=
  if negb (String.eqb (GetYaml msg) EmptyString) then
    match yamlUnmarshal (GetYaml msg) with
    | Err err => inr (invalidArgument (Wrapf (Some err) [lit "invalid yaml"]))
    | Ok stage => inl stage
    end
  else
    match GetTyped msg with
    | Some _ =>
        if String.eqb (GetProject (GetTyped msg)) EmptyString then
          inr (invalidArgument (Some (New "project should not be empty")))
        else if String.eqb (GetName (GetTyped msg)) EmptyString then
          inr (invalidArgument (Some (New "name should not be empty")))
        else
          inl {| Namespace := GetProject (GetTyped msg);
                 Name := GetName (GetTyped msg);
                 StageSpecOf := FromStageSpecProto (GetSpec (GetTyped msg));
                 Rest := zeroRest |}
    | None => inr (invalidArgument (Some (New "stage should not be empty")))
    end.

Definition CreateStage (msg : requestStage)
  : (option CreateStageResponse * option handlerError) * list event :=
  match requestedStage msg with
  | inr err => ((None, Some err), [])
  | inl stage =>
      match validateProject (GetNamespace stage) with
      | Some err => ((None, Some err), [ValidateProject (GetNamespace stage)])
      | None =>
          let trace := [ValidateProject (GetNamespace stage); Create stage] in
          match clientCreate stage with
          | Err err =>
              if IsAlreadyExists err then
                ((None,
                  Some (connectError
                          (connect.NewError connect.CodeAlreadyExists
                             (Some err)))),
                 trace)
              else
                ((None, otherError <$> Wrapf (Some err) [lit "create stage"]),
                 trace)
          | Ok stage =>
              ((Some {| ResponseStage := ToStageProto stage |}, None), trace)
          end
      end
  end.

End Server.

Arguments Project {StageSpecProto} t.
Arguments TypedName {StageSpecProto} t.
Arguments Spec {StageSpecProto} t.
Arguments stageYaml {StageSpecProto} yaml.
Arguments stageTyped {StageSpecProto} typed.
Arguments stageNotSet {StageSpecProto}.
Arguments Namespace {StageSpec StageRest} s.
Arguments Name {StageSpec StageRest} s.
Arguments StageSpecOf {StageSpec StageRest} s.
Arguments Rest {StageSpec StageRest} s.
Arguments ValidateProject {StageSpec StageRest} project.
Arguments Create {StageSpec StageRest} stage.
Arguments ResponseStage {StageProto} c.

End api.

(** * Vocabulary of the properties *)

Local Close Scope Z_scope.

Module order.

Section Defs.

Context {A : Type}.

Section Less.

Context (less : A -> A -> bool).

(** [less] is a strict weak order on the elements of [l]. *)
Definition StrictWeakOn (l : list A) : Prop :=
  (forall x, x ∈ l -> less x x = false) /\
  (forall x y z, x ∈ l -> y ∈ l -> z ∈ l ->
     less x y = true -> less y z = true -> less x z = true) /\
  (forall x y z, x ∈ l -> y ∈ l -> z ∈ l ->
     less x y = false -> less y z = false -> less x z = false).

(** No element of [l] is less than an earlier one. *)
Definition Ascending (l : list A) : Prop :=
  forall i j x y, (i < j)%nat -> l !! i = Some x -> l !! j = Some y ->
    less y x = false.

(** [y] is not less than [x]. *)
Definition notGreater (x y : A) : Prop := less y x = false.

(** [less] respects the preorder [le] on the elements of [l]: what it puts
    before another element is at most that element, and what it does not is
    at least that element. *)
Definition Respects (le : A -> A -> Prop) (l : list A) : Prop :=
  (forall x y z, x ∈ l -> y ∈ l -> z ∈ l -> le x y -> le y z -> le x z) /\
  (forall x y, x ∈ l -> y ∈ l -> less x y = true -> le x y) /\
  (forall x y, x ∈ l -> y ∈ l -> less x y = false -> le y x).

End Less.

Section Le.

Context (le : A -> A -> Prop).

(** [data[i] <= data[j]]. *)
Definition leAt (data : list A) (i j : nat) : Prop :=
  forall x y, data !! i = Some x -> data !! j = Some y -> le x y.

(** [data[a:b]] is in ascending order. *)
Definition sortedOn (data : list A) (a b : nat) : Prop :=
  forall i j, (a <= i)%nat -> (i <= j)%nat -> (j < b)%nat -> leAt data i j.

(** [x] and [y] are at most each other. *)
Definition equiv (x y : A) : Prop := le x y /\ le y x.

(** [data'] is [data] with the elements of [data[a:b]] rearranged, up to
    [equiv]: elsewhere an element is equivalent to the one it replaces, and
    every element of [data'[a:b]] is equivalent to one of [data[a:b]]. *)
Definition frameUpTo (a b : nat) (data data' : list A) : Prop :=
  length data' = length data /\
  data' ≡ₚ data /\
  (forall i x x', (i < a \/ b <= i)%nat ->
     data !! i = Some x -> data' !! i = Some x' -> equiv x x') /\
  (forall i x', (a <= i < b)%nat -> data' !! i = Some x' ->
     exists k x, (a <= k < b)%nat /\ data !! k = Some x /\ equiv x x').

End Le.

(** [data'] is [data] with the elements of [data[a:b]] rearranged. *)
Definition frame (a b : nat) (data data' : list A) : Prop :=
  length data' = length data /\
  (forall i, (i < a \/ b <= i)%nat -> data' !! i = data !! i) /\
  data' ≡ₚ data.

(** The transposition of [i] and [j]. *)
Definition transpose (i j k : nat) : nat :=
  if decide (k = i) then j else if decide (k = j) then i else k.

End Defs.

End order.

Module heap.
Section Defs.
Context {A : Type} (le : A -> A -> Prop).

(** In the heap laid out from [first], every node below [hi] whose parent
    is at least [lo] is not greater than its parent. *)
Definition heapFrom (data : list A) (first lo hi : nat) : Prop :=
  forall c, (1 <= c < hi)%nat -> (lo <= (c - 1) / 2)%nat ->
    order.leAt le data (first + c) (first + (c - 1) / 2).

(** The same but for the children of [root], which are not greater than
    the parent of [root]. *)
Definition heapExcept (data : list A) (first lo hi root : nat) : Prop :=
  (forall c, (1 <= c < hi)%nat -> (lo <= (c - 1) / 2)%nat ->
     (c - 1) / 2 <> root ->
     order.leAt le data (first + c) (first + (c - 1) / 2)) /\
  ((1 <= root)%nat -> (lo <= (root - 1) / 2)%nat ->
   forall c, (1 <= c < hi)%nat -> (c - 1) / 2 = root ->
     order.leAt le data (first + c) (first + (root - 1) / 2)).
End Defs.
End heap.

Module bound.
Section Defs.
Context {A : Type} (le : A -> A -> Prop).

(** Every element before [data[a:b]] is at most every element of it. *)
Definition boundBelow (data : list A) (a b : nat) : Prop :=
  forall p k, (p < a)%nat -> (a <= k < b)%nat -> order.leAt le data p k.
End Defs.
End bound.

Module stable.
Section Defs.
Context {A : Type} (less : A -> A -> bool).

(** Neither of [v] and [x] is less than the other. *)
Definition equivalent (v x : A) : bool := negb (less v x) && negb (less x v).

(** The elements of [l] that are equivalent to [v], in the order of [l]. *)
Definition class (v : A) (l : list A) : list A :=
  List.filter (equivalent v) l.

(** Of two elements of [l] that are equivalent to [v], neither is less than
    the other. *)
Definition coherent (v : A) (l : list A) : Prop :=
  forall x y, x ∈ l -> y ∈ l ->
    equivalent v x = true -> equivalent v y = true -> less y x = false.

(** [StrictWeakOn], as a test. *)
Definition strictWeakOnb (l : list A) : bool :=
  forallb (fun x => negb (less x x)) l &&
  forallb (fun x => forallb (fun y => forallb (fun z =>
    implb (less x y && less y z) (less x z) &&
    implb (negb (less x y) && negb (less y z)) (negb (less x z))) l) l) l.
End Defs.
End stable.

Local Open Scope Z_scope.

(** Every entry of the raw list parses, to the versions [semvers]. *)
Definition allParse (versions : list string) (semvers : list semver.Version)
  : Prop :=
  Forall2 (fun raw v => semver.NewVersion raw = Ok v) versions semvers.

(** [v] with the build metadata [m]. *)
Definition withMetadata (m : string) (v : semver.Version) : semver.Version :=
  semver.mkVersion (semver.major v) (semver.minor v) (semver.patch v)
    (semver.pre v) m (semver.original v).

(** The order of the versions: major, then minor, then patch, as numbers;
    with these equal a prerelease comes before the release.  Build metadata
    plays no part. *)
Definition precedes (v o : semver.Version) : Prop :=
  semver.major v < semver.major o \/
  (semver.major v = semver.major o /\
   (semver.minor v < semver.minor o \/
    (semver.minor v = semver.minor o /\
     (semver.patch v < semver.patch o \/
      (semver.patch v = semver.patch o /\
       semver.pre v <> "" /\ semver.pre o = ""))))).

(** [o] does not precede [v]. *)
Definition notAfter (v o : semver.Version) : Prop := ~ precedes o v.

(** The dot-separated identifiers of the prereleases of [l]. *)
Definition identifiers (l : list semver.Version) : list string :=
  l ≫= (fun v => strings.Split (semver.pre v) ".").

(** [s] and [o] are the same identifier if they are numerals of the same
    number: not [1] and [01]. *)
Definition sameNumeral (s o : string) : Prop :=
  forall n, strconv.ParseUint s = Ok n -> strconv.ParseUint o = Ok n -> s = o.

(** Among the identifiers of [l] every number has one numeral at most. *)
Definition numeralsUnique (l : list semver.Version) : Prop :=
  forall s o, s ∈ identifiers l -> o ∈ identifiers l -> sameNumeral s o.

(** The versions of [l] that compare equal to [v], in the order of [l]. *)
Definition equalTo (v : semver.Version) (l : list semver.Version)
  : list semver.Version :=
  stable.class semver.LessThan v l.

(** Thirteen tags; the first two differ in their build metadata only. *)
Definition thirteenTags : list string :=
  ["1.0.0+a"; "1.0.0+b"; "1.1.0"; "1.2.0"; "1.3.0"; "1.4.0"; "1.5.0";
   "1.6.0"; "1.7.0"; "1.8.0"; "1.9.0"; "1.10.0"; "0.9.0"].

(** [sub] occurs in [s]. *)
Definition Contains (s sub : string) : Prop :=
  exists before after, s = before +:+ sub +:+ after.

(** The URL of the index document of a classic repository. *)
Definition indexURLOf (repoURL : string) : string :=
  strings.TrimSuffix repoURL "/" +:+ "/index.yaml".

(** The request the classic fetcher sends. *)
Definition classicRequest (repoURL : string) (creds : option helm.Credentials)
  : helm.Request :=
  {| helm.Method := "GET"; helm.URL := indexURLOf repoURL;
     helm.BasicAuth :=
       match creds with
       | Some c => Some (helm.Username c, helm.Password c)
       | None => None
       end |}.

(** The credential callback the OCI fetcher hands to the registry client. *)
Definition ociCredential (creds : option helm.Credentials)
  : string -> helm.Credential :=
  fun _ =>
    match creds with
    | Some c => helm.mkCredential (helm.Username c) (helm.Password c) "" ""
    | None => helm.EmptyCredential
    end.

(** The URL is one of a classic repository. *)
Definition isClassic (repoURL : string) : bool :=
  strings.HasPrefix repoURL "http://" || strings.HasPrefix repoURL "https://".

(** The shapes of the errors the orchestrator returns. *)
Definition orchestratorError (repoURL chart : string) (err : error) : Prop :=
  err = Errorf [lit "repository URL "; quoted repoURL; lit " is invalid"] \/
  exists cause,
    err = withMessage cause
            [lit "error retrieving versions of chart "; quoted chart;
             lit " from repository "; quoted repoURL] \/
    err = withMessage cause
            [lit "error determining latest version of chart "; quoted chart;
             lit " from repository "; quoted repoURL].

(** The URL names a classic or an OCI repository. *)
Definition isRecognised (repoURL : string) : bool :=
  isClassic repoURL || strings.HasPrefix repoURL "oci://".

Section SameUpstream.

Variable Reference : Type.
Variable Do : helm.Request -> result helm.Response.
Variable Tags :
  Reference -> (string -> helm.Credential) -> list (list string) * option error.

(** The upstream answers the requests of the two calls alike. *)
Definition sameUpstream (repoURL : string)
    (creds1 creds2 : option helm.Credentials) : Prop :=
  Do (classicRequest repoURL creds1) = Do (classicRequest repoURL creds2) /\
  forall ref, Tags ref (ociCredential creds1) = Tags ref (ociCredential creds2).

End SameUpstream.

(** ** A small upstream to run the fetchers against *)

Module demo.

Import helm.

Definition appBody : string :=
  "entries: {app: [{version: 0.3.0}, {version: 0.4.1}, {version: 0.3.0}]}".

Definition oddBody : string := "entries: {'': [{version: 1.0.0}]}".

Definition appIndex : index :=
  {| Entries := {[ "app" := [mkEntry "0.3.0"; mkEntry "0.4.1"; mkEntry "0.3.0"] ]} |}.

Definition oddIndex : index :=
  {| Entries := {[ "" := [mkEntry "1.0.0"] ]} |}.

Definition newRequestError (url : string) : option error := None.

(** Two repositories, the second of which lists a chart under the empty
    name; anything else is not found. *)
Definition Do (req : Request) : result Response :=
  if String.eqb (URL req) "https://charts.example.com/index.yaml"
  then Ok {| StatusCode := 200; Body := Ok appBody |}
  else if String.eqb (URL req) "https://odd.example.com/index.yaml"
  then Ok {| StatusCode := 200; Body := Ok oddBody |}
  else Ok {| StatusCode := 404; Body := Ok "" |}.

Definition yamlUnmarshal (body : string) : result index :=
  if String.eqb body appBody then Ok appIndex
  else if String.eqb body oddBody then Ok oddIndex
  else Err (New "yaml: unmarshal errors").

Definition ParseReference (s : string) : result string := Ok s.

Definition Tags (ref : string) (credential : string -> Credential)
  : list (list string) * option error :=
  ([["1.0.0"; "1.1.0"]; ["2.0.0"]], None).

Definition SelectChartVersion :=
  helm.SelectChartVersion string newRequestError Do yamlUnmarshal
    ParseReference Tags.

Definition getChartVersionsFromClassicRepo :=
  helm.getChartVersionsFromClassicRepo string newRequestError Do
    yamlUnmarshal.

Definition alice : option Credentials := Some (mkCredentials "alice" "s3cret").

End demo.

(** Two outcomes of a selection agree on everything but the text of the
    error. *)
Definition sameButErrorText
    (o1 o2 : helm.outcome (string * option error)) : Prop :=
  match o1, o2 with
  | helm.Panic e1, helm.Panic e2 => e1 = e2
  | helm.Return (v1, None), helm.Return (v2, None) => v1 = v2
  | helm.Return (v1, Some _), helm.Return (v2, Some _) => v1 = v2
  | _, _ => False
  end.

(** Repositories and a cluster to try the properties on. *)
Module sample.

Import helm.

Definition newRequestError (url : string) : option error :=
  if String.eqb url "http://bad host/index.yaml"
  then Some (New "invalid character in host name")
  else None.

Definition appBody : string :=
  "entries: {app: [{version: 1.0.0}, {version: v1.1.0}, {version: 1.1.0-rc.1}]}".

Definition newBody : string := "entries: {app: []}".

Definition appIndex : index :=
  {| Entries :=
       {[ "app" := [mkEntry "1.0.0"; mkEntry "v1.1.0"; mkEntry "1.1.0-rc.1"] ]}
  |}.

Definition newIndex : index := {| Entries := {[ "app" := [] ]} |}.

(** A repository with three versions of a chart, one that lists the chart
    without versions, one that is down; anything else is not found. *)
Definition Do (req : Request) : result Response :=
  if String.eqb (URL req) "https://charts.example.com/index.yaml"
  then Ok {| StatusCode := 200; Body := Ok appBody |}
  else if String.eqb (URL req) "https://new.example.com/index.yaml"
  then Ok {| StatusCode := 200; Body := Ok newBody |}
  else if String.eqb (URL req) "https://down.example.com/index.yaml"
  then Err (New "connection refused")
  else Ok {| StatusCode := 404; Body := Ok "not found" |}.

Definition yamlUnmarshal (body : string) : result index :=
  if String.eqb body appBody then Ok appIndex
  else if String.eqb body newBody then Ok newIndex
  else Err (New "yaml: unmarshal errors").

Definition ParseReference (s : string) : result string :=
  if String.eqb s "" then Err (New "invalid reference: missing repository")
  else Ok s.

(** A registry with one repository of three tags in two pages and one
    without tags. *)
Definition Tags (ref : string) (credential : string -> Credential)
  : list (list string) * option error :=
  if String.eqb ref "registry.example.com/charts/app"
  then ([["1.0.0"; "1.1.0"]; ["2.0.0"]], None)
  else if String.eqb ref "registry.example.com/charts/new"
  then ([], None)
  else ([], Some (New "repository name not known to registry")).

Definition getChartVersionsFromClassicRepo :=
  helm.getChartVersionsFromClassicRepo string newRequestError Do
    yamlUnmarshal.

Definition SelectChartVersion :=
  helm.SelectChartVersion string newRequestError Do yamlUnmarshal
    ParseReference Tags.

(** A cluster with the project [kargo-demo], in which the stage [prod]
    exists; stage specs and the other fields are plain strings. *)
Definition stageYamlText : string := "metadata: {namespace: kargo-demo, name: qa}".

Definition yamlUnmarshalStage (yaml : string)
  : result (api.Stage string string) :=
  if String.eqb yaml stageYamlText
  then Ok (api.mkStage string string "kargo-demo" "qa" "" "")
  else Err (New "error converting YAML to JSON").

Definition validateProject (project : string) : option api.handlerError :=
  if String.eqb project "kargo-demo" then None
  else Some (api.connectError
               (connect.NewError connect.CodeNotFound
                  (Some (New "project not found")))).

Definition alreadyExists : error := New "stage prod already exists".

Definition clientCreate (stage : api.Stage string string)
  : result (api.Stage string string) :=
  if String.eqb (api.Name stage) "prod" then Err alreadyExists
  else if String.eqb (api.Name stage) "" then Err (New "name is required")
  else Ok (api.mkStage string string (api.Namespace stage) (api.Name stage)
             (api.StageSpecOf stage) "uid-1").

Definition IsAlreadyExists (err : error) : bool :=
  match err with
  | fundamental [lit text] => String.eqb text "stage prod already exists"
  | _ => false
  end.

Definition CreateStage :=
  api.CreateStage string string string (api.Stage string string) ""
    yamlUnmarshalStage (default "") id validateProject clientCreate
    IsAlreadyExists.

Definition requestedStage :=
  api.requestedStage string string string "" yamlUnmarshalStage (default "").

End sample.

(** * Properties *)

(** ** sort.Sort only swaps: its result is a permutation *)

Section SortPermutation.

Context {A : Type} (less : A -> A -> bool).

Lemma Swap_length (data : list A) i j :
  length (sort.Swap data i j) = length data.
Proof.
  unfold sort.Swap.
  destruct (data !! i), (data !! j); rewrite ?length_insert; reflexivity.
Qed.

Lemma Swap_lookup (data : list A) i j k :
  (i < length data)%nat -> (j < length data)%nat ->
  sort.Swap data i j !! k =
    if decide (k = j) then data !! i
    else if decide (k = i) then data !! j else data !! k.
Proof.
  intros Hi Hj. unfold sort.Swap.
  destruct (lookup_lt_is_Some_2 data i Hi) as [x Hx].
  destruct (lookup_lt_is_Some_2 data j Hj) as [y Hy].
  rewrite Hx, Hy.
  destruct (decide (k = j)) as [->|Hkj].
  - rewrite list_lookup_insert_eq; [done | by rewrite length_insert].
  - rewrite list_lookup_insert_ne by done.
    destruct (decide (k = i)) as [->|Hki].
    + by rewrite list_lookup_insert_eq.
    + by rewrite list_lookup_insert_ne.
Qed.

Lemma insert_Permutation_cons (l : list A) i x y :
  l !! i = Some x -> y :: l ≡ₚ x :: <[i := y]> l.
Proof.
  revert i. induction l as [|z l IH]; intros [|i] Hl; simplify_eq/=.
  - apply Permutation_swap.
  - etrans; [apply Permutation_swap|].
    etrans; [|apply Permutation_swap].
    f_equiv. by apply IH.
Qed.

Lemma Swap_Permutation (data : list A) i j : sort.Swap data i j ≡ₚ data.
Proof.
  unfold sort.Swap.
  destruct (data !! i) as [x|] eqn:Hx; [|done].
  destruct (data !! j) as [y|] eqn:Hy; [|done].
  destruct (decide (i = j)) as [->|Hij].
  - simplify_eq. rewrite list_insert_insert_eq. by rewrite list_insert_id.
  - apply (inj (y ::.)).
    rewrite <- (insert_Permutation_cons (<[i:=y]> data) j y x)
      by (by rewrite list_lookup_insert_ne).
    symmetry. by apply insert_Permutation_cons.
Qed.

Lemma insertionInner_Permutation (data : list A) a j :
  sort.insertionInner less data a j ≡ₚ data.
Proof.
  revert data. induction j as [|j IH]; intros data; simpl; [done|].
  destruct (_ && _); [|done]. by rewrite IH, Swap_Permutation.
Qed.

Lemma insertionOuter_Permutation (data : list A) a i n :
  sort.insertionOuter less data a i n ≡ₚ data.
Proof.
  revert data i. induction n as [|n IH]; intros data i; simpl; [done|].
  by rewrite IH, insertionInner_Permutation.
Qed.

Lemma insertionSort_Permutation (data : list A) a b :
  sort.insertionSort less data a b ≡ₚ data.
Proof. apply insertionOuter_Permutation. Qed.

Lemma siftDownLoop_Permutation fuel (data : list A) root hi first :
  sort.siftDownLoop less fuel data root hi first ≡ₚ data.
Proof.
  revert data root. induction fuel as [|fuel IH]; intros data root; simpl;
    [done|].
  destruct (hi <=? _)%nat; [done|].
  destruct (negb _); [done|]. by rewrite IH, Swap_Permutation.
Qed.

Lemma heapBuild_Permutation (data : list A) n hi first :
  sort.heapBuild less data n hi first ≡ₚ data.
Proof.
  revert data. induction n as [|n IH]; intros data; simpl; [done|].
  rewrite IH. apply siftDownLoop_Permutation.
Qed.

Lemma heapPop_Permutation (data : list A) n first :
  sort.heapPop less data n first ≡ₚ data.
Proof.
  revert data. induction n as [|n IH]; intros data; simpl; [done|].
  rewrite IH. unfold sort.siftDown.
  by rewrite siftDownLoop_Permutation, Swap_Permutation.
Qed.

Lemma heapSort_Permutation (data : list A) a b :
  sort.heapSort less data a b ≡ₚ data.
Proof.
  unfold sort.heapSort. by rewrite heapPop_Permutation, heapBuild_Permutation.
Qed.

Lemma reverseLoop_Permutation (data : list A) i j n :
  sort.reverseLoop data i j n ≡ₚ data.
Proof.
  revert data i j. induction n as [|n IH]; intros data i j; simpl; [done|].
  destruct (i <? j)%nat; [|done]. by rewrite IH, Swap_Permutation.
Qed.

Lemma shiftLeft_Permutation (data : list A) j :
  sort.shiftLeft less data j ≡ₚ data.
Proof.
  revert data. induction j as [|j IH]; intros data; simpl; [done|].
  destruct (negb _); [done|]. by rewrite IH, Swap_Permutation.
Qed.

Lemma shiftRight_Permutation (data : list A) j n :
  sort.shiftRight less data j n ≡ₚ data.
Proof.
  revert data j. induction n as [|n IH]; intros data j; simpl; [done|].
  destruct (negb _); [done|]. by rewrite IH, Swap_Permutation.
Qed.

Lemma partialInsertionLoop_Permutation (data : list A) a b i steps :
  (sort.partialInsertionLoop less data a b i steps).1 ≡ₚ data.
Proof.
  revert data i. induction steps as [|steps IH]; intros data i; simpl; [done|].
  set (i' := sort.skipOrdered less data i b (b - i)).
  destruct (i' =? b)%nat; [done|].
  destruct (b - a <? 50)%nat; [done|].
  rewrite IH.
  repeat case_match;
    rewrite ?shiftRight_Permutation, ?shiftLeft_Permutation;
    apply Swap_Permutation.
Qed.

Lemma partitionLoop_Permutation fuel (data : list A) a i j :
  (sort.partitionLoop less fuel data a i j).1 ≡ₚ data.
Proof.
  revert data i j. induction fuel as [|fuel IH]; intros data i j; simpl;
    [done|].
  destruct (_ <? _)%nat; [done|]. by rewrite IH, Swap_Permutation.
Qed.

Lemma partition_Permutation (data : list A) a b pivot :
  (sort.partition less data a b pivot).1.1 ≡ₚ data.
Proof.
  unfold sort.partition.
  destruct (_ <? _)%nat; simpl; [by rewrite !Swap_Permutation|].
  destruct (sort.partitionLoop _ _ _ _ _ _) as [data' j] eqn:E. simpl.
  rewrite Swap_Permutation.
  change data' with (data', j).1. rewrite <- E.
  by rewrite partitionLoop_Permutation, !Swap_Permutation.
Qed.

Lemma partitionEqualLoop_Permutation fuel (data : list A) a i j :
  (sort.partitionEqualLoop less fuel data a i j).1 ≡ₚ data.
Proof.
  revert data i j. induction fuel as [|fuel IH]; intros data i j; simpl;
    [done|].
  destruct (_ <? _)%nat; [done|]. by rewrite IH, Swap_Permutation.
Qed.

Lemma partitionEqual_Permutation (data : list A) a b pivot :
  (sort.partitionEqual less data a b pivot).1 ≡ₚ data.
Proof.
  unfold sort.partitionEqual.
  by rewrite partitionEqualLoop_Permutation, Swap_Permutation.
Qed.

Lemma breakLoop_Permutation (data : list A) a idx len modulus random i n :
  sort.breakLoop data a idx len modulus random i n ≡ₚ data.
Proof.
  revert data random i. induction n as [|n IH]; intros data random i; simpl;
    [done|].
  by rewrite IH, Swap_Permutation.
Qed.

Lemma breakPatterns_Permutation (data : list A) a b :
  sort.breakPatterns data a b ≡ₚ data.
Proof.
  unfold sort.breakPatterns. destruct (8 <=? _)%nat; [|done].
  apply breakLoop_Permutation.
Qed.

Lemma pdqsortLoop_Permutation fuel (data : list A) a b limit wb wp :
  sort.pdqsortLoop less fuel data a b limit wb wp ≡ₚ data.
Proof.
  revert data a b limit wb wp.
  induction fuel as [|fuel IH]; intros data a b limit wb wp; simpl; [done|].
  destruct (b - a <=? 12)%nat; [apply insertionSort_Permutation|].
  destruct (limit =? 0)%nat; [apply heapSort_Permutation|].
  set (d1 := if negb wb then _ else _).
  assert (H1 : d1.1 ≡ₚ data).
  { subst d1. destruct (negb wb); simpl; [apply breakPatterns_Permutation|done]. }
  destruct d1 as [data1 limit1]. simpl in H1.
  destruct (sort.choosePivot less data1 a b) as [pivot hint].
  set (d2 := if sort.isDecreasing hint then _ else _).
  assert (H2 : d2.1.1 ≡ₚ data).
  { subst d2. destruct (sort.isDecreasing hint); simpl; [|done].
    unfold sort.reverseRange. by rewrite reverseLoop_Permutation. }
  destruct d2 as [[data2 pivot2] hint2]. simpl in H2.
  set (d3 := if wb && wp && _ then _ else _).
  assert (H3 : d3.1 ≡ₚ data).
  { subst d3. destruct (wb && wp && _); simpl; [|done].
    unfold sort.partialInsertionSort.
    by rewrite partialInsertionLoop_Permutation. }
  destruct d3 as [data3 done]. simpl in H3.
  destruct done; [done|].
  destruct (_ && _).
  - pose proof (partitionEqual_Permutation data3 a b pivot2) as H4.
    destruct (sort.partitionEqual less data3 a b pivot2) as [data4 mid].
    simpl in H4. by rewrite IH, H4.
  - pose proof (partition_Permutation data3 a b pivot2) as H4.
    destruct (sort.partition less data3 a b pivot2) as [[data4 mid] ap].
    simpl in H4. destruct (_ <? _)%nat; by rewrite !IH, H4.
Qed.

Lemma Sort_Permutation (data : list A) : sort.Sort less data ≡ₚ data.
Proof.
  unfold sort.Sort. destruct (_ <=? 1)%nat; [done|].
  apply pdqsortLoop_Permutation.
Qed.

End SortPermutation.

(** ** sort.Sort sorts *)

Local Close Scope Z_scope.

Section OrderLemmas.

Context {A : Type} (less : A -> A -> bool) (le : A -> A -> Prop).

Local Abbreviation Less := (sort.Less less).
Local Abbreviation leAt := (order.leAt le).
Local Abbreviation sortedOn := (order.sortedOn le).
Local Abbreviation Respects := (order.Respects less le).
Local Abbreviation frame := order.frame.
Local Abbreviation transpose := order.transpose.

Lemma Respects_Permutation (l l' : list A) :
  l ≡ₚ l' -> Respects l -> Respects l'.
Proof.
  intros Hp (Ht & Hl & Hn).
  split_and!; intros *; rewrite <- ?Hp; eauto.
Qed.

Lemma Less_lookup (data : list A) i j x y :
  data !! i = Some x -> data !! j = Some y -> Less data i j = less x y.
Proof. unfold sort.Less. by intros -> ->. Qed.

Lemma Less_true_lt (data : list A) i j :
  Less data i j = true -> (i < length data)%nat /\ (j < length data)%nat.
Proof.
  unfold sort.Less. destruct (data !! i) eqn:Hi; [|done].
  destruct (data !! j) eqn:Hj; [|done]. intros _.
  split; by eapply lookup_lt_Some.
Qed.

Section Ordered.

Variable data : list A.
Hypothesis Hord : Respects data.

Lemma Less_leAt i j : Less data i j = true -> leAt data i j.
Proof.
  intros H x y Hx Hy. rewrite (Less_lookup _ _ _ _ _ Hx Hy) in H.
  destruct Hord as (_ & Hl & _).
  apply Hl; [by eapply list_elem_of_lookup_2..|done].
Qed.

Lemma notLess_leAt i j : Less data j i = false -> leAt data i j.
Proof.
  intros H x y Hx Hy. rewrite (Less_lookup _ _ _ _ _ Hy Hx) in H.
  destruct Hord as (_ & _ & Hn).
  apply Hn; [by eapply list_elem_of_lookup_2..|done].
Qed.

Lemma leAt_total i j : leAt data i j \/ leAt data j i.
Proof.
  destruct (Less data i j) eqn:H; [left; by apply Less_leAt|].
  right. by apply notLess_leAt.
Qed.

Lemma leAt_refl i : leAt data i i.
Proof. by destruct (leAt_total i i). Qed.

Lemma leAt_trans i j k :
  (j < length data)%nat -> leAt data i j -> leAt data j k -> leAt data i k.
Proof.
  intros Hj Hij Hjk x z Hx Hz.
  destruct (lookup_lt_is_Some_2 data j Hj) as [y Hy].
  destruct Hord as (Ht & _).
  apply (Ht x y z); try (by eapply list_elem_of_lookup_2).
  - by apply Hij.
  - by apply Hjk.
Qed.

End Ordered.

(** Swapping and its effect on comparisons *)

Lemma transpose_l i j : transpose i j i = j.
Proof. unfold order.transpose. by rewrite decide_True. Qed.

Lemma transpose_r i j : transpose i j j = i.
Proof. unfold order.transpose. case_decide; [done|]. by rewrite decide_True. Qed.

Lemma transpose_ne i j k : k <> i -> k <> j -> transpose i j k = k.
Proof. intros. unfold order.transpose. by rewrite !decide_False. Qed.

Lemma Swap_lookup_transpose (data : list A) i j k :
  (i < length data)%nat -> (j < length data)%nat ->
  sort.Swap data i j !! k = data !! transpose i j k.
Proof.
  intros Hi Hj. rewrite Swap_lookup by done. unfold order.transpose.
  repeat case_decide; by subst.
Qed.

Lemma Less_Swap (data : list A) i j k l :
  (i < length data)%nat -> (j < length data)%nat ->
  Less (sort.Swap data i j) k l =
  Less data (transpose i j k) (transpose i j l).
Proof.
  intros Hi Hj. unfold sort.Less. by rewrite !Swap_lookup_transpose.
Qed.

Lemma leAt_Swap (data : list A) i j k l :
  (i < length data)%nat -> (j < length data)%nat ->
  leAt (sort.Swap data i j) k l <->
  leAt data (transpose i j k) (transpose i j l).
Proof. intros. unfold order.leAt. by rewrite !Swap_lookup_transpose. Qed.

(** Frames *)

Lemma frame_refl a b (data : list A) : frame a b data data.
Proof. by split_and!. Qed.

Lemma frame_trans a b (d1 d2 d3 : list A) :
  frame a b d1 d2 -> frame a b d2 d3 -> frame a b d1 d3.
Proof.
  intros (Hl1 & Hf1 & Hp1) (Hl2 & Hf2 & Hp2).
  split_and!; [congruence| |by etrans].
  intros i Hi. by rewrite Hf2, Hf1.
Qed.

Lemma frame_mono a b a' b' (d1 d2 : list A) :
  (a' <= a)%nat -> (b <= b')%nat -> frame a b d1 d2 -> frame a' b' d1 d2.
Proof.
  intros ?? (Hl & Hf & Hp). split_and!; [done| |done].
  intros i Hi. apply Hf. lia.
Qed.

Lemma frame_Swap a b (data : list A) i j :
  (a <= i < b)%nat -> (a <= j < b)%nat -> (b <= length data)%nat ->
  frame a b data (sort.Swap data i j).
Proof.
  intros Hi Hj Hb. split_and!.
  - apply Swap_length.
  - intros k Hk. rewrite Swap_lookup by lia. repeat case_decide; [lia..|done].
  - apply Swap_Permutation.
Qed.

Lemma frame_Respects a b (d1 d2 : list A) :
  frame a b d1 d2 -> Respects d1 -> Respects d2.
Proof. intros (_ & _ & Hp). apply Respects_Permutation. by symmetry. Qed.

Lemma frame_length a b (d1 d2 : list A) : frame a b d1 d2 -> length d2 = length d1.
Proof. by intros (? & _). Qed.

Lemma frame_lookup a b (d1 d2 : list A) i :
  frame a b d1 d2 -> (i < a \/ b <= i)%nat -> d2 !! i = d1 !! i.
Proof. intros (_ & Hf & _). apply Hf. Qed.

(** The elements of [data[a:b]] *)
Lemma lookup_segment (data : list A) a b k :
  (k < b - a)%nat -> take (b - a) (drop a data) !! k = data !! (a + k)%nat.
Proof. intros Hk. by rewrite lookup_take_lt, lookup_drop. Qed.

Lemma frame_segment a b (d1 d2 : list A) :
  (a <= b)%nat -> (b <= length d1)%nat -> frame a b d1 d2 ->
  take (b - a) (drop a d2) ≡ₚ take (b - a) (drop a d1).
Proof.
  intros Hab Hb (Hl & Hf & Hp).
  assert (Ht : take a d2 = take a d1).
  { apply list_eq. intros i. destruct (decide (i < a)%nat).
    - rewrite !lookup_take_lt by done. apply Hf. lia.
    - rewrite !lookup_take_ge by lia. done. }
  assert (Hd : drop b d2 = drop b d1).
  { apply list_eq. intros i. rewrite !lookup_drop. apply Hf. lia. }
  assert (Hsplit : forall d : list A, (b <= length d)%nat ->
            d = take a d ++ take (b - a) (drop a d) ++ drop b d).
  { intros d Hdl. rewrite <- (take_drop a d) at 1. f_equal.
    rewrite <- (take_drop (b - a) (drop a d)) at 1. f_equal.
    rewrite drop_drop. f_equal. lia. }
  rewrite (Hsplit d1 Hb), (Hsplit d2 ltac:(lia)) in Hp.
  rewrite Ht, Hd in Hp.
  apply (inj (take a d1 ++.)) in Hp.
  by apply (inj (.++ drop b d1)) in Hp.
Qed.

(** A property of all the elements of [data[a:b]] survives a rearrangement
    of them. *)
Lemma frame_Forall a b (d1 d2 : list A) (Q : A -> Prop) :
  (a <= b)%nat -> (b <= length d1)%nat -> frame a b d1 d2 ->
  (forall i x, (a <= i < b)%nat -> d1 !! i = Some x -> Q x) ->
  (forall i x, (a <= i < b)%nat -> d2 !! i = Some x -> Q x).
Proof.
  intros Hab Hb Hfr H1 i x Hi Hx.
  pose proof (frame_segment a b d1 d2 Hab Hb Hfr) as Hp.
  assert (Hall : Forall Q (take (b - a) (drop a d1))).
  { apply Forall_lookup. intros k y Hk.
    assert (k < b - a)%nat.
    { apply lookup_lt_Some in Hk. rewrite length_take in Hk. lia. }
    rewrite lookup_segment in Hk by done. apply (H1 (a + k)%nat); [lia|done]. }
  rewrite <- Hp in Hall. rewrite Forall_lookup in Hall.
  apply (Hall (i - a)%nat). rewrite lookup_segment by lia.
  by replace (a + (i - a))%nat with i by lia.
Qed.

End OrderLemmas.

Section InsertionSort.

Context {A : Type} (less : A -> A -> bool) (le : A -> A -> Prop).

Local Abbreviation Less := (sort.Less less).
Local Abbreviation leAt := (order.leAt le).
Local Abbreviation sortedOn := (order.sortedOn le).
Local Abbreviation Respects := (order.Respects less le).
Local Abbreviation frame := order.frame.
Local Abbreviation transpose := order.transpose.

(** The state of the inner loop of [insertionSort]: [data[a:i+1]] is in
    order but for the element at [j], which is not greater than those after
    it. *)
Lemma insertionInner_spec a i j (data : list A) :
  Respects data ->
  (a <= j <= i)%nat -> (i < length data)%nat ->
  (forall k m, (a <= k)%nat -> (k <= m)%nat -> (m <= i)%nat ->
     k <> j -> m <> j -> leAt data k m) ->
  (forall m, (j < m <= i)%nat -> leAt data j m) ->
  frame a (i + 1) data (sort.insertionInner less data a j) /\
  sortedOn (sort.insertionInner less data a j) a (i + 1).
Proof.
  revert data. induction j as [|j IH]; intros data Hord Hj Hi Hrest Hright.
  - simpl. split; [apply frame_refl|].
    intros k m Hk Hkm Hm.
    destruct (decide (k = 0)%nat) as [->|]; [|apply Hrest; lia].
    destruct (decide (m = 0)%nat) as [->|]; [by apply (leAt_refl less)|].
    apply Hright. lia.
  - simpl. destruct ((a <? S j)%nat && Less data (S j) j) eqn:Hc.
    + apply andb_true_iff in Hc as [Ha%Nat.ltb_lt Hless].
      assert (Hfr : frame a (i + 1) data (sort.Swap data (S j) j))
        by (apply frame_Swap; lia).
      destruct (IH (sort.Swap data (S j) j)) as [Hfr' Hsorted].
      * by eapply frame_Respects.
      * lia.
      * rewrite Swap_length. lia.
      * intros k m Hk Hkm Hm Hkj Hmj.
        apply leAt_Swap; [lia..|]. unfold order.transpose.
        repeat case_decide; subst; try lia;
          first [ by apply (leAt_refl less) | apply Hrest; lia | apply Hright; lia ].
      * intros m Hm. apply leAt_Swap; [lia..|]. unfold order.transpose.
        repeat case_decide; subst; try lia;
          first [ by apply (Less_leAt less) | apply Hright; lia ].
      * split; [by eapply frame_trans|done].
    + split; [apply frame_refl|].
      intros k m Hk Hkm Hm.
      destruct (decide (k = S j)) as [->|Hkj].
      { destruct (decide (m = S j)) as [->|]; [by apply (leAt_refl less)|].
        apply Hright. lia. }
      destruct (decide (m = S j)) as [->|Hmj]; [|apply Hrest; lia].
      apply andb_false_iff in Hc as [Ha%Nat.ltb_ge|Hless]; [lia|].
      destruct (decide (k = j)) as [->|]; [by apply (notLess_leAt less)|].
      apply (leAt_trans less le data Hord k j (S j)); [lia| |by apply (notLess_leAt less)].
      apply Hrest; lia.
Qed.

Lemma insertionOuter_spec a b n i (data : list A) :
  Respects data ->
  (a < i)%nat -> (i + n = b)%nat -> (b <= length data)%nat ->
  sortedOn data a i ->
  frame a b data (sort.insertionOuter less data a i n) /\
  sortedOn (sort.insertionOuter less data a i n) a b.
Proof.
  revert data i. induction n as [|n IH]; intros data i Hord Hai Hb Hlen Hs.
  - simpl. replace b with i by lia. split; [apply frame_refl|done].
  - simpl.
    destruct (insertionInner_spec a i i data) as [Hfr Hs']; [done|lia|lia| | |].
    { intros k m ?????. apply Hs; lia. }
    { intros m ?. lia. }
    destruct (IH (sort.insertionInner less data a i) (S i)) as [Hfr' Hs''].
    + by eapply frame_Respects.
    + lia.
    + lia.
    + rewrite (frame_length _ _ _ _ Hfr). lia.
    + by replace (S i) with (i + 1)%nat by lia.
    + split; [|done]. eapply frame_trans; [|done].
      eapply frame_mono; [..|done]; lia.
Qed.

(** [insertionSort] sorts [data[a:b]] and leaves the rest alone. *)
Lemma insertionSort_spec a b (data : list A) :
  Respects data -> (a <= b)%nat -> (b <= length data)%nat ->
  frame a b data (sort.insertionSort less data a b) /\
  sortedOn (sort.insertionSort less data a b) a b.
Proof.
  intros Hord Hab Hb. unfold sort.insertionSort.
  destruct (decide (b <= a + 1)%nat).
  - replace (b - (a + 1))%nat with 0%nat by lia. simpl.
    split; [apply frame_refl|].
    intros k m ???. replace m with k by lia. by apply (leAt_refl less).
  - apply insertionOuter_spec; [done|lia|lia|done|].
    intros k m ???. replace m with k by lia. by apply (leAt_refl less).
Qed.

End InsertionSort.

Section HeapSort.

Context {A : Type} (less : A -> A -> bool) (le : A -> A -> Prop).

Local Abbreviation Less := (sort.Less less).
Local Abbreviation leAt := (order.leAt le).
Local Abbreviation sortedOn := (order.sortedOn le).
Local Abbreviation Respects := (order.Respects less le).
Local Abbreviation frame := order.frame.
Local Abbreviation heapFrom := (heap.heapFrom le).
Local Abbreviation heapExcept := (heap.heapExcept le).

Lemma parent_iff c r :
  (1 <= c)%nat -> ((c - 1) / 2 = r <-> c = 2 * r + 1 \/ c = 2 * r + 2)%nat.
Proof.
  intros. pose proof (Nat.div_mod_eq (c - 1) 2).
  pose proof (Nat.mod_upper_bound (c - 1) 2). lia.
Qed.

Lemma parent_lt c : (1 <= c)%nat -> ((c - 1) / 2 < c)%nat.
Proof.
  intros. pose proof (Nat.div_mod_eq (c - 1) 2).
  pose proof (Nat.mod_upper_bound (c - 1) 2). lia.
Qed.

Lemma siftDownLoop_S fuel (data : list A) root hi first :
  sort.siftDownLoop less (S fuel) data root hi first =
    let child := (2 * root + 1)%nat in
    if (hi <=? child)%nat then data
    else
      let child :=
        if (child + 1 <? hi)%nat
           && Less data (first + child) (first + child + 1)
        then (child + 1)%nat else child in
      if negb (Less data (first + root) (first + child)) then data
      else sort.siftDownLoop less fuel
             (sort.Swap data (first + root) (first + child)) child hi first.
Proof. reflexivity. Qed.

Lemma siftDownLoop_spec fuel (data : list A) root lo hi first :
  Respects data ->
  (first + hi <= length data)%nat -> (lo <= root)%nat ->
  (hi - root <= fuel)%nat ->
  heapExcept data first lo hi root ->
  frame (first + lo) (first + hi) data
    (sort.siftDownLoop less fuel data root hi first) /\
  heapFrom (sort.siftDownLoop less fuel data root hi first) first lo hi.
Proof.
  revert data root.
  induction fuel as [|fuel IH]; intros data root Hord Hlen Hlo Hfuel [Hex Hgr].
  - simpl. split; [apply frame_refl|].
    intros c Hc Hp. apply Hex; [done..|].
    intros Hr%parent_iff; lia.
  - rewrite siftDownLoop_S. cbv zeta.
    destruct (Nat.leb_spec hi (2 * root + 1)) as [Hhi|Hhi].
    { split; [apply frame_refl|].
      intros c Hc Hp. apply Hex; [done..|]. intros Hr%parent_iff; lia. }
    set (child := if (2 * root + 1 + 1 <? hi)%nat
                     && Less data (first + (2 * root + 1))
                          (first + (2 * root + 1) + 1)
                  then (2 * root + 1 + 1)%nat else (2 * root + 1)%nat).
    assert (Hchild : (child = 2 * root + 1 \/ child = 2 * root + 2)%nat
                     /\ (child < hi)%nat).
    { subst child. destruct (andb _ _) eqn:Hc; [|lia].
      apply andb_true_iff in Hc as [?%Nat.ltb_lt _]. lia. }
    (* the chosen child is not less than its sibling *)
    assert (Hmax : forall c, (c < hi)%nat -> (c - 1) / 2 = root -> (1 <= c)%nat ->
              leAt data (first + c) (first + child)).
    { intros c Hc Hr Hc1. apply parent_iff in Hr; [|done]. subst child.
      destruct (andb _ _) eqn:Hcond.
      - apply andb_true_iff in Hcond as [_ Hl].
        destruct Hr as [->| ->].
        + replace (first + (2 * root + 1 + 1))%nat
            with (first + (2 * root + 1) + 1)%nat by lia.
          by apply (Less_leAt less).
        + replace (2 * root + 1 + 1)%nat with (2 * root + 2)%nat by lia.
          by apply (leAt_refl less).
      - apply andb_false_iff in Hcond as [Hl%Nat.ltb_ge|Hl].
        + replace c with (2 * root + 1)%nat by lia. by apply (leAt_refl less).
        + destruct Hr as [->| ->]; [by apply (leAt_refl less)|].
          replace (first + (2 * root + 2))%nat
            with (first + (2 * root + 1) + 1)%nat by lia.
          by apply (notLess_leAt less). }
    destruct (Less data (first + root) (first + child)) eqn:Hless; simpl.
    + (* swap and continue from the child *)
      assert (Hfr : frame (first + lo) (first + hi) data
                (sort.Swap data (first + root) (first + child)))
        by (apply frame_Swap; lia).
      destruct (IH (sort.Swap data (first + root) (first + child)) child)
        as [Hfr' Hheap].
      * by eapply frame_Respects.
      * rewrite Swap_length. lia.
      * lia.
      * lia.
      * assert (Hpc : (child - 1) / 2 = root) by (apply parent_iff; lia).
        split.
        -- intros c Hc Hp Hne. apply leAt_Swap; [lia..|].
           pose proof (parent_lt c ltac:(lia)) as Hpl.
           destruct (decide ((c - 1) / 2 = root)) as [Hr|Hr].
           { (* a child of the old root *)
             rewrite Hr, transpose_l.
             destruct (decide (c = child)) as [->|Hcc].
             - rewrite transpose_r. by apply (Less_leAt less).
             - rewrite transpose_ne by lia. apply Hmax; lia. }
           destruct (decide (c = root)) as [->|Hcr].
           { rewrite transpose_l, transpose_ne by lia.
             apply Hgr; [lia|done|lia|done]. }
           assert (c <> child) by (intros ->; lia).
           rewrite !transpose_ne by lia. by apply Hex.
        -- intros _ _ c Hc Hp. rewrite Hpc. apply leAt_Swap; [lia..|].
           assert (c <> root /\ c <> child).
           { apply parent_iff in Hp; lia. }
           rewrite transpose_ne, transpose_l by lia.
           rewrite <- Hp. apply Hex; [lia| |lia].
           rewrite Hp. lia.
      * split; [by eapply frame_trans|done].
    + (* the root is not less than its children: done *)
      split; [apply frame_refl|].
      intros c Hc Hp. destruct (decide ((c - 1) / 2 = root)) as [Hr|Hr];
        [|by apply Hex].
      rewrite Hr. apply (leAt_trans less le data Hord _ (first + child));
        [lia| |by apply (notLess_leAt less)].
      apply Hmax; lia.
Qed.

Lemma siftDown_spec (data : list A) lo hi first :
  Respects data ->
  (first + hi <= length data)%nat ->
  heapExcept data first lo hi lo ->
  frame (first + lo) (first + hi) data (sort.siftDown less data lo hi first) /\
  heapFrom (sort.siftDown less data lo hi first) first lo hi.
Proof. intros. apply siftDownLoop_spec; [done|done|lia|lia|done]. Qed.

Lemma heapBuild_spec n (data : list A) hi first :
  Respects data ->
  (first + hi <= length data)%nat ->
  heapFrom data first n hi ->
  frame first (first + hi) data (sort.heapBuild less data n hi first) /\
  heapFrom (sort.heapBuild less data n hi first) first 0 hi.
Proof.
  revert data. induction n as [|n IH]; intros data Hord Hlen Hheap.
  - simpl. split; [apply frame_refl|done].
  - simpl. destruct (siftDown_spec data n hi first) as [Hfr Hh]; [done..| |].
    { split.
      - intros c Hc Hp Hne. apply Hheap; [done|lia].
      - intros Hn Hp. pose proof (parent_lt n Hn). lia. }
    destruct (IH (sort.siftDown less data n hi first)) as [Hfr' Hh'].
    + by eapply frame_Respects.
    + rewrite (frame_length _ _ _ _ Hfr). lia.
    + done.
    + split; [|done]. eapply frame_trans; [|done].
      eapply frame_mono; [..|done]; lia.
Qed.

(** The root of a heap is not less than any of its nodes. *)
Lemma heap_root_max (data : list A) first n c :
  Respects data -> (first + n <= length data)%nat ->
  heapFrom data first 0 n -> (c < n)%nat ->
  leAt data (first + c) (first + 0).
Proof.
  intros Hord Hlen Hheap. induction (lt_wf c) as [c _ IH]. intros Hc.
  destruct (decide (c = 0)%nat) as [->|]; [by apply (leAt_refl less)|].
  pose proof (parent_lt c ltac:(lia)).
  apply (leAt_trans less le data Hord _ (first + (c - 1) / 2)); [lia| |].
  - apply Hheap; lia.
  - apply IH; lia.
Qed.

Lemma heapPop_spec n (data : list A) hi first :
  Respects data ->
  (first + hi <= length data)%nat -> (n <= hi)%nat ->
  heapFrom data first 0 n ->
  sortedOn data (first + n) (first + hi) ->
  (forall k m, (k < n)%nat -> (n <= m < hi)%nat ->
     leAt data (first + k) (first + m)) ->
  frame first (first + hi) data (sort.heapPop less data n first) /\
  sortedOn (sort.heapPop less data n first) first (first + hi).
Proof.
  revert data. induction n as [|i IH]; intros data Hord Hlen Hn Hheap Hs Hle.
  - simpl. split; [apply frame_refl|].
    by replace (first + 0)%nat with first in Hs by lia.
  - simpl.
    set (d1 := sort.Swap data first (first + i)).
    assert (Hfr1 : frame first (first + hi) data d1)
      by (apply frame_Swap; lia).
    assert (Hord1 : Respects d1) by by eapply frame_Respects.
    assert (Hlen1 : length d1 = length data) by apply Swap_length.
    assert (Hd1 : forall k l, leAt d1 k l <->
              leAt data (order.transpose first (first + i) k)
                (order.transpose first (first + i) l)).
    { intros. apply leAt_Swap; lia. }
    destruct (siftDown_spec d1 0 i first) as [Hfr2 Hh2]; [done|lia| |].
    { split; [|lia].
      intros c Hc _ Hp. apply Hd1.
      pose proof (parent_lt c ltac:(lia)).
      rewrite !transpose_ne by lia. apply Hheap; lia. }
    set (d2 := sort.siftDown less d1 0 i first) in *.
    (* everything before [i] is at most the element now at [i] *)
    assert (Hmax1 : forall k, (k < i)%nat -> leAt d1 (first + k) (first + i)).
    { intros k Hk. apply Hd1. rewrite transpose_r.
      destruct (decide (k = 0)%nat) as [->|].
      - replace (first + 0)%nat with first by lia. rewrite transpose_l.
        replace first with (first + 0)%nat at 2 by lia.
        apply (heap_root_max data first (S i)); [done|lia|done|lia].
      - rewrite transpose_ne by lia.
        replace first with (first + 0)%nat at 2 by lia.
        apply (heap_root_max data first (S i)); [done|lia|done|lia]. }
    assert (Hsame : forall m, (first + i <= m)%nat -> d2 !! m = d1 !! m).
    { intros m Hm. apply (frame_lookup _ _ _ _ _ Hfr2). lia. }
    assert (Hle2 : forall (p : nat) (Q : A -> Prop),
              (forall k x, (first + 0 <= k < first + i)%nat ->
                 d1 !! k = Some x -> Q x) ->
              forall k x, (first + 0 <= k < first + i)%nat ->
                 d2 !! k = Some x -> Q x).
    { intros _ Q. apply frame_Forall; [lia|lia|done]. }
    destruct (IH d2) as [Hfr3 Hs3].
    + by eapply frame_Respects.
    + rewrite (frame_length _ _ _ _ Hfr2). lia.
    + lia.
    + done.
    + (* the suffix from [i] is sorted *)
      intros k m Hk Hkm Hm. unfold order.leAt.
      rewrite !Hsame by lia. change (leAt d1 k m).
      apply Hd1.
      destruct (decide (k = first + i)%nat) as [->|Hki].
      * rewrite transpose_r.
        destruct (decide (m = first + i)%nat) as [->|Hmi].
        -- rewrite transpose_r. by apply (leAt_refl less).
        -- rewrite transpose_ne by lia.
           replace first with (first + 0)%nat at 1 by lia.
           replace m with (first + (m - first))%nat by lia.
           apply Hle; lia.
      * rewrite !transpose_ne by lia. apply Hs; lia.
    + (* the heap is below the suffix *)
      intros k m Hk Hm x y Hx Hy.
      revert Hx. apply (Hle2 0%nat (fun x => le x y)); [|lia].
      intros k' x' Hk' Hx'.
      rewrite Hsame in Hy by lia.
      assert (Hl : leAt d1 k' (first + m)); [|by apply Hl].
      destruct (decide (m = i)) as [->|Hmi].
      * replace k' with (first + (k' - first))%nat by lia.
        apply Hmax1. lia.
      * apply (leAt_trans less le d1 Hord1 _ (first + i)); [lia| |].
        -- replace k' with (first + (k' - first))%nat by lia.
           apply Hmax1. lia.
        -- apply Hd1. rewrite transpose_r, transpose_ne by lia.
           replace first with (first + 0)%nat at 1 by lia.
           apply Hle; lia.
    + split; [|done]. eapply frame_trans; [done|].
      eapply frame_trans; [|done].
      eapply frame_mono; [..|exact Hfr2]; lia.
Qed.

(** [heapSort] sorts [data[a:b]] and leaves the rest alone. *)
Lemma heapSort_spec a b (data : list A) :
  Respects data -> (a <= b)%nat -> (b <= length data)%nat ->
  frame a b data (sort.heapSort less data a b) /\
  sortedOn (sort.heapSort less data a b) a b.
Proof.
  intros Hord Hab Hb. unfold sort.heapSort.
  destruct (heapBuild_spec ((b - a - 1) / 2 + 1) data (b - a) a)
    as [Hfr Hh]; [done|lia| |].
  { intros c Hc Hp. pose proof (Nat.div_mod_eq (c - 1) 2).
    pose proof (Nat.mod_upper_bound (c - 1) 2).
    pose proof (Nat.div_mod_eq (b - a - 1) 2).
    pose proof (Nat.mod_upper_bound (b - a - 1) 2). lia. }
  destruct (heapPop_spec (b - a)
              (sort.heapBuild less data ((b - a - 1) / 2 + 1) (b - a) a)
              (b - a) a) as [Hfr' Hs].
  - by eapply frame_Respects.
  - rewrite (frame_length _ _ _ _ Hfr). lia.
  - lia.
  - done.
  - intros k m ???. lia.
  - intros k m ??. lia.
  - replace (a + (b - a))%nat with b in * by lia.
    split; [by eapply frame_trans|done].
Qed.

End HeapSort.

Section Transfer.

Context {A : Type} (less : A -> A -> bool) (le : A -> A -> Prop).

Local Abbreviation Less := (sort.Less less).
Local Abbreviation leAt := (order.leAt le).
Local Abbreviation sortedOn := (order.sortedOn le).
Local Abbreviation Respects := (order.Respects less le).
Local Abbreviation frame := order.frame.
Local Abbreviation boundBelow := (bound.boundBelow le).

Lemma frame_leAt_r a b (d d' : list A) j :
  (a <= b)%nat -> (b <= length d)%nat -> frame a b d d' ->
  (j < a \/ b <= j)%nat ->
  (forall k, (a <= k < b)%nat -> leAt d j k) ->
  (forall k, (a <= k < b)%nat -> leAt d' j k).
Proof.
  intros Hab Hb Hfr Hj H k Hk y x Hy Hx.
  rewrite (frame_lookup _ _ _ _ j Hfr Hj) in Hy.
  revert Hx. apply (frame_Forall a b d d' (fun x => le y x)); [done..| |done].
  intros k' x' Hk' Hx'. by apply (H k' Hk').
Qed.

Lemma frame_leAt_outside a b (d d' : list A) i j :
  frame a b d d' -> (i < a \/ b <= i)%nat -> (j < a \/ b <= j)%nat ->
  leAt d i j -> leAt d' i j.
Proof.
  intros Hfr Hi Hj H. unfold order.leAt.
  by rewrite (frame_lookup _ _ _ _ i Hfr Hi), (frame_lookup _ _ _ _ j Hfr Hj).
Qed.

Lemma frame_sortedOn_outside a b a' b' (d d' : list A) :
  frame a b d d' -> (b' <= a \/ b <= a')%nat ->
  sortedOn d a' b' -> sortedOn d' a' b'.
Proof.
  intros Hfr Hd Hs i j Hi Hij Hj.
  apply (frame_leAt_outside a b d d'); [done|lia|lia|].
  by apply Hs.
Qed.

Lemma frame_boundBelow a b (d d' : list A) :
  (a <= b)%nat -> (b <= length d)%nat -> frame a b d d' ->
  boundBelow d a b -> boundBelow d' a b.
Proof.
  intros Hab Hb Hfr H p k Hp Hk.
  apply (frame_leAt_r a b d d' p); [done|done|done|lia| |done].
  intros k' Hk'. by apply H.
Qed.

(** Two sorted stretches around an element that separates them. *)
Lemma sortedOn_join (d : list A) a mid b :
  Respects d -> (mid < length d)%nat ->
  sortedOn d a mid -> sortedOn d (mid + 1) b ->
  (forall k, (a <= k < mid)%nat -> leAt d k mid) ->
  (forall m, (mid < m < b)%nat -> leAt d mid m) ->
  sortedOn d a b.
Proof.
  intros Hord Hmid Hl Hr Hlm Hmr i j Hi Hij Hj.
  destruct (decide (j < mid)%nat); [apply Hl; lia|].
  destruct (decide (mid < i)%nat); [apply Hr; lia|].
  destruct (decide (i = mid)) as [->|].
  - destruct (decide (j = mid)) as [->|]; [by apply (leAt_refl less)|].
    apply Hmr. lia.
  - destruct (decide (j = mid)) as [->|]; [apply Hlm; lia|].
    apply (leAt_trans less le d Hord i mid j); [done|apply Hlm; lia|apply Hmr; lia].
Qed.

(** Two sorted stretches, everything in the first at most everything in
    the second. *)
Lemma sortedOn_app (d : list A) a mid b :
  sortedOn d a mid -> sortedOn d mid b ->
  (forall k m, (a <= k < mid)%nat -> (mid <= m < b)%nat -> leAt d k m) ->
  sortedOn d a b.
Proof.
  intros Hl Hr Hlr i j Hi Hij Hj.
  destruct (decide (j < mid)%nat); [apply Hl; lia|].
  destruct (decide (mid <= i)%nat); [apply Hr; lia|].
  apply Hlr; lia.
Qed.

End Transfer.

Section UpTo.

Context {A : Type} (less : A -> A -> bool) (le : A -> A -> Prop).

Local Abbreviation leAt := (order.leAt le).
Local Abbreviation sortedOn := (order.sortedOn le).
Local Abbreviation Respects := (order.Respects less le).
Local Abbreviation equiv := (order.equiv le).
Local Abbreviation frame := order.frame.
Local Abbreviation frameUpTo := (order.frameUpTo le).
Local Abbreviation boundBelow := (bound.boundBelow le).

Lemma Respects_refl (l : list A) x : Respects l -> x ∈ l -> le x x.
Proof.
  intros (_ & Hl & Hn) Hx.
  destruct (less x x) eqn:H; [by apply Hl|by apply Hn].
Qed.

Lemma Respects_trans (l : list A) x y z :
  Respects l -> x ∈ l -> y ∈ l -> z ∈ l -> le x y -> le y z -> le x z.
Proof. intros (Ht & _ & _). apply Ht. Qed.

Lemma equiv_refl (l : list A) x : Respects l -> x ∈ l -> equiv x x.
Proof. intros Hord Hx. split; by apply (Respects_refl l). Qed.

Lemma equiv_trans (l : list A) x y z :
  Respects l -> x ∈ l -> y ∈ l -> z ∈ l ->
  equiv x y -> equiv y z -> equiv x z.
Proof.
  intros Hord Hx Hy Hz [H1 H2] [H3 H4].
  split; [by apply (Respects_trans l x y z)|by apply (Respects_trans l z y x)].
Qed.

(** [le] does not tell equivalent elements apart. *)
Lemma le_equiv (l : list A) x x' y y' :
  Respects l -> x ∈ l -> x' ∈ l -> y ∈ l -> y' ∈ l ->
  equiv x x' -> equiv y y' -> le x y -> le x' y'.
Proof.
  intros Hord Hx Hx' Hy Hy' [_ H1] [H2 _] H.
  apply (Respects_trans l x' x y'); [done..|].
  by apply (Respects_trans l x y y').
Qed.

Lemma frameUpTo_length a b (d d' : list A) :
  frameUpTo a b d d' -> length d' = length d.
Proof. by intros (? & _). Qed.

Lemma frameUpTo_Respects a b (d d' : list A) :
  frameUpTo a b d d' -> Respects d -> Respects d'.
Proof.
  intros (_ & Hp & _). apply (Respects_Permutation less). by symmetry.
Qed.

Lemma frameUpTo_refl a b (d : list A) : Respects d -> frameUpTo a b d d.
Proof.
  intros Hord. split_and!; [done|done| |].
  - intros i x x' _ Hx Hx'. simplify_eq.
    apply (equiv_refl d); [done|by eapply list_elem_of_lookup_2].
  - intros i x' Hi Hx'. exists i, x'. split; [done|split; [done|]].
    apply (equiv_refl d); [done|by eapply list_elem_of_lookup_2].
Qed.

(** A rearrangement of [data[a:b]] is one up to [equiv]. *)
Lemma frame_frameUpTo a b (d d' : list A) :
  Respects d -> (a <= b)%nat -> (b <= length d)%nat ->
  frame a b d d' -> frameUpTo a b d d'.
Proof.
  intros Hord Hab Hb Hfr. pose proof Hfr as (Hl & Hf & Hp).
  split_and!; [done|done| |].
  - intros i x x' Hi Hx Hx'. rewrite (Hf i Hi), Hx in Hx'. simplify_eq.
    apply (equiv_refl d); [done|by eapply list_elem_of_lookup_2].
  - intros i x' Hi Hx'.
    apply (frame_Forall a b d d'
             (fun x' => exists k x, (a <= k < b)%nat /\ d !! k = Some x /\
                                   equiv x x') Hab Hb Hfr) with i;
      [|done|done].
    intros k x Hk Hx. exists k, x. split; [done|split; [done|]].
    apply (equiv_refl d); [done|by eapply list_elem_of_lookup_2].
Qed.

Lemma frameUpTo_trans a b (d1 d2 d3 : list A) :
  Respects d1 ->
  frameUpTo a b d1 d2 -> frameUpTo a b d2 d3 -> frameUpTo a b d1 d3.
Proof.
  intros Hord (Hl1 & Hp1 & Ho1 & Hi1) (Hl2 & Hp2 & Ho2 & Hi2).
  assert (Hin1 : forall i x, d1 !! i = Some x -> x ∈ d1).
  { intros i x Hx. by eapply list_elem_of_lookup_2. }
  assert (Hin2 : forall i x, d2 !! i = Some x -> x ∈ d1).
  { intros i x Hx. rewrite <- Hp1. by eapply list_elem_of_lookup_2. }
  assert (Hin3 : forall i x, d3 !! i = Some x -> x ∈ d1).
  { intros i x Hx. rewrite <- Hp1, <- Hp2. by eapply list_elem_of_lookup_2. }
  split_and!; [congruence|by etrans| |].
  - intros i x x'' Hi Hx Hx''.
    destruct (lookup_lt_is_Some_2 d2 i) as [x' Hx'].
    { rewrite Hl1. by eapply lookup_lt_Some. }
    apply (equiv_trans d1 x x' x''); eauto.
  - intros i x'' Hi Hx''.
    destruct (Hi2 i x'' Hi Hx'') as (k & x' & Hk & Hx' & He2).
    destruct (Hi1 k x' Hk Hx') as (k0 & x & Hk0 & Hx & He1).
    exists k0, x. split; [done|split; [done|]].
    apply (equiv_trans d1 x x' x''); eauto.
Qed.

Lemma frameUpTo_mono a b a' b' (d d' : list A) :
  (a' <= a)%nat -> (b <= b')%nat ->
  frameUpTo a b d d' -> frameUpTo a' b' d d'.
Proof.
  intros Ha Hb (Hl & Hp & Ho & Hi). split_and!; [done|done| |].
  - intros i x x' Hi'. apply Ho. lia.
  - intros i x' Hi' Hx'.
    destruct (decide (a <= i < b)%nat) as [Hin|Hout].
    + destruct (Hi i x' Hin Hx') as (k & x & Hk & Hx & He).
      exists k, x. split; [lia|split; [done|done]].
    + destruct (lookup_lt_is_Some_2 d i) as [x Hx].
      { rewrite <- Hl. by eapply lookup_lt_Some. }
      exists i, x. split; [done|split; [done|]].
      apply (Ho i); [lia|done|done].
Qed.

Lemma frameUpTo_leAt_outside a b (d d' : list A) i j :
  Respects d -> frameUpTo a b d d' ->
  (i < a \/ b <= i)%nat -> (j < a \/ b <= j)%nat ->
  leAt d i j -> leAt d' i j.
Proof.
  intros Hord (Hl & Hp & Ho & Hi) Hi' Hj' H x' y' Hx' Hy'.
  destruct (lookup_lt_is_Some_2 d i) as [x Hx].
  { rewrite <- Hl. by eapply lookup_lt_Some. }
  destruct (lookup_lt_is_Some_2 d j) as [y Hy].
  { rewrite <- Hl. by eapply lookup_lt_Some. }
  apply (le_equiv d x x' y y'); try done.
  - by eapply list_elem_of_lookup_2.
  - rewrite <- Hp. by eapply list_elem_of_lookup_2.
  - by eapply list_elem_of_lookup_2.
  - rewrite <- Hp. by eapply list_elem_of_lookup_2.
  - by apply (Ho i).
  - by apply (Ho j).
  - by apply H.
Qed.

Lemma frameUpTo_leAt_l a b (d d' : list A) j :
  Respects d -> frameUpTo a b d d' -> (j < a \/ b <= j)%nat ->
  (forall k, (a <= k < b)%nat -> leAt d k j) ->
  (forall k, (a <= k < b)%nat -> leAt d' k j).
Proof.
  intros Hord (Hl & Hp & Ho & Hi) Hj H k Hk x' y' Hx' Hy'.
  destruct (Hi k x' Hk Hx') as (k0 & x & Hk0 & Hx & He).
  destruct (lookup_lt_is_Some_2 d j) as [y Hy].
  { rewrite <- Hl. by eapply lookup_lt_Some. }
  apply (le_equiv d x x' y y'); try done.
  - by eapply list_elem_of_lookup_2.
  - rewrite <- Hp. by eapply list_elem_of_lookup_2.
  - by eapply list_elem_of_lookup_2.
  - rewrite <- Hp. by eapply list_elem_of_lookup_2.
  - by apply (Ho j).
  - by apply (H k0).
Qed.

Lemma frameUpTo_leAt_r a b (d d' : list A) j :
  Respects d -> frameUpTo a b d d' -> (j < a \/ b <= j)%nat ->
  (forall k, (a <= k < b)%nat -> leAt d j k) ->
  (forall k, (a <= k < b)%nat -> leAt d' j k).
Proof.
  intros Hord (Hl & Hp & Ho & Hi) Hj H k Hk y' x' Hy' Hx'.
  destruct (Hi k x' Hk Hx') as (k0 & x & Hk0 & Hx & He).
  destruct (lookup_lt_is_Some_2 d j) as [y Hy].
  { rewrite <- Hl. by eapply lookup_lt_Some. }
  apply (le_equiv d y y' x x'); try done.
  - by eapply list_elem_of_lookup_2.
  - rewrite <- Hp. by eapply list_elem_of_lookup_2.
  - by eapply list_elem_of_lookup_2.
  - rewrite <- Hp. by eapply list_elem_of_lookup_2.
  - by apply (Ho j).
  - by apply (H k0).
Qed.

Lemma frameUpTo_sortedOn_outside a b a' b' (d d' : list A) :
  Respects d -> frameUpTo a b d d' -> (b' <= a \/ b <= a')%nat ->
  sortedOn d a' b' -> sortedOn d' a' b'.
Proof.
  intros Hord Hfr Hd Hs i j Hi Hij Hj.
  apply (frameUpTo_leAt_outside a b d d'); [done|done|lia|lia|].
  by apply Hs.
Qed.

(** The bound of a range survives a rearrangement before the range,
    within it or after it. *)
Lemma frameUpTo_boundBelow a b a' b' (d d' : list A) :
  Respects d -> frameUpTo a b d d' ->
  (b <= a' \/ (a' <= a /\ b <= b') \/ b' <= a)%nat ->
  boundBelow d a' b' -> boundBelow d' a' b'.
Proof.
  intros Hord Hfr Hcases H p k Hp Hk.
  destruct (decide (a <= k < b)%nat) as [Hkin|Hkout].
  - apply (frameUpTo_leAt_r a b d d' p); [done|done|lia| |done].
    intros k' Hk'. apply H; lia.
  - destruct (decide (a <= p < b)%nat) as [Hpin|Hpout].
    + apply (frameUpTo_leAt_l a b d d' k); [done|done|lia| |done].
      intros p' Hp'. apply H; lia.
    + apply (frameUpTo_leAt_outside a b d d'); [done|done|lia|lia|].
      by apply H.
Qed.

End UpTo.

Section SmallSteps.

Context {A : Type} (less : A -> A -> bool) (le : A -> A -> Prop).

Local Abbreviation Less := (sort.Less less).
Local Abbreviation frame := order.frame.

Lemma order2_in (data : list A) x y s r1 r2 s' :
  sort.order2 less data x y s = (r1, r2, s') ->
  (r1 = x /\ r2 = y) \/ (r1 = y /\ r2 = x).
Proof. unfold sort.order2. destruct (Less _ _ _); intros ?; simplify_eq; auto. Qed.

Lemma median_in (data : list A) x y z s r s' :
  sort.median less data x y z s = (r, s') -> r = x \/ r = y \/ r = z.
Proof.
  unfold sort.median.
  destruct (sort.order2 less data x y s) as [[x1 y1] s1] eqn:H1.
  destruct (sort.order2 less data y1 z s1) as [[y2 z2] s2] eqn:H2.
  destruct (sort.order2 less data x1 y2 s2) as [[x3 y3] s3] eqn:H3.
  intros ?; simplify_eq.
  apply order2_in in H1, H2, H3.
  destruct H1 as [[-> ->]|[-> ->]], H2 as [[-> ->]|[-> ->]],
    H3 as [[_ ->]|[_ ->]]; auto.
Qed.

(** The pivot lies in the range. *)
Lemma choosePivot_range (data : list A) a b pivot hint :
  (8 <= b - a)%nat ->
  sort.choosePivot less data a b = (pivot, hint) ->
  (a <= pivot < b)%nat.
Proof.
  intros Hl. unfold sort.choosePivot.
  pose proof (Nat.div_mod_eq (b - a) 4) as Hdiv.
  pose proof (Nat.mod_upper_bound (b - a) 4 ltac:(lia)) as Hmod.
  set (q := ((b - a) / 4)%nat) in *.
  destruct (Nat.leb_spec 8 (b - a)); [|lia].
  destruct (Nat.leb_spec 50 (b - a)).
  - destruct (sort.medianAdjacent less data (a + q * 1) 0) as [i s1] eqn:H1.
    destruct (sort.medianAdjacent less data (a + q * 2) s1) as [j s2] eqn:H2.
    destruct (sort.medianAdjacent less data (a + q * 3) s2) as [k s3] eqn:H3.
    destruct (sort.median less data i j k s3) as [r s4] eqn:H4.
    apply median_in in H1, H2, H3, H4.
    intros Hr. assert (r = pivot) as <- by (repeat case_match; by simplify_eq).
    lia.
  - destruct (sort.median less data (a + q * 1) (a + q * 2) (a + q * 3) 0)
      as [r s4] eqn:H4.
    apply median_in in H4.
    intros Hr. assert (r = pivot) as <- by (repeat case_match; by simplify_eq).
    lia.
Qed.

Lemma reverseLoop_frame a b n (data : list A) i j :
  (a <= i)%nat -> (j < b)%nat -> (b <= length data)%nat ->
  frame a b data (sort.reverseLoop data i j n).
Proof.
  revert data i j. induction n as [|n IH]; intros data i j Hi Hj Hb; simpl.
  - apply frame_refl.
  - destruct (Nat.ltb_spec i j); [|apply frame_refl].
    eapply frame_trans; [apply (frame_Swap a b data i j); lia|].
    apply IH; [lia|lia|]. rewrite Swap_length. lia.
Qed.

Lemma reverseRange_frame a b (data : list A) :
  (a < b)%nat -> (b <= length data)%nat ->
  frame a b data (sort.reverseRange data a b).
Proof. intros. apply reverseLoop_frame; lia. Qed.

Lemma bitsLen_bound n :
  (0 < n)%nat -> (2 ^ Z.of_nat (sort.bitsLen n) <= 2 * Z.of_nat n)%Z.
Proof.
  intros Hn. unfold sort.bitsLen. destruct n as [|n]; [lia|].
  rewrite Nat2Z.inj_succ, Z.pow_succ_r by lia.
  pose proof (Nat.log2_spec (S n) ltac:(lia)) as [Hlo _].
  apply inj_le in Hlo. rewrite Nat2Z.inj_pow in Hlo. simpl Z.of_nat in Hlo at 1.
  lia.
Qed.

Lemma breakLoop_frame a b n (data : list A) idx len modulus random i :
  (a <= idx - 1 + i)%nat -> (idx - 1 + i + n <= b)%nat ->
  (0 < len)%nat -> (a + len <= b)%nat -> (b <= length data)%nat ->
  (0 < modulus <= 2 * Z.of_nat len)%Z ->
  (exists k, 0 <= k /\ modulus = 2 ^ k)%Z ->
  frame a b data (sort.breakLoop data a idx len modulus random i n).
Proof.
  revert data random i.
  induction n as [|n IH]; intros data random i Hi Hin Hlen Hab Hb Hmod Hpow;
    simpl.
  - apply frame_refl.
  - set (r := sort.xorshiftNext random).
    set (o := Z.to_nat (Z.land r (modulus - 1))).
    assert (Ho : (o < 2 * len)%nat).
    { subst o. destruct Hpow as (k & Hk & ->).
      replace (2 ^ k - 1)%Z with (Z.ones k) by (rewrite Z.ones_equiv; lia).
      rewrite Z.land_ones by done.
      pose proof (Z.mod_pos_bound r (2 ^ k)%Z ltac:(lia)). lia. }
    set (o' := if (len <=? o)%nat then (o - len)%nat else o).
    assert (Ho' : (o' < len)%nat).
    { subst o'. destruct (Nat.leb_spec len o); lia. }
    eapply frame_trans;
      [apply (frame_Swap a b data (idx - 1 + i) (a + o')); lia|].
    apply IH; try done; try lia. rewrite Swap_length. lia.
Qed.

Lemma breakPatterns_frame a b (data : list A) :
  (a <= b)%nat -> (b <= length data)%nat ->
  frame a b data (sort.breakPatterns data a b).
Proof.
  intros Hab Hb. unfold sort.breakPatterns.
  destruct (Nat.leb_spec 8 (b - a)); [|apply frame_refl].
  pose proof (Nat.div_mod_eq (b - a) 4) as Hdiv.
  pose proof (Nat.mod_upper_bound (b - a) 4 ltac:(lia)) as Hmod.
  apply breakLoop_frame; try lia.
  - split; [apply Z.pow_pos_nonneg; lia|]. apply bitsLen_bound. lia.
  - exists (Z.of_nat (sort.bitsLen (b - a))). split; [lia|done].
Qed.

End SmallSteps.

Section Partition.

Context {A : Type} (less : A -> A -> bool) (le : A -> A -> Prop).

Local Abbreviation Less := (sort.Less less).
Local Abbreviation leAt := (order.leAt le).
Local Abbreviation Respects := (order.Respects less le).
Local Abbreviation frame := order.frame.
Local Abbreviation transpose := order.transpose.

Lemma scanLess_spec n (data : list A) a i j :
  (i <= j + 1)%nat -> (j + 1 - i <= n)%nat ->
  (i <= sort.scanLess less data a i j n <= j + 1)%nat /\
  (forall k, (i <= k < sort.scanLess less data a i j n)%nat ->
     Less data k a = true) /\
  ((sort.scanLess less data a i j n <= j)%nat ->
   Less data (sort.scanLess less data a i j n) a = false).
Proof.
  revert i. induction n as [|n IH]; intros i Hij Hn; simpl.
  - split_and!; try lia; try done; intros; lia.
  - destruct (Nat.leb_spec i j) as [Hle|Hle]; simpl.
    + destruct (Less data i a) eqn:Hl.
      * destruct (IH (i + 1)%nat) as (Hr & Hall & Hstop); [lia..|].
        split_and!; try lia; try done.
        intros k Hk. destruct (decide (k = i)) as [->|]; [done|].
        apply Hall. lia.
      * split_and!; try lia; done.
    + split_and!; try lia; try done; intros; lia.
Qed.

Lemma scanNotLess_spec (data : list A) a i j :
  (1 <= i)%nat -> (i <= j + 1)%nat ->
  (i <= sort.scanNotLess less data a i j + 1)%nat /\
  (sort.scanNotLess less data a i j <= j)%nat /\
  (forall k, (sort.scanNotLess less data a i j < k <= j)%nat ->
     Less data k a = false) /\
  ((i <= sort.scanNotLess less data a i j)%nat ->
   Less data (sort.scanNotLess less data a i j) a = true).
Proof.
  intros Hi. induction j as [|j IH]; intros Hij; simpl.
  - split_and!; try lia; try done; intros; lia.
  - destruct (Nat.leb_spec i (S j)) as [Hle|Hle]; simpl.
    + destruct (Less data (S j) a) eqn:Hl; simpl.
      * split_and!; try lia; done.
      * destruct IH as (H1 & H2 & Hall & Hstop); [lia|].
        split_and!; try lia; try done.
        intros k Hk. destruct (decide (k = S j)) as [->|]; [done|].
        apply Hall. lia.
    + split_and!; try lia; try done; intros; lia.
Qed.

Lemma partitionLoop_spec fuel (data : list A) a b i j :
  (a + 1 <= i)%nat -> (j < b)%nat -> (b <= length data)%nat ->
  (i <= j + 1)%nat -> (j + 1 - i <= fuel)%nat ->
  (forall k, (a < k < i)%nat -> Less data k a = true) ->
  (forall k, (j < k < b)%nat -> Less data k a = false) ->
  let r := sort.partitionLoop less fuel data a i j in
  frame (a + 1) b data r.1 /\ (a <= r.2 < b)%nat /\
  (forall k, (a < k <= r.2)%nat -> Less r.1 k a = true) /\
  (forall k, (r.2 < k < b)%nat -> Less r.1 k a = false).
Proof.
  revert data i j.
  induction fuel as [|fuel IH]; intros data i j Hi Hj Hb Hij Hfuel Hl Hr.
  - simpl. split_and!; try lia; [apply frame_refl|intros; apply Hl; lia|done].
  - simpl.
    destruct (scanLess_spec (S j - i) data a i j) as (Hi1 & Hall1 & Hstop1);
      [lia..|].
    set (i1 := sort.scanLess less data a i j (S j - i)) in *.
    destruct (scanNotLess_spec data a i1 j) as (Hj1 & Hj1' & Hall2 & Hstop2);
      [lia..|].
    set (j1 := sort.scanNotLess less data a i1 j) in *.
    destruct (Nat.ltb_spec j1 i1) as [Hlt|Hge]; simpl.
    + split_and!; try lia; [apply frame_refl| |].
      * intros k Hk. destruct (decide (k < i)%nat); [apply Hl|apply Hall1]; lia.
      * intros k Hk. destruct (decide (k <= j)%nat); [apply Hall2|apply Hr]; lia.
    + assert (i1 < j1)%nat.
      { destruct (decide (i1 = j1)) as [Heq|]; [|lia].
        pose proof (Hstop1 ltac:(lia)) as H1.
        pose proof (Hstop2 ltac:(lia)) as H2. congruence. }
      destruct (IH (sort.Swap data i1 j1) (i1 + 1)%nat (j1 - 1)%nat)
        as (Hfr & Hrange & Hl' & Hr'); try lia.
      * rewrite Swap_length. lia.
      * intros k Hk. rewrite Less_Swap by lia.
        rewrite (transpose_ne _ _ a) by lia.
        destruct (decide (k = i1)) as [->|].
        -- rewrite transpose_l. apply Hstop2. lia.
        -- rewrite transpose_ne by lia.
           destruct (decide (k < i)%nat); [apply Hl|apply Hall1]; lia.
      * intros k Hk. rewrite Less_Swap by lia.
        rewrite (transpose_ne _ _ a) by lia.
        destruct (decide (k = j1)) as [->|].
        -- rewrite transpose_r. apply Hstop1. lia.
        -- rewrite transpose_ne by lia.
           destruct (decide (k <= j)%nat); [apply Hall2|apply Hr]; lia.
      * split_and!; try lia; [|done|done].
        eapply frame_trans; [apply (frame_Swap (a + 1) b data i1 j1); lia|done].
Qed.

(** [partition] puts the pivot at [mid], smaller elements before it and
    the others after it. *)
Lemma partition_spec (data : list A) a b pivot :
  (a <= pivot < b)%nat -> (b <= length data)%nat ->
  let r := sort.partition less data a b pivot in
  frame a b data r.1.1 /\ (a <= r.1.2 < b)%nat /\
  (forall k, (a <= k < r.1.2)%nat -> Less r.1.1 k r.1.2 = true) /\
  (forall k, (r.1.2 < k < b)%nat -> Less r.1.1 k r.1.2 = false).
Proof.
  intros Hp Hb. unfold sort.partition.
  set (d0 := sort.Swap data a pivot).
  assert (Hfr0 : frame a b data d0) by (apply frame_Swap; lia).
  assert (Hlen0 : length d0 = length data) by apply Swap_length.
  destruct (scanLess_spec (S (b - 1) - (a + 1)) d0 a (a + 1) (b - 1))
    as (Hi1 & Hall1 & Hstop1); [lia..|].
  set (i1 := sort.scanLess less d0 a (a + 1) (b - 1) (S (b - 1) - (a + 1)))
    in *.
  destruct (scanNotLess_spec d0 a i1 (b - 1)) as (Hj1 & Hj1' & Hall2 & Hstop2);
    [lia..|].
  set (j1 := sort.scanNotLess less d0 a i1 (b - 1)) in *.
  (* the final swap puts the pivot at [j] *)
  assert (Hfinal : forall (d : list A) j, frame (a + 1) b d0 d ->
            (a <= j < b)%nat ->
            (forall k, (a < k <= j)%nat -> Less d k a = true) ->
            (forall k, (j < k < b)%nat -> Less d k a = false) ->
            frame a b data (sort.Swap d j a) /\
            (forall k, (a <= k < j)%nat -> Less (sort.Swap d j a) k j = true) /\
            (forall k, (j < k < b)%nat -> Less (sort.Swap d j a) k j = false)).
  { intros d j Hfr Hj Hl Hr.
    assert (Hlen : length d = length data).
    { rewrite (frame_length _ _ _ _ Hfr). done. }
    split_and!.
    - eapply frame_trans; [done|].
      eapply frame_trans; [eapply frame_mono; [..|exact Hfr]; lia|].
      apply frame_Swap; lia.
    - intros k Hk. rewrite Less_Swap by lia. rewrite transpose_l.
      destruct (decide (k = a)) as [->|].
      + rewrite transpose_r. apply Hl. lia.
      + rewrite transpose_ne by lia. apply Hl. lia.
    - intros k Hk. rewrite Less_Swap by lia.
      rewrite transpose_l, transpose_ne by lia. by apply Hr. }
  destruct (Nat.ltb_spec j1 i1) as [Hlt|Hge]; simpl.
  - destruct (Hfinal d0 j1) as (? & ? & ?); [apply frame_refl|lia| | |].
    + intros k Hk. apply Hall1. lia.
    + intros k Hk. apply Hall2. lia.
    + split_and!; try lia; done.
  - assert (i1 < j1)%nat.
    { destruct (decide (i1 = j1)) as [Heq|]; [|lia].
      pose proof (Hstop1 ltac:(lia)) as H1.
      pose proof (Hstop2 ltac:(lia)) as H2. congruence. }
    pose proof (partitionLoop_spec (b - a) (sort.Swap d0 i1 j1) a b
                  (i1 + 1) (j1 - 1)) as Hloop.
    destruct (sort.partitionLoop less (b - a) (sort.Swap d0 i1 j1) a
                (i1 + 1) (j1 - 1)) as [d2 j2]. simpl in *.
    destruct Hloop as (Hfr & Hrange & Hl & Hr); try lia.
    + rewrite Swap_length. lia.
    + intros k Hk. rewrite Less_Swap by lia.
      rewrite (transpose_ne _ _ a) by lia.
      destruct (decide (k = i1)) as [->|].
      * rewrite transpose_l. apply Hstop2. lia.
      * rewrite transpose_ne by lia. apply Hall1. lia.
    + intros k Hk. rewrite Less_Swap by lia.
      rewrite (transpose_ne _ _ a) by lia.
      destruct (decide (k = j1)) as [->|].
      * rewrite transpose_r. apply Hstop1. lia.
      * rewrite transpose_ne by lia. apply Hall2. lia.
    + destruct (Hfinal d2 j2) as (? & ? & ?); [|lia|done|done|].
      * eapply frame_trans;
          [apply (frame_Swap (a + 1) b d0 i1 j1); lia|done].
      * split_and!; try lia; done.
Qed.

Lemma scanNotGreater_spec n (data : list A) a i j :
  (i <= j + 1)%nat -> (j + 1 - i <= n)%nat ->
  (i <= sort.scanNotGreater less data a i j n <= j + 1)%nat /\
  (forall k, (i <= k < sort.scanNotGreater less data a i j n)%nat ->
     Less data a k = false) /\
  ((sort.scanNotGreater less data a i j n <= j)%nat ->
   Less data a (sort.scanNotGreater less data a i j n) = true).
Proof.
  revert i. induction n as [|n IH]; intros i Hij Hn; simpl.
  - split_and!; try lia; try done; intros; lia.
  - destruct (Nat.leb_spec i j) as [Hle|Hle]; simpl.
    + destruct (Less data a i) eqn:Hl; simpl.
      * split_and!; try lia; done.
      * destruct (IH (i + 1)%nat) as (Hr & Hall & Hstop); [lia..|].
        split_and!; try lia; try done.
        intros k Hk. destruct (decide (k = i)) as [->|]; [done|].
        apply Hall. lia.
    + split_and!; try lia; try done; intros; lia.
Qed.

Lemma scanGreater_spec (data : list A) a i j :
  (1 <= i)%nat -> (i <= j + 1)%nat ->
  (i <= sort.scanGreater less data a i j + 1)%nat /\
  (sort.scanGreater less data a i j <= j)%nat /\
  (forall k, (sort.scanGreater less data a i j < k <= j)%nat ->
     Less data a k = true) /\
  ((i <= sort.scanGreater less data a i j)%nat ->
   Less data a (sort.scanGreater less data a i j) = false).
Proof.
  intros Hi. induction j as [|j IH]; intros Hij; simpl.
  - split_and!; try lia; try done; intros; lia.
  - destruct (Nat.leb_spec i (S j)) as [Hle|Hle]; simpl.
    + destruct (Less data a (S j)) eqn:Hl; simpl.
      * destruct IH as (H1 & H2 & Hall & Hstop); [lia|].
        split_and!; try lia; try done.
        intros k Hk. destruct (decide (k = S j)) as [->|]; [done|].
        apply Hall. lia.
      * split_and!; try lia; done.
    + split_and!; try lia; try done; intros; lia.
Qed.

Lemma partitionEqualLoop_spec fuel (data : list A) a b i j :
  (a + 1 <= i)%nat -> (j < b)%nat -> (b <= length data)%nat ->
  (i <= j + 1)%nat -> (j + 1 - i <= fuel)%nat ->
  (forall k, (a < k < i)%nat -> Less data a k = false) ->
  (forall k, (j < k < b)%nat -> Less data a k = true) ->
  let r := sort.partitionEqualLoop less fuel data a i j in
  frame (a + 1) b data r.1 /\ (a < r.2 <= b)%nat /\
  (forall k, (a < k < r.2)%nat -> Less r.1 a k = false) /\
  (forall k, (r.2 <= k < b)%nat -> Less r.1 a k = true).
Proof.
  revert data i j.
  induction fuel as [|fuel IH]; intros data i j Hi Hj Hb Hij Hfuel Hl Hr.
  - simpl. split_and!; try lia; [apply frame_refl|done|intros; apply Hr; lia].
  - simpl.
    destruct (scanNotGreater_spec (S j - i) data a i j)
      as (Hi1 & Hall1 & Hstop1); [lia..|].
    set (i1 := sort.scanNotGreater less data a i j (S j - i)) in *.
    destruct (scanGreater_spec data a i1 j) as (Hj1 & Hj1' & Hall2 & Hstop2);
      [lia..|].
    set (j1 := sort.scanGreater less data a i1 j) in *.
    destruct (Nat.ltb_spec j1 i1) as [Hlt|Hge]; simpl.
    + split_and!; try lia; [apply frame_refl| |].
      * intros k Hk. destruct (decide (k < i)%nat); [apply Hl|apply Hall1]; lia.
      * intros k Hk. destruct (decide (k <= j)%nat); [apply Hall2|apply Hr]; lia.
    + assert (i1 < j1)%nat.
      { destruct (decide (i1 = j1)) as [Heq|]; [|lia].
        pose proof (Hstop1 ltac:(lia)) as H1.
        pose proof (Hstop2 ltac:(lia)) as H2. congruence. }
      destruct (IH (sort.Swap data i1 j1) (i1 + 1)%nat (j1 - 1)%nat)
        as (Hfr & Hrange & Hl' & Hr'); try lia.
      * rewrite Swap_length. lia.
      * intros k Hk. rewrite Less_Swap by lia.
        rewrite (transpose_ne _ _ a) by lia.
        destruct (decide (k = i1)) as [->|].
        -- rewrite transpose_l. apply Hstop2. lia.
        -- rewrite transpose_ne by lia.
           destruct (decide (k < i)%nat); [apply Hl|apply Hall1]; lia.
      * intros k Hk. rewrite Less_Swap by lia.
        rewrite (transpose_ne _ _ a) by lia.
        destruct (decide (k = j1)) as [->|].
        -- rewrite transpose_r. apply Hstop1. lia.
        -- rewrite transpose_ne by lia.
           destruct (decide (k <= j)%nat); [apply Hall2|apply Hr]; lia.
      * split_and!; try lia; [|done|done].
        eapply frame_trans; [apply (frame_Swap (a + 1) b data i1 j1); lia|done].
Qed.

(** [partitionEqual] puts the pivot at [a], the elements not greater than
    it before [mid] and the greater ones from [mid] on. *)
Lemma partitionEqual_spec (data : list A) a b pivot :
  (a <= pivot < b)%nat -> (b <= length data)%nat ->
  let r := sort.partitionEqual less data a b pivot in
  frame a b data r.1 /\ (a < r.2 <= b)%nat /\
  r.1 !! a = data !! pivot /\
  (forall k, (a < k < r.2)%nat -> Less r.1 a k = false) /\
  (forall k, (r.2 <= k < b)%nat -> Less r.1 a k = true).
Proof.
  intros Hp Hb. unfold sort.partitionEqual.
  set (d0 := sort.Swap data a pivot).
  assert (Hfr0 : frame a b data d0) by (apply frame_Swap; lia).
  assert (Hlen0 : length d0 = length data) by apply Swap_length.
  pose proof (partitionEqualLoop_spec (S (b - a)) d0 a b (a + 1) (b - 1))
    as Hloop.
  destruct (sort.partitionEqualLoop less (S (b - a)) d0 a (a + 1) (b - 1))
    as [d1 mid]. simpl in *.
  destruct Hloop as (Hfr & Hrange & Hl & Hr); try lia.
  split_and!; try lia; [| |done|done].
  - eapply frame_trans; [done|]. eapply frame_mono; [..|exact Hfr]; lia.
  - rewrite (frame_lookup _ _ _ _ a Hfr) by lia.
    subst d0. rewrite Swap_lookup by lia.
    destruct (decide (a = pivot)) as [->|]; [done|].
    rewrite decide_True; done.
Qed.

End Partition.

Section PartialInsertion.

Context {A : Type} (less : A -> A -> bool) (le : A -> A -> Prop).

Local Abbreviation Less := (sort.Less less).
Local Abbreviation leAt := (order.leAt le).
Local Abbreviation sortedOn := (order.sortedOn le).
Local Abbreviation Respects := (order.Respects less le).
Local Abbreviation frame := order.frame.
Local Abbreviation frameUpTo := (order.frameUpTo le).
Local Abbreviation boundBelow := (bound.boundBelow le).

Lemma sortedOn_snoc (data : list A) a i :
  Respects data -> (a < i)%nat -> (i < length data)%nat ->
  sortedOn data a i -> leAt data (i - 1) i -> sortedOn data a (i + 1).
Proof.
  intros Hord Ha Hi Hs Hle k m Hk Hkm Hm.
  destruct (decide (m = i)) as [->|]; [|apply Hs; lia].
  destruct (decide (k = i)) as [->|]; [by apply (leAt_refl less)|].
  apply (leAt_trans less le data Hord k (i - 1) i); [lia| |done].
  apply Hs; lia.
Qed.

Lemma skipOrdered_spec n (data : list A) a i b :
  Respects data -> (a < i <= b)%nat -> (b <= length data)%nat ->
  (b - i <= n)%nat -> sortedOn data a i ->
  (i <= sort.skipOrdered less data i b n <= b)%nat /\
  sortedOn data a (sort.skipOrdered less data i b n) /\
  ((sort.skipOrdered less data i b n < b)%nat ->
   Less data (sort.skipOrdered less data i b n)
     (sort.skipOrdered less data i b n - 1) = true).
Proof.
  intros Hord. revert i.
  induction n as [|n IH]; intros i Hi Hb Hn Hs; simpl.
  - split_and!; try lia; try done.
  - destruct (Nat.ltb_spec i b) as [Hlt|Hge]; simpl.
    + destruct (Less data i (i - 1)) eqn:Hl; simpl.
      * split_and!; try lia; done.
      * destruct (IH (i + 1)%nat) as (Hr & Hs' & Hstop); try lia.
        { apply sortedOn_snoc; [done|lia|lia|done|].
          by apply (notLess_leAt less). }
        split_and!; try lia; done.
    + split_and!; try lia; done.
Qed.

(** Swapping two neighbours that are at most each other changes nothing
    up to [equiv]. *)
Lemma Swap_frameUpTo c (d : list A) j :
  Respects d -> (S j < length d)%nat ->
  leAt d j (S j) -> leAt d (S j) j ->
  frameUpTo c c d (sort.Swap d (S j) j).
Proof.
  intros Hord Hj H1 H2.
  split_and!; [apply Swap_length|apply Swap_Permutation| |intros; lia].
  intros i x x' _ Hx Hx'. rewrite Swap_lookup_transpose in Hx' by lia.
  unfold order.transpose in Hx'. repeat case_decide; subst.
  - split; [by apply (H2 x x')|by apply (H1 x' x)].
  - split; [by apply (H1 x x')|by apply (H2 x' x)].
  - simplify_eq. apply (equiv_refl less le d); [done|].
    by eapply list_elem_of_lookup_2.
Qed.

(** [shiftLeft] has no lower bound but index 0.  Moving an element that
    nothing before it exceeds, it only passes elements equivalent to it. *)
Lemma shiftLeft_outside c (d : list A) j :
  Respects d -> (j < length d)%nat ->
  (forall p, (p < j)%nat -> leAt d p j) ->
  frameUpTo c c d (sort.shiftLeft less d j).
Proof.
  revert d. induction j as [|j IH]; intros d Hord Hj Hle; simpl.
  - by apply (frameUpTo_refl less).
  - destruct (Less d (S j) j) eqn:Hless; simpl;
      [|by apply (frameUpTo_refl less)].
    assert (Hsw : frameUpTo c c d (sort.Swap d (S j) j)).
    { apply Swap_frameUpTo; [done|done|apply Hle; lia|].
      by apply (Less_leAt less). }
    apply (frameUpTo_trans less le c c d (sort.Swap d (S j) j)); [done|done|].
    apply IH.
    + by eapply (frameUpTo_Respects less).
    + rewrite Swap_length. lia.
    + intros p Hp. apply leAt_Swap; [lia..|].
      rewrite transpose_ne, transpose_r by lia. apply Hle. lia.
Qed.

(** The state of [shiftLeft]: [data[a:i+1]] is in order but for the
    element at [j], which is not greater than those after it.  Should the
    element reach [a], it goes on only past elements equivalent to it. *)
Lemma shiftLeft_spec a i j (d : list A) :
  Respects d -> (a <= j <= i)%nat -> (i < length d)%nat ->
  boundBelow d a (i + 1) ->
  (forall k m, (a <= k)%nat -> (k <= m)%nat -> (m <= i)%nat ->
     k <> j -> m <> j -> leAt d k m) ->
  (forall m, (j < m <= i)%nat -> leAt d j m) ->
  frameUpTo a (i + 1) d (sort.shiftLeft less d j) /\
  sortedOn (sort.shiftLeft less d j) a (i + 1).
Proof.
  revert d.
  induction j as [|j IH]; intros d Hord Hj Hi Hbound Hrest Hright.
  - simpl. split; [by apply (frameUpTo_refl less)|].
    intros k m Hk Hkm Hm.
    destruct (decide (k = 0)%nat) as [->|]; [|apply Hrest; lia].
    destruct (decide (m = 0)%nat) as [->|]; [by apply (leAt_refl less)|].
    apply Hright. lia.
  - assert (Hfirst : a = S j -> sortedOn d a (i + 1)).
    { intros -> k m Hk Hkm Hm.
      destruct (decide (k = S j)) as [->|]; [|apply Hrest; lia].
      destruct (decide (m = S j)) as [->|]; [by apply (leAt_refl less)|].
      apply Hright. lia. }
    simpl. destruct (Less d (S j) j) eqn:Hless; simpl.
    + destruct (decide (a = S j)) as [Ha|Ha].
      * (* the element is at [a] and goes on *)
        specialize (Hfirst Ha). subst a.
        assert (Hsw : frameUpTo (S j) (S j) d (sort.Swap d (S j) j)).
        { apply Swap_frameUpTo; [done|lia|apply Hbound; lia|].
          by apply (Less_leAt less). }
        assert (Hfr : frameUpTo (S j) (S j) d
                        (sort.shiftLeft less (sort.Swap d (S j) j) j)).
        { apply (frameUpTo_trans less le _ _ d (sort.Swap d (S j) j));
            [done|done|].
          apply shiftLeft_outside.
          - by eapply (frameUpTo_Respects less).
          - rewrite Swap_length. lia.
          - intros p Hp. apply leAt_Swap; [lia..|].
            rewrite transpose_ne, transpose_r by lia. apply Hbound; lia. }
        split.
        -- eapply frameUpTo_mono; [..|exact Hfr]; lia.
        -- apply (frameUpTo_sortedOn_outside less le (S j) (S j) _ _ d);
             [done|done|lia|done].
      * (* the element moves within the range *)
        assert (Hfr : frame a (i + 1) d (sort.Swap d (S j) j))
          by (apply frame_Swap; lia).
        destruct (IH (sort.Swap d (S j) j)) as [Hfr' Hsorted].
        -- by eapply (frame_Respects less).
        -- lia.
        -- rewrite Swap_length. lia.
        -- apply (frame_boundBelow le a (i + 1) d); [lia|lia|done|done].
        -- intros k m Hk Hkm Hm Hkj Hmj.
           apply leAt_Swap; [lia..|]. unfold order.transpose.
           repeat case_decide; subst; try lia;
             first [ by apply (leAt_refl less) | apply Hrest; lia
                   | apply Hright; lia ].
        -- intros m Hm. apply leAt_Swap; [lia..|]. unfold order.transpose.
           repeat case_decide; subst; try lia;
             first [ by apply (Less_leAt less) | apply Hright; lia ].
        -- split; [|done].
           apply (frameUpTo_trans less le _ _ d (sort.Swap d (S j) j));
             [done| |done].
           apply (frame_frameUpTo less); [done|lia|lia|done].
    + (* the element stays where it is *)
      split; [by apply (frameUpTo_refl less)|].
      destruct (decide (a = S j)) as [Ha|Ha]; [by apply Hfirst|].
      intros k m Hk Hkm Hm.
      destruct (decide (k = S j)) as [->|Hkj].
      { destruct (decide (m = S j)) as [->|]; [by apply (leAt_refl less)|].
        apply Hright. lia. }
      destruct (decide (m = S j)) as [->|Hmj]; [|apply Hrest; lia].
      destruct (decide (k = j)) as [->|]; [by apply (notLess_leAt less)|].
      apply (leAt_trans less le d Hord k j (S j));
        [lia| |by apply (notLess_leAt less)].
      apply Hrest; lia.
Qed.

Lemma shiftRight_frame lo b n (data : list A) j :
  (lo < j)%nat -> (j + n <= b)%nat -> (b <= length data)%nat ->
  frame lo b data (sort.shiftRight less data j n).
Proof.
  revert data j. induction n as [|n IH]; intros data j Hlo Hj Hb; simpl.
  - apply frame_refl.
  - destruct (negb _); [apply frame_refl|].
    eapply frame_trans; [apply (frame_Swap lo b data j (j - 1)); lia|].
    apply IH; [lia|lia|rewrite Swap_length; lia].
Qed.

Lemma partialInsertionLoop_S (data : list A) a b i steps :
  sort.partialInsertionLoop less data a b i (S steps) =
    let i := sort.skipOrdered less data i b (b - i) in
    if (i =? b)%nat then (data, true)
    else if (b - a <? 50)%nat then (data, false)
    else
      let data := sort.Swap data i (i - 1) in
      let data :=
        if (2 <=? i - a)%nat then sort.shiftLeft less data (i - 1) else data in
      let data :=
        if (2 <=? b - i)%nat
        then sort.shiftRight less data (i + 1) (b - (i + 1)) else data in
      sort.partialInsertionLoop less data a b i steps.
Proof. reflexivity. Qed.

Lemma partialInsertionLoop_spec steps (data : list A) a b i :
  Respects data -> (a < i <= b)%nat -> (b <= length data)%nat ->
  boundBelow data a b -> sortedOn data a i ->
  let r := sort.partialInsertionLoop less data a b i steps in
  frameUpTo a b data r.1 /\ (r.2 = true -> sortedOn r.1 a b).
Proof.
  revert data i.
  induction steps as [|steps IH]; intros data i Hord Hi Hb Hbound Hs.
  - simpl. split; [by apply (frameUpTo_refl less)|done].
  - rewrite partialInsertionLoop_S. cbv zeta.
    destruct (skipOrdered_spec (b - i) data a i b) as (Hr & Hs' & Hstop);
      try done; try lia.
    set (i' := sort.skipOrdered less data i b (b - i)) in *.
    destruct (Nat.eqb_spec i' b) as [Heq|Hne].
    { simpl. split; [by apply (frameUpTo_refl less)|].
      intros _. by rewrite <- Heq. }
    destruct (Nat.ltb_spec (b - a) 50);
      [by split; [apply (frameUpTo_refl less)|]|].
    set (d1 := sort.Swap data i' (i' - 1)).
    assert (Hfr1 : frame a b data d1) by (apply frame_Swap; lia).
    assert (Hlen1 : length d1 = length data) by apply Swap_length.
    assert (Hord1 : Respects d1) by by eapply (frame_Respects less).
    assert (Hbound1 : boundBelow d1 a b).
    { apply (frame_boundBelow le a b data); [lia|done|done|done]. }
    set (d2 := if (2 <=? i' - a)%nat then sort.shiftLeft less d1 (i' - 1)
               else d1).
    assert (H2 : frameUpTo a i' d1 d2 /\ sortedOn d2 a i').
    { subst d2. destruct (Nat.leb_spec 2 (i' - a)).
      - pose proof (shiftLeft_spec a (i' - 1) (i' - 1) d1 Hord1
                      ltac:(lia) ltac:(lia)) as Hins.
        replace (i' - 1 + 1)%nat with i' in Hins by lia.
        apply Hins; [| |intros; lia].
        + intros p k Hp Hk. apply Hbound1; lia.
        + intros k m ?????. subst d1. apply leAt_Swap; [lia..|].
          rewrite !transpose_ne by lia. apply Hs'; lia.
      - split; [by apply (frameUpTo_refl less)|].
        intros k m ???. replace m with k by lia. by apply (leAt_refl less). }
    destruct H2 as [Hfr2 Hs2].
    assert (Hlen2 : length d2 = length data).
    { rewrite (frameUpTo_length _ _ _ _ _ Hfr2). done. }
    assert (Hord2 : Respects d2) by by eapply (frameUpTo_Respects less).
    set (d3 := if (2 <=? b - i')%nat
               then sort.shiftRight less d2 (i' + 1) (b - (i' + 1)) else d2).
    assert (Hfr3 : frame i' b d2 d3).
    { subst d3. destruct (Nat.leb_spec 2 (b - i')); [|apply frame_refl].
      apply shiftRight_frame; lia. }
    assert (Hfr3' : frameUpTo i' b d2 d3)
      by (apply (frame_frameUpTo less); [done|lia|lia|done]).
    assert (Hfr13 : frameUpTo a b d1 d3).
    { apply (frameUpTo_trans less le a b d1 d2); [done| |].
      - eapply frameUpTo_mono; [..|exact Hfr2]; lia.
      - eapply frameUpTo_mono; [..|exact Hfr3']; lia. }
    destruct (IH d3 i') as [Hfr4 Hdone].
    + by eapply (frameUpTo_Respects less).
    + lia.
    + rewrite (frame_length _ _ _ _ Hfr3). lia.
    + apply (frameUpTo_boundBelow less le a b a b d1); [done|done|lia|done].
    + apply (frame_sortedOn_outside le i' b a i' d2); [done|lia|done].
    + split; [|done].
      apply (frameUpTo_trans less le a b data d1); [done| |].
      * apply (frame_frameUpTo less); [done|lia|lia|done].
      * by apply (frameUpTo_trans less le a b d1 d3).
Qed.

Lemma partialInsertionSort_spec (data : list A) a b :
  Respects data -> (a < b)%nat -> (b <= length data)%nat ->
  boundBelow data a b ->
  let r := sort.partialInsertionSort less data a b in
  frameUpTo a b data r.1 /\ (r.2 = true -> sortedOn r.1 a b).
Proof.
  intros Hord Hab Hb Hbound. apply partialInsertionLoop_spec; try done; try lia.
  intros k m ???. replace m with k by lia. by apply (leAt_refl less).
Qed.

End PartialInsertion.

Section Pdqsort.

Context {A : Type} (less : A -> A -> bool) (le : A -> A -> Prop).

Local Abbreviation Less := (sort.Less less).
Local Abbreviation leAt := (order.leAt le).
Local Abbreviation sortedOn := (order.sortedOn le).
Local Abbreviation Respects := (order.Respects less le).
Local Abbreviation frame := order.frame.
Local Abbreviation frameUpTo := (order.frameUpTo le).
Local Abbreviation boundBelow := (bound.boundBelow le).

Lemma pdqsortLoop_S fuel (data : list A) a b limit wasBalanced wasPartitioned :
  sort.pdqsortLoop less (S fuel) data a b limit wasBalanced wasPartitioned =
    let length := (b - a)%nat in
    if (length <=? 12)%nat then sort.insertionSort less data a b
    else if (limit =? 0)%nat then sort.heapSort less data a b
    else
      let '(data, limit) :=
        if negb wasBalanced
        then (sort.breakPatterns data a b, (limit - 1)%nat)
        else (data, limit) in
      let '(pivot, hint) := sort.choosePivot less data a b in
      let '(data, pivot, hint) :=
        if sort.isDecreasing hint
        then (sort.reverseRange data a b, (b - 1 - (pivot - a))%nat,
              sort.increasingHint)
        else (data, pivot, hint) in
      let '(data, done) :=
        if wasBalanced && wasPartitioned && sort.isIncreasing hint
        then sort.partialInsertionSort less data a b else (data, false) in
      if done then data
      else if (0 <? a)%nat && negb (Less data (a - 1) pivot) then
        let '(data, mid) := sort.partitionEqual less data a b pivot in
        sort.pdqsortLoop less fuel data mid b limit wasBalanced wasPartitioned
      else
        let '(data, mid, alreadyPartitioned) :=
          sort.partition less data a b pivot in
        let leftLen := (mid - a)%nat in
        let rightLen := (b - mid)%nat in
        let balanceThreshold := (length / 8)%nat in
        if (leftLen <? rightLen)%nat then
          let data := sort.pdqsortLoop less fuel data a mid limit true true in
          sort.pdqsortLoop less fuel data (mid + 1) b limit
            (balanceThreshold <=? leftLen)%nat alreadyPartitioned
        else
          let data :=
            sort.pdqsortLoop less fuel data (mid + 1) b limit true true in
          sort.pdqsortLoop less fuel data a mid limit
            (balanceThreshold <=? rightLen)%nat alreadyPartitioned.
Proof. reflexivity. Qed.

(** After [partitionEqual] the stretch before [mid] holds elements
    equivalent to the pivot; sorting the rest finishes the range. *)
Lemma pdqsort_equal_step (d3 d4 dR : list A) a b mid pivot :
  Respects d3 -> (0 < a)%nat -> (a <= pivot < b)%nat ->
  (b <= length d3)%nat ->
  boundBelow d3 a b -> Less d3 (a - 1) pivot = false ->
  sort.partitionEqual less d3 a b pivot = (d4, mid) ->
  (boundBelow d4 mid b -> Respects d4 -> (a < mid <= b)%nat ->
   length d4 = length d3 ->
   frameUpTo mid b d4 dR /\ sortedOn dR mid b) ->
  frameUpTo a b d3 dR /\ sortedOn dR a b.
Proof.
  intros Hord Ha Hp Hb Hbound Hnl Hpe Hrec.
  pose proof (partitionEqual_spec less d3 a b pivot Hp Hb) as Hspec.
  rewrite Hpe in Hspec. simpl in Hspec.
  destruct Hspec as (Hfr4 & Hmid & Hpiv & Hle & Hgt).
  assert (Hord4 : Respects d4) by by eapply (frame_Respects less).
  assert (Hlen4 : length d4 = length d3) by by eapply frame_length.
  assert (Hbound4 : boundBelow d4 a b)
    by (apply (frame_boundBelow le a b d3); [lia|done|done|done]).
  (* the pivot, now at [a], is at most the element before the range *)
  assert (Hpiv4 : leAt d4 a (a - 1)).
  { intros x y Hx Hy. rewrite Hpiv in Hx.
    rewrite (frame_lookup _ _ _ _ (a - 1)%nat Hfr4) in Hy by lia.
    by apply (notLess_leAt less le d3 Hord pivot (a - 1)%nat Hnl). }
  (* the elements before [mid] are at most the pivot *)
  assert (Hle4 : forall k, (a <= k < mid)%nat -> leAt d4 k a).
  { intros k Hk.
    destruct (decide (k = a)) as [->|]; [by apply (leAt_refl less)|].
    apply (notLess_leAt less); [done|]. apply Hle. lia. }
  (* the elements from [mid] on are at least the pivot *)
  assert (Hge4 : forall k, (mid <= k < b)%nat -> leAt d4 a k).
  { intros k Hk. apply (Less_leAt less); [done|]. by apply Hgt. }
  (* the elements before [mid] are at most each other *)
  assert (Heq4 : forall k m, (a <= k < mid)%nat -> (a <= m < mid)%nat ->
            leAt d4 k m).
  { intros k m Hk Hm.
    apply (leAt_trans less le d4 Hord4 k a m); [lia|by apply Hle4|].
    apply (leAt_trans less le d4 Hord4 a (a - 1) m); [lia|done|].
    apply Hbound4; lia. }
  destruct Hrec as [HfrR HsR]; [|done|lia|done|].
  { intros p k Hp' Hk.
    destruct (decide (p < a)%nat); [apply Hbound4; lia|].
    apply (leAt_trans less le d4 Hord4 p a k);
      [lia|apply Hle4; lia|apply Hge4; lia]. }
  split.
  - apply (frameUpTo_trans less le a b d3 d4); [done| |].
    + apply (frame_frameUpTo less); [done|lia|done|done].
    + eapply frameUpTo_mono; [..|exact HfrR]; lia.
  - apply (sortedOn_app le dR a mid b); [|done|].
    + apply (frameUpTo_sortedOn_outside less le mid b a mid d4);
        [done|done|lia|].
      intros k m Hk Hkm Hm. apply Heq4; lia.
    + intros k m Hk Hm.
      apply (frameUpTo_leAt_r less le mid b d4 dR k); [done|done|lia| |lia].
      intros m' Hm'.
      apply (leAt_trans less le d4 Hord4 k a m');
        [lia|apply Hle4; lia|apply Hge4; lia].
Qed.

(** After [partition] the two sides are sorted on their own, in either
    order. *)
Lemma pdqsort_partition_step (d4 d5 d6 : list A) a b mid :
  Respects d4 -> (a <= mid < b)%nat -> (b <= length d4)%nat ->
  (forall k, (a <= k < mid)%nat -> leAt d4 k mid) ->
  (forall k, (mid < k < b)%nat -> leAt d4 mid k) ->
  (frameUpTo a mid d4 d5 /\ sortedOn d5 a mid /\
   frameUpTo (mid + 1) b d5 d6 /\ sortedOn d6 (mid + 1) b) \/
  (frameUpTo (mid + 1) b d4 d5 /\ sortedOn d5 (mid + 1) b /\
   frameUpTo a mid d5 d6 /\ sortedOn d6 a mid) ->
  frameUpTo a b d4 d6 /\ sortedOn d6 a b.
Proof.
  intros Hord Hmid Hb Hl Hr Hcases.
  assert (H : frameUpTo a b d4 d6 /\ sortedOn d6 a mid /\
              sortedOn d6 (mid + 1) b /\
              (forall k, (a <= k < mid)%nat -> leAt d6 k mid) /\
              (forall k, (mid < k < b)%nat -> leAt d6 mid k)).
  { destruct Hcases as [(Hf5 & Hs5 & Hf6 & Hs6)|(Hf5 & Hs5 & Hf6 & Hs6)].
    - assert (Hord5 : Respects d5) by by eapply (frameUpTo_Respects less).
      split; [|split; [|split; [|split]]].
      + apply (frameUpTo_trans less le a b d4 d5); [done| |].
        * eapply frameUpTo_mono; [..|exact Hf5]; lia.
        * eapply frameUpTo_mono; [..|exact Hf6]; lia.
      + apply (frameUpTo_sortedOn_outside less le (mid + 1) b a mid d5);
          [done|done|lia|done].
      + done.
      + intros k Hk.
        apply (frameUpTo_leAt_outside less le (mid + 1) b d5 d6);
          [done|done|lia|lia|].
        by apply (frameUpTo_leAt_l less le a mid d4 d5 mid); [done|done|lia|..].
      + intros k Hk.
        apply (frameUpTo_leAt_r less le (mid + 1) b d5 d6 mid);
          [done|done|lia| |lia].
        intros k' Hk'.
        apply (frameUpTo_leAt_outside less le a mid d4 d5);
          [done|done|lia|lia|].
        apply Hr. lia.
    - assert (Hord5 : Respects d5) by by eapply (frameUpTo_Respects less).
      split; [|split; [|split; [|split]]].
      + apply (frameUpTo_trans less le a b d4 d5); [done| |].
        * eapply frameUpTo_mono; [..|exact Hf5]; lia.
        * eapply frameUpTo_mono; [..|exact Hf6]; lia.
      + done.
      + apply (frameUpTo_sortedOn_outside less le a mid (mid + 1) b d5);
          [done|done|lia|done].
      + apply (frameUpTo_leAt_l less le a mid d5 d6 mid); [done|done|lia|].
        intros k Hk.
        apply (frameUpTo_leAt_outside less le (mid + 1) b d4 d5);
          [done|done|lia|lia|].
        by apply Hl.
      + intros k Hk.
        apply (frameUpTo_leAt_outside less le a mid d5 d6);
          [done|done|lia|lia|].
        apply (frameUpTo_leAt_r less le (mid + 1) b d4 d5 mid);
          [done|done|lia| |lia].
        intros k' Hk'. apply Hr. lia. }
  destruct H as (Hfr & HsL & HsR & HL & HR). split; [done|].
  assert (Hord6 : Respects d6) by by eapply (frameUpTo_Respects less).
  apply (sortedOn_join less le d6 a mid b); [done| |done|done|done|done].
  rewrite (frameUpTo_length _ _ _ _ _ Hfr). lia.
Qed.

(** [pdqsort] sorts [data[a:b]]; what it does elsewhere, and only through
    [partialInsertionSort], is to exchange equivalent elements. *)
Lemma pdqsortLoop_spec fuel (data : list A) a b limit wb wp :
  Respects data -> (a <= b)%nat -> (b <= length data)%nat ->
  (b - a <= fuel)%nat -> boundBelow data a b ->
  frameUpTo a b data (sort.pdqsortLoop less fuel data a b limit wb wp) /\
  sortedOn (sort.pdqsortLoop less fuel data a b limit wb wp) a b.
Proof.
  revert data a b limit wb wp.
  induction fuel as [|fuel IH];
    intros data a b limit wb wp Hord Hab Hb Hfuel Hbound.
  { simpl. split; [by apply (frameUpTo_refl less)|]. intros k m ???. lia. }
  rewrite pdqsortLoop_S. cbv zeta.
  destruct (Nat.leb_spec (b - a) 12) as [Hshort|Hlong].
  { destruct (insertionSort_spec less le a b data) as [Hf Hs]; [done..|].
    split; [by apply (frame_frameUpTo less)|done]. }
  destruct (Nat.eqb_spec limit 0) as [Hlimit|Hlimit].
  { destruct (heapSort_spec less le a b data) as [Hf Hs]; [done..|].
    split; [by apply (frame_frameUpTo less)|done]. }
  (* breakPatterns *)
  set (s1 := if negb wb then (sort.breakPatterns data a b, (limit - 1)%nat)
             else (data, limit)).
  assert (Hfr1 : frame a b data s1.1).
  { subst s1. destruct (negb wb); simpl;
      [by apply breakPatterns_frame|apply frame_refl]. }
  destruct s1 as [d1 limit1]. simpl in Hfr1.
  assert (Hlen1 : length d1 = length data) by by eapply frame_length.
  (* choosePivot, reverseRange *)
  destruct (sort.choosePivot less d1 a b) as [pivot hint] eqn:Hpivot.
  apply choosePivot_range in Hpivot; [|lia].
  set (s2 := if sort.isDecreasing hint
             then (sort.reverseRange d1 a b, (b - 1 - (pivot - a))%nat,
                   sort.increasingHint)
             else (d1, pivot, hint)).
  assert (H2 : frame a b d1 s2.1.1 /\ (a <= s2.1.2 < b)%nat).
  { subst s2. destruct (sort.isDecreasing hint); simpl.
    - split; [apply reverseRange_frame; lia|lia].
    - split; [apply frame_refl|done]. }
  destruct s2 as [[d2 pivot2] hint2]. simpl in H2. destruct H2 as [Hfr2 Hp2].
  assert (Hfr02 : frame a b data d2) by by eapply frame_trans.
  assert (Hlen2 : length d2 = length data) by by eapply frame_length.
  assert (Hord2 : Respects d2) by by eapply (frame_Respects less).
  assert (Hbound2 : boundBelow d2 a b)
    by by apply (frame_boundBelow le a b data).
  (* partialInsertionSort *)
  set (s3 := if wb && wp && sort.isIncreasing hint2
             then sort.partialInsertionSort less d2 a b else (d2, false)).
  assert (H3 : frameUpTo a b d2 s3.1 /\ (s3.2 = true -> sortedOn s3.1 a b)).
  { subst s3. destruct (wb && wp && sort.isIncreasing hint2).
    - apply partialInsertionSort_spec; [done|lia|lia|done].
    - simpl. split; [by apply (frameUpTo_refl less)|done]. }
  destruct s3 as [d3 done]. simpl in H3. destruct H3 as [Hfr3 Hdone].
  assert (Hfr03 : frameUpTo a b data d3).
  { apply (frameUpTo_trans less le a b data d2); [done| |done].
    by apply (frame_frameUpTo less). }
  assert (Hlen3 : length d3 = length data).
  { by rewrite (frameUpTo_length _ _ _ _ _ Hfr03). }
  assert (Hord3 : Respects d3) by by eapply (frameUpTo_Respects less).
  assert (Hbound3 : boundBelow d3 a b)
    by (apply (frameUpTo_boundBelow less le a b a b d2); [done|done|lia|done]).
  destruct done; [by split; [|apply Hdone]|].
  destruct ((0 <? a)%nat && negb (Less d3 (a - 1) pivot2)) eqn:Hdup.
  - (* many equal elements *)
    apply andb_true_iff in Hdup as [Ha%Nat.ltb_lt Hnl%negb_true_iff].
    destruct (sort.partitionEqual less d3 a b pivot2) as [d4 mid] eqn:Hpe.
    destruct (pdqsort_equal_step d3 d4
                (sort.pdqsortLoop less fuel d4 mid b limit1 wb wp)
                a b mid pivot2) as [Hfr Hs]; try done; try lia.
    + intros Hbound4 Hord4 Hmid Hlen4. apply IH; [done|lia|lia|lia|done].
    + split; [|done]. by apply (frameUpTo_trans less le a b data d3).
  - (* partition *)
    pose proof (partition_spec less d3 a b pivot2 Hp2 ltac:(lia)) as Hspec.
    destruct (sort.partition less d3 a b pivot2) as [[d4 mid] ap].
    simpl in Hspec. destruct Hspec as (Hfr4 & Hmid & Hl & Hr).
    assert (Hlen4 : length d4 = length data).
    { rewrite (frame_length _ _ _ _ Hfr4). done. }
    assert (Hord4 : Respects d4) by by eapply (frame_Respects less).
    assert (Hbound4 : boundBelow d4 a b)
      by (apply (frame_boundBelow le a b d3); [lia|lia|done|done]).
    assert (HL : forall k, (a <= k < mid)%nat -> leAt d4 k mid).
    { intros k Hk. apply (Less_leAt less); [done|]. by apply Hl. }
    assert (HR : forall k, (mid < k < b)%nat -> leAt d4 mid k).
    { intros k Hk. apply (notLess_leAt less); [done|]. by apply Hr. }
    assert (HboundL : forall d : list A, frameUpTo (mid + 1) b d4 d ->
              boundBelow d a mid).
    { intros d Hfd.
      apply (frameUpTo_boundBelow less le (mid + 1) b a mid d4);
        [done|done|lia|].
      intros p k Hp Hk. apply Hbound4; lia. }
    assert (HboundR : forall d : list A, frameUpTo a mid d4 d ->
              boundBelow d (mid + 1) b).
    { intros d Hfd.
      apply (frameUpTo_boundBelow less le a mid (mid + 1) b d4);
        [done|done|lia|].
      intros p k Hp Hk.
      destruct (decide (p < a)%nat); [apply Hbound4; lia|].
      destruct (decide (p = mid)) as [->|]; [apply HR; lia|].
      apply (leAt_trans less le d4 Hord4 p mid k);
        [lia|apply HL; lia|apply HR; lia]. }
    assert (Hstep : forall d5 d6 : list A,
              (frameUpTo a mid d4 d5 /\ sortedOn d5 a mid /\
               frameUpTo (mid + 1) b d5 d6 /\ sortedOn d6 (mid + 1) b) \/
              (frameUpTo (mid + 1) b d4 d5 /\ sortedOn d5 (mid + 1) b /\
               frameUpTo a mid d5 d6 /\ sortedOn d6 a mid) ->
              frameUpTo a b data d6 /\ sortedOn d6 a b).
    { intros d5 d6 Hcases.
      destruct (pdqsort_partition_step d4 d5 d6 a b mid) as [Hf Hs];
        try done; try lia.
      split; [|done].
      apply (frameUpTo_trans less le a b data d3); [done|done|].
      apply (frameUpTo_trans less le a b d3 d4); [done| |done].
      apply (frame_frameUpTo less); [done|lia|lia|done]. }
    destruct (Nat.ltb_spec (mid - a) (b - mid)).
    + set (d5 := sort.pdqsortLoop less fuel d4 a mid limit1 true true).
      destruct (IH d4 a mid limit1 true true) as [Hf5 Hs5];
        [done|lia|lia|lia| |].
      { apply (HboundL d4). by apply (frameUpTo_refl less). }
      fold d5 in Hf5, Hs5.
      apply (Hstep d5). left. split; [done|split; [done|]].
      apply IH; [by eapply (frameUpTo_Respects less)|lia| |lia
                |by apply HboundR].
      rewrite (frameUpTo_length _ _ _ _ _ Hf5). lia.
    + set (d5 := sort.pdqsortLoop less fuel d4 (mid + 1) b limit1 true true).
      destruct (IH d4 (mid + 1)%nat b limit1 true true) as [Hf5 Hs5];
        [done|lia|lia|lia| |].
      { apply (HboundR d4). by apply (frameUpTo_refl less). }
      fold d5 in Hf5, Hs5.
      apply (Hstep d5). right. split; [done|split; [done|]].
      apply IH; [by eapply (frameUpTo_Respects less)|lia| |lia
                |by apply HboundL].
      rewrite (frameUpTo_length _ _ _ _ _ Hf5). lia.
Qed.

(** [sort.Sort] leaves a slice in ascending order under any preorder that
    [less] respects on its elements. *)
Lemma Sort_sortedOn (data : list A) :
  Respects data -> sortedOn (sort.Sort less data) 0 (length data).
Proof.
  intros Hord. unfold sort.Sort.
  destruct (Nat.leb_spec (length data) 1).
  - intros k m ???. replace m with k by lia. by apply (leAt_refl less).
  - unfold sort.pdqsort. apply pdqsortLoop_spec; [done|lia|lia|lia|].
    intros p k ?. lia.
Qed.

End Pdqsort.

Section Stability.

Context {A : Type} (less : A -> A -> bool).

Local Abbreviation Less := (sort.Less less).
Local Abbreviation StrictWeakOn := (order.StrictWeakOn less).
Local Abbreviation Respects := (order.Respects less).
Local Abbreviation notGreater := (order.notGreater less).
Local Abbreviation Ascending := (order.Ascending less).
Local Abbreviation frame := order.frame.
Local Abbreviation class := (stable.class less).
Local Abbreviation coherent := (stable.coherent less).

Lemma strictWeakOnb_correct (l : list A) :
  stable.strictWeakOnb less l = true -> StrictWeakOn l.
Proof.
  unfold stable.strictWeakOnb. intros [Hi Ht]%andb_true_iff.
  rewrite forallb_forall in Hi, Ht.
  assert (H3 : forall x y z, x ∈ l -> y ∈ l -> z ∈ l ->
            implb (less x y && less y z) (less x z) &&
            implb (negb (less x y) && negb (less y z)) (negb (less x z))
            = true).
  { intros x y z Hx%list_elem_of_In Hy%list_elem_of_In Hz%list_elem_of_In.
    specialize (Ht x Hx). rewrite forallb_forall in Ht.
    specialize (Ht y Hy). rewrite forallb_forall in Ht. by apply Ht. }
  split_and!.
  - intros x Hx%list_elem_of_In. apply negb_true_iff. by apply Hi.
  - intros x y z Hx Hy Hz Hxy Hyz. specialize (H3 x y z Hx Hy Hz).
    rewrite Hxy, Hyz in H3. simpl in H3. by destruct (less x z).
  - intros x y z Hx Hy Hz Hxy Hyz. specialize (H3 x y z Hx Hy Hz).
    rewrite Hxy, Hyz in H3. simpl in H3. by destruct (less x z).
Qed.

Lemma StrictWeakOn_Permutation (l l' : list A) :
  l ≡ₚ l' -> StrictWeakOn l -> StrictWeakOn l'.
Proof.
  intros Hp (Hi & Ht & Hn).
  split_and!; intros *; rewrite <- ?Hp; eauto.
Qed.

Lemma Sort_length (data : list A) : length (sort.Sort less data) = length data.
Proof. apply Permutation_length, Sort_Permutation. Qed.

(** After [sort.Sort] no element is followed by a smaller one, under any
    preorder that [less] respects on the elements of the slice. *)
Lemma Sort_ordered (le : A -> A -> Prop) (data : list A) i j x y :
  Respects le data -> (i < j)%nat ->
  sort.Sort less data !! i = Some x -> sort.Sort less data !! j = Some y ->
  le x y.
Proof.
  intros Hord Hij Hx Hy.
  apply (Sort_sortedOn less le data Hord i j); [lia|lia| |done|done].
  rewrite <- Sort_length. by eapply lookup_lt_Some.
Qed.

(** A strict weak order respects its own [notGreater]. *)
Lemma StrictWeakOn_Respects (l : list A) :
  StrictWeakOn l -> Respects notGreater l.
Proof.
  intros (Hi & Ht & Hn). unfold order.notGreater. split_and!.
  - intros x y z Hx Hy Hz Hxy Hyz. by apply (Hn z y x).
  - intros x y Hx Hy Hxy. destruct (less y x) eqn:Hyx; [|done].
    rewrite <- (Hi x Hx). symmetry. by apply (Ht x y x).
  - done.
Qed.

(** [sort.Sort] sorts, whenever [less] is a strict weak order on the
    elements of the slice. *)
Lemma Sort_Ascending (data : list A) :
  StrictWeakOn data -> Ascending (sort.Sort less data).
Proof.
  intros Hord i j x y Hij Hx Hy.
  apply (Sort_ordered notGreater data i j x y); [|done..].
  by apply StrictWeakOn_Respects.
Qed.

(** Up to twelve elements [sort.Sort] is the insertion sort. *)
Lemma Sort_small (data : list A) :
  (length data <= 12)%nat ->
  sort.Sort less data = sort.insertionSort less data 0 (length data).
Proof.
  intros Hlen. unfold sort.Sort, sort.pdqsort.
  destruct (Nat.leb_spec (length data) 1) as [H1|H1].
  - unfold sort.insertionSort.
    by replace (length data - (0 + 1))%nat with 0%nat by lia.
  - rewrite pdqsortLoop_S. cbv zeta.
    destruct (Nat.leb_spec (length data - 0) 12); [done|lia].
Qed.

Lemma Swap_adjacent (data : list A) j x y :
  data !! j = Some x -> data !! S j = Some y ->
  data = take j data ++ x :: y :: drop (S (S j)) data /\
  sort.Swap data (S j) j = take j data ++ y :: x :: drop (S (S j)) data.
Proof.
  intros Hx Hy. unfold sort.Swap. rewrite Hx, Hy.
  revert j Hx Hy. induction data as [|z data IH]; intros j Hx Hy; [done|].
  destruct j as [|j].
  - destruct data as [|z' data]; simplify_eq/=. by rewrite drop_0.
  - simpl in Hx, Hy. destruct (IH j Hx Hy) as [H1 H2]. simpl.
    split; f_equal; done.
Qed.

Lemma class_adjacent v (l1 l2 : list A) x y :
  ~ (stable.equivalent less v x = true /\ stable.equivalent less v y = true) ->
  class v (l1 ++ y :: x :: l2) = class v (l1 ++ x :: y :: l2).
Proof.
  intros Hne. unfold stable.class. rewrite !List.filter_app. f_equal. simpl.
  destruct (stable.equivalent less v x) eqn:Hx,
    (stable.equivalent less v y) eqn:Hy; try done.
  destruct Hne. done.
Qed.

Lemma coherent_Permutation v (l l' : list A) :
  l ≡ₚ l' -> coherent v l -> coherent v l'.
Proof.
  intros Hp Hc x y Hx Hy. rewrite <- Hp in Hx, Hy. by apply Hc.
Qed.

(** Under a strict weak order the elements equivalent to one of the slice
    are equivalent to each other. *)
Lemma StrictWeakOn_coherent v (l : list A) :
  StrictWeakOn l -> v ∈ l -> coherent v l.
Proof.
  intros (_ & _ & Hneg) Hv x y Hx Hy Hvx Hvy. unfold stable.equivalent in *.
  apply andb_true_iff in Hvx as [Hvx _]. apply andb_true_iff in Hvy as [_ Hyv].
  apply negb_true_iff in Hvx, Hyv. by apply (Hneg y v x).
Qed.

(** Exchanging two neighbours of which the second is less than the first
    leaves the class of [v] as it is. *)
Lemma class_Swap v (data : list A) j :
  coherent v data -> Less data (S j) j = true ->
  class v (sort.Swap data (S j) j) = class v data.
Proof.
  intros Hc Hless.
  destruct (Less_true_lt less _ _ _ Hless) as [HSj Hj].
  destruct (lookup_lt_is_Some_2 data j Hj) as [x Hx].
  destruct (lookup_lt_is_Some_2 data (S j) HSj) as [y Hy].
  rewrite (Less_lookup less _ _ _ _ _ Hy Hx) in Hless.
  destruct (Swap_adjacent data j x y Hx Hy) as [Hd Hs].
  rewrite Hs. rewrite Hd at 3. apply class_adjacent.
  intros [Hvx Hvy].
  rewrite (Hc x y) in Hless; [done|..|done|done];
    by eapply list_elem_of_lookup_2.
Qed.

Lemma insertionInner_class v (data : list A) a j :
  coherent v data ->
  class v (sort.insertionInner less data a j) = class v data.
Proof.
  revert data. induction j as [|j IH]; intros data Hc; simpl; [done|].
  destruct (_ && _) eqn:Hb; [|done].
  apply andb_true_iff in Hb as [_ Hless].
  rewrite IH.
  - by apply class_Swap.
  - eapply coherent_Permutation; [|done]. symmetry. apply Swap_Permutation.
Qed.

Lemma insertionOuter_class v (data : list A) a i n :
  coherent v data ->
  class v (sort.insertionOuter less data a i n) = class v data.
Proof.
  revert data i. induction n as [|n IH]; intros data i Hc; simpl; [done|].
  rewrite IH.
  - by apply insertionInner_class.
  - eapply coherent_Permutation; [|done].
    symmetry. apply insertionInner_Permutation.
Qed.

(** Up to twelve elements [sort.Sort] keeps the order of the elements
    equivalent to [v]. *)
Lemma Sort_small_stable v (data : list A) :
  (length data <= 12)%nat -> coherent v data ->
  class v (sort.Sort less data) = class v data.
Proof.
  intros Hlen Hc. rewrite Sort_small by done.
  by apply insertionOuter_class.
Qed.

End Stability.

Local Open Scope Z_scope.

(** ** The resolver *)

Section Resolver.

Import helm.

Lemma parseVersions_inl versions semvers :
  parseVersions versions = inl semvers <-> allParse versions semvers.
Proof.
  unfold allParse. split.
  - revert semvers. induction versions as [|raw versions IH]; simpl;
      intros semvers H.
    + by simplify_eq.
    + destruct (semver.NewVersion raw) as [v|] eqn:Hraw; [|done].
      destruct (parseVersions versions) as [vs|[]]; [|done].
      simplify_eq. constructor; auto.
  - induction 1 as [|raw v versions semvers Hraw _ IH]; simpl; [done|].
    by rewrite Hraw, IH.
Qed.

Lemma parseVersions_inr versions bad err :
  parseVersions versions = inr (bad, err) <->
  exists good rest,
    versions = good ++ bad :: rest /\
    Forall (fun raw => exists v, semver.NewVersion raw = Ok v) good /\
    semver.NewVersion bad = Err err.
Proof.
  split.
  - induction versions as [|raw versions IH]; simpl; [done|].
    destruct (semver.NewVersion raw) as [v|e] eqn:Hraw.
    + destruct (parseVersions versions) as [vs|[bad' err']]; [done|].
      intros ?; simplify_eq.
      destruct IH as (good & rest & -> & Hgood & Hbad); [done|].
      exists (raw :: good), rest. split_and!; [done| |done].
      constructor; eauto.
    + intros ?; simplify_eq. by exists [], versions.
  - intros (good & rest & -> & Hgood & Hbad).
    induction Hgood as [|raw good [v Hraw] _ IH]; simpl.
    + by rewrite Hbad.
    + by rewrite Hraw, IH.
Qed.

(** The scan from the end returns the last version the constraint accepts
    among the first [n]. *)
Lemma lastSatisfying_Some constraint semvers n v :
  lastSatisfying constraint semvers n = Some v ->
  exists i, (i < n)%nat /\ semvers !! i = Some v /\
    semver.Check constraint v = true /\
    forall j w, (i < j < n)%nat -> semvers !! j = Some w ->
      semver.Check constraint w = false.
Proof.
  induction n as [|n IH]; simpl; [done|].
  destruct (semvers !! n) as [w|] eqn:Hn; [|done].
  destruct (semver.Check constraint w) eqn:Hw.
  - intros ?; simplify_eq. exists n. split_and!; [lia|done|done|].
    intros j w' ?. lia.
  - intros (i & Hi & Hv & Hc & Hlast)%IH.
    exists i. split_and!; [lia|done|done|].
    intros j w' Hj Hw'. destruct (decide (j = n)) as [->|].
    + by simplify_eq.
    + apply (Hlast j); [lia|done].
Qed.

Lemma lastSatisfying_None constraint semvers n :
  (n <= length semvers)%nat ->
  lastSatisfying constraint semvers n = None ->
  forall i w, (i < n)%nat -> semvers !! i = Some w ->
    semver.Check constraint w = false.
Proof.
  induction n as [|n IH]; simpl; intros Hn H i w Hi Hw; [lia|].
  destruct (lookup_lt_is_Some_2 semvers n) as [x Hx]; [lia|].
  rewrite Hx in H. destruct (semver.Check constraint x) eqn:Hc; [done|].
  destruct (decide (i = n)) as [->|]; [by simplify_eq|].
  apply (IH ltac:(lia) H i); [lia|done].
Qed.

Lemma lastSatisfying_all_false constraint semvers n :
  (forall v, v ∈ semvers -> semver.Check constraint v = false) ->
  lastSatisfying constraint semvers n = None.
Proof.
  intros H. induction n as [|n IH]; simpl; [done|].
  destruct (semvers !! n) as [w|] eqn:Hn; [|done].
  rewrite (H w); [done|]. by eapply list_elem_of_lookup_2.
Qed.

Lemma sortCollection_Permutation semvers :
  sortCollection semvers ≡ₚ semvers.
Proof. apply Sort_Permutation. Qed.

Lemma elem_of_sortCollection v semvers :
  v ∈ sortCollection semvers <-> v ∈ semvers.
Proof. by rewrite sortCollection_Permutation. Qed.

Lemma elem_of_allParse versions semvers v :
  allParse versions semvers -> v ∈ semvers ->
  exists raw, raw ∈ versions /\ semver.NewVersion raw = Ok v.
Proof.
  intros Hall Hv. apply list_elem_of_lookup in Hv as [i Hi].
  destruct (Forall2_lookup_r _ _ _ _ _ Hall Hi) as (raw & Hraw & Hp).
  exists raw. split; [|done]. by eapply list_elem_of_lookup_2.
Qed.

(** With an empty constraint the resolver returns the rendering of the last
    element of the sorted slice, if there is one. *)
Lemma getLatestVersion_unconstrained versions semvers :
  allParse versions semvers ->
  getLatestVersion versions "" =
    match last (sortCollection semvers) with
    | Some v => Return (semver.String v, None)
    | None => Panic (indexOutOfRange (-1))
    end.
Proof.
  intros Hall%parseVersions_inl. unfold getLatestVersion. rewrite Hall. simpl.
  set (s := sortCollection semvers). unfold at_index.
  rewrite last_lookup.
  destruct (length s) as [|n] eqn:Hlen; simpl.
  - by destruct s.
  - replace (Z.of_nat (S n) - 1) with (Z.of_nat n) by lia.
    rewrite Nat2Z.id.
    destruct (Z.leb_spec 0 (Z.of_nat n)); [|lia].
    destruct (Z.ltb_spec (Z.of_nat n) (Z.of_nat (S n))); [|lia]. simpl.
    destruct (lookup_lt_is_Some_2 s n) as [x ->]; [lia|]. done.
Qed.

(** With a constraint that parses the resolver returns the rendering of the
    last element of the sorted slice that the constraint accepts. *)
Lemma getLatestVersion_constrained versions semvers constraintStr constraint :
  allParse versions semvers ->
  constraintStr <> "" ->
  semver.NewConstraint constraintStr = Ok constraint ->
  getLatestVersion versions constraintStr =
    match lastSatisfying constraint (sortCollection semvers)
            (length (sortCollection semvers)) with
    | Some v => Return (semver.String v, None)
    | None => Return ("", None)
    end.
Proof.
  intros Hall%parseVersions_inl Hne Hc. unfold getLatestVersion.
  rewrite Hall. apply String.eqb_neq in Hne. rewrite Hne, Hc. done.
Qed.

End Resolver.

(** ** The order of versions *)

Section VersionOrder.

Import helm.

Lemma compareSegment_spec v o :
  (v < o /\ semver.compareSegment v o = -1) \/
  (v = o /\ semver.compareSegment v o = 0) \/
  (o < v /\ semver.compareSegment v o = 1).
Proof.
  unfold semver.compareSegment.
  destruct (Z.ltb_spec v o); [auto|]. destruct (Z.ltb_spec o v); auto.
  right; left. split; [lia|done].
Qed.

(** Build metadata plays no part in the comparison. *)
Lemma Compare_metadata m1 m2 v o :
  semver.Compare (withMetadata m1 v) (withMetadata m2 o) = semver.Compare v o.
Proof. reflexivity. Qed.

Lemma precedes_metadata m1 m2 v o :
  precedes (withMetadata m1 v) (withMetadata m2 o) <-> precedes v o.
Proof. reflexivity. Qed.

Lemma String_compare_Lt_trans s t u :
  String.compare s t = Lt -> String.compare t u = Lt ->
  String.compare s u = Lt.
Proof.
  revert t u. induction s as [|a s IH]; intros [|b t] [|c u]; simpl; try done.
  unfold Ascii.compare.
  destruct (N.compare_spec (N_of_ascii a) (N_of_ascii b)) as [Hab|Hab|Hab];
    try done;
  destruct (N.compare_spec (N_of_ascii b) (N_of_ascii c)) as [Hbc|Hbc|Hbc];
    try done; intros H1 H2.
  - rewrite Hab, Hbc, N.compare_refl. eauto.
  - rewrite Hab. by apply N.compare_lt_iff in Hbc as ->.
  - rewrite <- Hbc. by apply N.compare_lt_iff in Hab as ->.
  - assert (Hac : (N_of_ascii a < N_of_ascii c)%N) by lia.
    by apply N.compare_lt_iff in Hac as ->.
Qed.

Lemma comparePrePart_refl s : semver.comparePrePart s s = 0.
Proof. unfold semver.comparePrePart. by rewrite String.eqb_refl. Qed.

Lemma comparePrePart_0 s o : semver.comparePrePart s o = 0 -> s = o.
Proof.
  unfold semver.comparePrePart.
  destruct (String.eqb_spec s o); [done|]. repeat case_match; done.
Qed.

Lemma comparePrePart_range s o :
  semver.comparePrePart s o = -1 \/ semver.comparePrePart s o = 0 \/
  semver.comparePrePart s o = 1.
Proof. unfold semver.comparePrePart. repeat case_match; auto. Qed.

Lemma comparePrePart_antisym s o :
  sameNumeral s o ->
  semver.comparePrePart o s = - semver.comparePrePart s o.
Proof.
  intros Hinj. destruct (decide (s = o)) as [->|Hne].
  { by rewrite comparePrePart_refl. }
  unfold semver.comparePrePart.
  destruct (String.eqb_spec s o); [done|].
  destruct (String.eqb_spec o s); [done|].
  destruct (String.eqb_spec s ""); destruct (String.eqb_spec o "");
    subst; simpl; try done.
  destruct (strconv.ParseUint s) as [a|] eqn:Hs;
    destruct (strconv.ParseUint o) as [b|] eqn:Ho; simpl; try done.
  - destruct (Z.ltb_spec a b); destruct (Z.ltb_spec b a); try done; try lia.
    assert (a = b) as -> by lia. by specialize (Hinj b Hs Ho).
  - rewrite (String.compare_antisym s o).
    destruct (String.compare o s) eqn:Hc; simpl; try done.
    by apply String.compare_eq_iff in Hc.
Qed.

Lemma comparePrePart_trans a b c :
  sameNumeral a b ->
  semver.comparePrePart a b = -1 -> semver.comparePrePart b c = -1 ->
  semver.comparePrePart a c = -1.
Proof.
  intros Hinj Hab Hbc. destruct (decide (a = c)) as [->|Hne].
  { rewrite (comparePrePart_antisym c b) in Hbc by done. lia. }
  revert Hab Hbc. unfold semver.comparePrePart.
  destruct (String.eqb_spec a b); [done|].
  destruct (String.eqb_spec b c); [done|].
  destruct (String.eqb_spec a c); [done|].
  destruct (String.eqb_spec a ""); destruct (String.eqb_spec b "");
    destruct (String.eqb_spec c ""); subst; simpl; try done.
  destruct (strconv.ParseUint a) as [x|]; destruct (strconv.ParseUint b) as [y|];
    destruct (strconv.ParseUint c) as [z|]; simpl; try done.
  - destruct (Z.ltb_spec y x); destruct (Z.ltb_spec z y);
      destruct (Z.ltb_spec z x); try done; lia.
  - destruct (String.compare a b) eqn:Hab; try done;
      destruct (String.compare b c) eqn:Hbc; try done; intros _ _.
    + apply String.compare_eq_iff in Hab. done.
    + apply String.compare_eq_iff in Hab. done.
    + apply String.compare_eq_iff in Hbc. done.
    + by rewrite (String_compare_Lt_trans a b c).
Qed.

(** The loop of [comparePrerelease] *)

Lemma sub_beyond (m : list string) i :
  (length m <= i)%nat -> semver.sub m i = "".
Proof. intros H. unfold semver.sub. by rewrite lookup_ge_None_2. Qed.

Lemma comparePreLoop_beyond sp op i n :
  (length sp <= i)%nat -> (length op <= i)%nat ->
  semver.comparePreLoop sp op i n = 0.
Proof.
  revert i. induction n as [|n IH]; intros i Hs Ho; [done|]. simpl.
  rewrite !sub_beyond by done. rewrite comparePrePart_refl. simpl.
  apply IH; lia.
Qed.

Lemma comparePreLoop_more sp op i n k :
  (length sp <= i + n)%nat -> (length op <= i + n)%nat ->
  semver.comparePreLoop sp op i (n + k) = semver.comparePreLoop sp op i n.
Proof.
  revert i. induction n as [|n IH]; intros i Hs Ho.
  - simpl. apply comparePreLoop_beyond; lia.
  - simpl. destruct (_ =? 0); [|done]. apply IH; lia.
Qed.

Section Identifiers.

Variable P : string -> Prop.
Hypothesis P_empty : P "".
Hypothesis P_sameNumeral : forall s o, P s -> P o -> sameNumeral s o.

Lemma sub_P m i : Forall P m -> P (semver.sub m i).
Proof.
  intros Hm. unfold semver.sub. destruct (m !! i) as [s|] eqn:Hs; [|done].
  simpl. rewrite Forall_forall in Hm. apply Hm.
  by eapply list_elem_of_lookup_2.
Qed.

Lemma comparePreLoop_antisym sp op i n :
  Forall P sp -> Forall P op ->
  semver.comparePreLoop op sp i n = - semver.comparePreLoop sp op i n.
Proof.
  intros Hs Ho. revert i. induction n as [|n IH]; intros i; [done|]. simpl.
  rewrite (comparePrePart_antisym (semver.sub sp i) (semver.sub op i))
    by (apply P_sameNumeral; by apply sub_P).
  destruct (comparePrePart_range (semver.sub sp i) (semver.sub op i))
    as [-> | [-> | ->]]; simpl; auto.
Qed.

Lemma comparePreLoop_trans x y z i n :
  Forall P x -> Forall P y -> Forall P z ->
  semver.comparePreLoop x y i n <= 0 ->
  semver.comparePreLoop y z i n <= 0 ->
  semver.comparePreLoop x z i n <= 0 /\
  (semver.comparePreLoop x y i n < 0 \/ semver.comparePreLoop y z i n < 0 ->
   semver.comparePreLoop x z i n < 0).
Proof.
  intros Hx Hy Hz. revert i. induction n as [|n IH]; intros i; [simpl; lia|].
  simpl.
  pose proof (comparePrePart_trans (semver.sub x i) (semver.sub y i)
                (semver.sub z i)
                (P_sameNumeral _ _ (sub_P x i Hx) (sub_P y i Hy))) as Ht.
  destruct (comparePrePart_range (semver.sub x i) (semver.sub y i))
    as [Hxy | [Hxy | Hxy]]; rewrite Hxy in *; simpl.
  - destruct (comparePrePart_range (semver.sub y i) (semver.sub z i))
      as [Hyz | [Hyz | Hyz]]; rewrite Hyz in *; simpl.
    + rewrite Ht by done. simpl. lia.
    + apply comparePrePart_0 in Hyz. rewrite <- Hyz, Hxy. simpl. lia.
    + lia.
  - apply comparePrePart_0 in Hxy. rewrite Hxy.
    destruct (comparePrePart_range (semver.sub y i) (semver.sub z i))
      as [Hyz | [Hyz | Hyz]]; rewrite Hyz in *; simpl; try lia.
    apply IH.
  - lia.
Qed.

Lemma comparePrerelease_antisym s o :
  Forall P (strings.Split s ".") -> Forall P (strings.Split o ".") ->
  semver.comparePrerelease o s = - semver.comparePrerelease s o.
Proof.
  intros Hs Ho. unfold semver.comparePrerelease.
  rewrite (Nat.max_comm (length (strings.Split o "."))).
  by apply comparePreLoop_antisym.
Qed.

Lemma comparePrerelease_loop s o n :
  (length (strings.Split s ".") <= n)%nat ->
  (length (strings.Split o ".") <= n)%nat ->
  semver.comparePrerelease s o =
  semver.comparePreLoop (strings.Split s ".") (strings.Split o ".") 0 n.
Proof.
  intros Hs Ho. unfold semver.comparePrerelease.
  set (m := Nat.max _ _).
  replace n with (m + (n - m))%nat by lia.
  symmetry. apply comparePreLoop_more; lia.
Qed.

Lemma comparePrerelease_trans x y z :
  Forall P (strings.Split x ".") -> Forall P (strings.Split y ".") ->
  Forall P (strings.Split z ".") ->
  semver.comparePrerelease x y <= 0 ->
  semver.comparePrerelease y z <= 0 ->
  semver.comparePrerelease x z <= 0 /\
  (semver.comparePrerelease x y < 0 \/ semver.comparePrerelease y z < 0 ->
   semver.comparePrerelease x z < 0).
Proof.
  intros Hx Hy Hz.
  set (n := Nat.max (length (strings.Split x "."))
              (Nat.max (length (strings.Split y "."))
                 (length (strings.Split z ".")))).
  rewrite (comparePrerelease_loop x y n), (comparePrerelease_loop y z n),
    (comparePrerelease_loop x z n) by lia.
  by apply comparePreLoop_trans.
Qed.

End Identifiers.

Local Abbreviation segmentsLt v o :=
  (semver.major v < semver.major o \/
   (semver.major v = semver.major o /\
    (semver.minor v < semver.minor o \/
     (semver.minor v = semver.minor o /\ semver.patch v < semver.patch o)))).

Local Abbreviation segmentsEq v o :=
  (semver.major v = semver.major o /\ semver.minor v = semver.minor o /\
   semver.patch v = semver.patch o).

(** The last step of [Compare], on the prereleases. *)
Local Abbreviation comparePre ps po :=
  (if String.eqb ps "" && String.eqb po "" then 0
   else if String.eqb ps "" then 1
   else if String.eqb po "" then -1
   else semver.comparePrerelease ps po).

Lemma Compare_cases v o :
  (segmentsLt v o /\ semver.Compare v o = -1) \/
  (segmentsLt o v /\ semver.Compare v o = 1) \/
  (segmentsEq v o /\
   semver.Compare v o = comparePre (semver.pre v) (semver.pre o)).
Proof.
  unfold semver.Compare.
  destruct (compareSegment_spec (semver.major v) (semver.major o))
    as [[? ->] | [[? ->] | [? ->]]];
  destruct (compareSegment_spec (semver.minor v) (semver.minor o))
    as [[? ->] | [[? ->] | [? ->]]];
  destruct (compareSegment_spec (semver.patch v) (semver.patch o))
    as [[? ->] | [[? ->] | [? ->]]];
  simpl; first [left; split; [lia|done]
               | right; left; split; [lia|done]
               | right; right; split; [lia|done] ].
Qed.

Section Versions.

Variable l : list semver.Version.
Hypothesis l_numerals : numeralsUnique l.

Local Abbreviation identifier s := (s = "" \/ s ∈ identifiers l).

Lemma identifier_sameNumeral s o :
  identifier s -> identifier o -> sameNumeral s o.
Proof.
  intros [->|Hs] [->|Ho]; try done.
  by apply l_numerals.
Qed.

Lemma identifiers_pre v :
  v ∈ l -> Forall (fun s => identifier s) (strings.Split (semver.pre v) ".").
Proof.
  intros Hv. apply Forall_forall. intros s Hs. right.
  unfold identifiers. apply list_elem_of_bind. by exists v.
Qed.

Lemma comparePre_antisym v o :
  v ∈ l -> o ∈ l ->
  comparePre (semver.pre o) (semver.pre v) =
  - comparePre (semver.pre v) (semver.pre o).
Proof.
  intros Hv Ho.
  destruct (String.eqb (semver.pre v) ""), (String.eqb (semver.pre o) "");
    simpl; try done.
  apply (comparePrerelease_antisym (fun s => identifier s));
    [by left|apply identifier_sameNumeral|by apply identifiers_pre
    |by apply identifiers_pre].
Qed.

Lemma comparePre_trans x y z :
  x ∈ l -> y ∈ l -> z ∈ l ->
  comparePre (semver.pre x) (semver.pre y) <= 0 ->
  comparePre (semver.pre y) (semver.pre z) <= 0 ->
  comparePre (semver.pre x) (semver.pre z) <= 0 /\
  (comparePre (semver.pre x) (semver.pre y) < 0 \/
   comparePre (semver.pre y) (semver.pre z) < 0 ->
   comparePre (semver.pre x) (semver.pre z) < 0).
Proof.
  intros Hx Hy Hz.
  destruct (String.eqb (semver.pre x) ""), (String.eqb (semver.pre y) ""),
    (String.eqb (semver.pre z) ""); simpl; try lia.
  apply (comparePrerelease_trans (fun s => identifier s));
    [by left|apply identifier_sameNumeral|by apply identifiers_pre..].
Qed.

Lemma Compare_antisym v o :
  v ∈ l -> o ∈ l -> semver.Compare o v = - semver.Compare v o.
Proof.
  intros Hv Ho. pose proof (comparePre_antisym v o Hv Ho).
  destruct (Compare_cases v o) as [[? ->] | [[? ->] | [? ->]]];
    destruct (Compare_cases o v) as [[? ->] | [[? ->] | [? ->]]]; lia.
Qed.

Lemma Compare_trans x y z :
  x ∈ l -> y ∈ l -> z ∈ l ->
  semver.Compare x y <= 0 -> semver.Compare y z <= 0 ->
  semver.Compare x z <= 0 /\
  (semver.Compare x y < 0 \/ semver.Compare y z < 0 ->
   semver.Compare x z < 0).
Proof.
  intros Hx Hy Hz. pose proof (comparePre_trans x y z Hx Hy Hz).
  destruct (Compare_cases x y) as [[? ->] | [[? ->] | [? ->]]];
    destruct (Compare_cases y z) as [[? ->] | [[? ->] | [? ->]]];
    destruct (Compare_cases x z) as [[? ->] | [[? ->] | [? ->]]]; lia.
Qed.

End Versions.

(** [LessThan] is a strict weak order on versions whose prerelease
    identifiers spell every number in one way. *)
Lemma numeralsUnique_StrictWeakOn (l : list semver.Version) :
  numeralsUnique l -> order.StrictWeakOn semver.LessThan l.
Proof.
  intros Hl. unfold semver.LessThan. split_and!.
  - intros x Hx. pose proof (Compare_antisym l Hl x x Hx Hx).
    apply Z.ltb_ge. lia.
  - intros x y z Hx Hy Hz Hxy%Z.ltb_lt Hyz%Z.ltb_lt. apply Z.ltb_lt.
    apply (Compare_trans l Hl x y z); try done; lia.
  - intros x y z Hx Hy Hz Hxy%Z.ltb_ge Hyz%Z.ltb_ge. apply Z.ltb_ge.
    pose proof (Compare_antisym l Hl x y Hx Hy).
    pose proof (Compare_antisym l Hl y z Hy Hz).
    pose proof (Compare_antisym l Hl x z Hx Hz).
    pose proof (Compare_trans l Hl z y x Hz Hy Hx). lia.
Qed.


(** [Compare] follows [precedes]. *)
Lemma precedes_Compare v o :
  precedes v o -> semver.Compare v o = -1 /\ semver.Compare o v = 1.
Proof.
  unfold precedes. intros H.
  destruct (Compare_cases v o) as [[? ->] | [[? ->] | [? ->]]];
    destruct (Compare_cases o v) as [[? ->] | [[? ->] | [? ->]]];
    try lia.
  destruct (String.eqb_spec (semver.pre v) "") as [Hv|Hv];
    destruct (String.eqb_spec (semver.pre o) "") as [Ho|Ho]; simpl;
    first [done | exfalso; intuition lia].
Qed.

(** [precedes] is the lexicographic order of major, minor, patch and
    release after prerelease. *)
Lemma precedes_rank v o :
  precedes v o <->
  semver.major v < semver.major o \/
  (semver.major v = semver.major o /\
   (semver.minor v < semver.minor o \/
    (semver.minor v = semver.minor o /\
     (semver.patch v < semver.patch o \/
      (semver.patch v = semver.patch o /\
       (if String.eqb (semver.pre v) "" then 1 else 0) <
       (if String.eqb (semver.pre o) "" then 1 else 0)))))).
Proof.
  unfold precedes.
  destruct (String.eqb_spec (semver.pre v) "") as [Hv|Hv];
    destruct (String.eqb_spec (semver.pre o) "") as [Ho|Ho];
    split; intros H; intuition (first [lia | done]).
Qed.

Lemma precedes_irrefl v : ~ precedes v v.
Proof. rewrite precedes_rank. lia. Qed.

(** [LessThan] respects the order of the versions, whatever it does with
    two prereleases of one version. *)
Lemma LessThan_Respects (l : list semver.Version) :
  order.Respects semver.LessThan notAfter l.
Proof.
  unfold notAfter, semver.LessThan. split_and!.
  - intros x y z _ _ _. rewrite !precedes_rank.
    destruct (String.eqb (semver.pre x) ""), (String.eqb (semver.pre y) ""),
      (String.eqb (semver.pre z) ""); lia.
  - intros x y _ _ Hlt Hyx. apply precedes_Compare in Hyx as [_ Hc].
    rewrite Hc in Hlt. done.
  - intros x y _ _ Hlt Hxy. apply precedes_Compare in Hxy as [Hc _].
    rewrite Hc in Hlt. done.
Qed.

(** On a list of releases [LessThan] is a strict weak order. *)
Lemma releases_StrictWeakOn (l : list semver.Version) :
  Forall (fun v => semver.pre v = "") l ->
  order.StrictWeakOn semver.LessThan l.
Proof.
  rewrite Forall_forall. intros Hrel. apply numeralsUnique_StrictWeakOn.
  assert (Hid : forall s, s ∈ identifiers l -> s = "").
  { intros s (v & Hs & Hv)%list_elem_of_bind. rewrite (Hrel v Hv) in Hs.
    by apply list_elem_of_singleton in Hs. }
  intros s o Hs%Hid Ho%Hid _ _ _. congruence.
Qed.

(** What [Compare] takes for equal: the same numbers and the same
    prerelease identifiers, a missing identifier read as the empty one. *)
Local Abbreviation sameParts s o :=
  (forall k, semver.sub (strings.Split s ".") k =
             semver.sub (strings.Split o ".") k).

Local Abbreviation alike v o :=
  (semver.major v = semver.major o /\ semver.minor v = semver.minor o /\
   semver.patch v = semver.patch o /\
   ((semver.pre v = "" /\ semver.pre o = "") \/
    (semver.pre v <> "" /\ semver.pre o <> "" /\
     sameParts (semver.pre v) (semver.pre o)))).

Lemma comparePrePart_1 s o :
  semver.comparePrePart s o = 1 -> semver.comparePrePart o s = -1.
Proof.
  unfold semver.comparePrePart. rewrite (String.eqb_sym o s).
  destruct (String.eqb_spec s o) as [->|Hne]; [done|].
  destruct (String.eqb_spec s ""), (String.eqb_spec o ""); simpl;
    try done; try congruence.
  destruct (semver.isErr (strconv.ParseUint o)), (semver.isErr (strconv.ParseUint s));
    simpl; try done.
  - destruct (String.compare s o) eqn:Hso; try done.
    intros _. by rewrite String.compare_antisym, Hso.
  - destruct (Z.ltb_spec (semver.valueOr0 (strconv.ParseUint o))
                (semver.valueOr0 (strconv.ParseUint s))); [|done].
    intros _. destruct (Z.ltb_spec (semver.valueOr0 (strconv.ParseUint s))
                          (semver.valueOr0 (strconv.ParseUint o))); [lia|done].
Qed.

Lemma comparePreLoop_0 sp op i n :
  semver.comparePreLoop sp op i n = 0 <->
  forall k, (i <= k < i + n)%nat -> semver.sub sp k = semver.sub op k.
Proof.
  revert i. induction n as [|n IH]; intros i; simpl.
  - split; [intros _ k; lia|done].
  - destruct (Z.eqb_spec (semver.comparePrePart (semver.sub sp i)
                            (semver.sub op i)) 0) as [H0|H0].
    + apply comparePrePart_0 in H0. rewrite IH. split.
      * intros H k Hk. destruct (decide (k = i)) as [->|]; [done|].
        apply H. lia.
      * intros H k Hk. apply H. lia.
    + split; [done|]. intros H. destruct H0.
      rewrite (H i) by lia. apply comparePrePart_refl.
Qed.

Lemma comparePreLoop_both sp op i n :
  0 <= semver.comparePreLoop sp op i n ->
  0 <= semver.comparePreLoop op sp i n ->
  semver.comparePreLoop sp op i n = 0.
Proof.
  revert i. induction n as [|n IH]; intros i; simpl; [done|].
  destruct (Z.eqb_spec (semver.comparePrePart (semver.sub sp i)
                          (semver.sub op i)) 0) as [H0|H0].
  - apply comparePrePart_0 in H0. rewrite H0, comparePrePart_refl. simpl.
    apply IH.
  - intros Hd.
    destruct (comparePrePart_range (semver.sub sp i) (semver.sub op i))
      as [H|[H|H]]; [lia|done|].
    rewrite (comparePrePart_1 _ _ H). simpl. lia.
Qed.

Lemma comparePrerelease_0 s o :
  semver.comparePrerelease s o = 0 <-> sameParts s o.
Proof.
  unfold semver.comparePrerelease. rewrite comparePreLoop_0. split.
  - intros H k.
    destruct (decide (k < Nat.max (length (strings.Split s "."))
                                  (length (strings.Split o ".")))%nat).
    + apply H. lia.
    + rewrite !sub_beyond by lia. done.
  - intros H k _. apply H.
Qed.

Lemma comparePrerelease_both s o :
  0 <= semver.comparePrerelease s o -> 0 <= semver.comparePrerelease o s ->
  semver.comparePrerelease s o = 0.
Proof.
  unfold semver.comparePrerelease.
  rewrite (Nat.max_comm (length (strings.Split o "."))).
  apply comparePreLoop_both.
Qed.

(** [Compare] returns 0 on the versions that are alike, and on no
    others. *)
Lemma Compare_0 v o : semver.Compare v o = 0 <-> alike v o.
Proof.
  pose proof (comparePrerelease_0 (semver.pre v) (semver.pre o)) as Hp.
  destruct (Compare_cases v o) as [[? ->] | [[? ->] | [? ->]]];
    [split; [done|lia] | split; [done|lia] |].
  destruct (String.eqb_spec (semver.pre v) ""),
    (String.eqb_spec (semver.pre o) ""); simpl.
  - split; [|done]. intros _. split_and!; [lia..|by left].
  - split; [done|]. intros (_ & _ & _ & [[_ ?]|(? & _)]); done.
  - split; [done|]. intros (_ & _ & _ & [[? _]|(_ & ? & _)]); done.
  - rewrite Hp. split.
    + intros Hs. split_and!; [lia..|]. right. done.
    + intros (_ & _ & _ & [[? _]|(_ & _ & Hs)]); done.
Qed.

(** Two versions neither of which is less than the other compare equal. *)
Lemma equivalent_Compare v o :
  stable.equivalent semver.LessThan v o = true <-> semver.Compare v o = 0.
Proof.
  unfold stable.equivalent, semver.LessThan.
  rewrite andb_true_iff, !negb_true_iff, !Z.ltb_ge. split.
  - intros [Hvo Hov].
    pose proof (comparePrerelease_both (semver.pre v) (semver.pre o)) as Hp.
    destruct (Compare_cases v o) as [[? Evo] | [[? Evo] | [? Evo]]];
      destruct (Compare_cases o v) as [[? Eov] | [[? Eov] | [? Eov]]];
      try lia.
    rewrite Evo, Eov in *.
    destruct (String.eqb (semver.pre v) ""), (String.eqb (semver.pre o) "");
      simpl in *; try lia.
  - intros H0. split; [lia|].
    assert (H1 : semver.Compare o v = 0); [|lia].
    apply Compare_0. apply Compare_0 in H0 as (? & ? & ? & Hpre).
    split_and!; [done..|]. destruct Hpre as [[? ?]|(? & ? & Hs)]; [by left|].
    right. split_and!; [done..|]. intros k. by rewrite Hs.
Qed.

(** The versions that compare equal to one version compare equal to each
    other. *)
Lemma LessThan_coherent v (l : list semver.Version) :
  stable.coherent semver.LessThan v l.
Proof.
  intros x y _ _ Hx%equivalent_Compare%Compare_0 Hy%equivalent_Compare%Compare_0.
  assert (H0 : semver.Compare y x = 0).
  { apply Compare_0.
    destruct Hx as (? & ? & ? & Hpx), Hy as (? & ? & ? & Hpy).
    split_and!; [congruence..|].
    destruct Hpx as [[? ?]|(? & ? & Hsx)], Hpy as [[? ?]|(? & ? & Hsy)];
      [by left|done|done|].
    right. split_and!; [done..|]. intros k. by rewrite <- Hsy, Hsx. }
  unfold semver.LessThan. apply Z.ltb_ge. lia.
Qed.

Lemma elem_of_equalTo v l x :
  x ∈ equalTo v l <-> x ∈ l /\ semver.Compare v x = 0.
Proof.
  unfold equalTo, stable.class.
  rewrite list_elem_of_In, List.filter_In, <- list_elem_of_In.
  by rewrite equivalent_Compare.
Qed.

(** The slice the resolver scans is in the order of the versions. *)
Lemma sortCollection_ordered semvers i j x y :
  (i < j)%nat ->
  sortCollection semvers !! i = Some x ->
  sortCollection semvers !! j = Some y ->
  ~ precedes y x.
Proof.
  intros Hij Hx Hy.
  apply (Sort_ordered semver.LessThan notAfter semvers i j x y);
    [apply LessThan_Respects|done..].
Qed.

(** No version of the list comes after the last element of the sorted
    slice. *)
Lemma last_sortCollection_notPreceded semvers v :
  last (sortCollection semvers) = Some v ->
  forall w, w ∈ semvers -> ~ precedes v w.
Proof.
  intros Hlast w Hw.
  rewrite <- elem_of_sortCollection in Hw.
  apply list_elem_of_lookup in Hw as [k Hk].
  rewrite last_lookup in Hlast.
  pose proof (lookup_lt_Some _ _ _ Hk) as Hlt.
  destruct (decide (k = Nat.pred (length (sortCollection semvers))))
    as [->|Hne].
  - rewrite Hlast in Hk. simplify_eq. apply precedes_irrefl.
  - apply (sortCollection_ordered semvers k
             (Nat.pred (length (sortCollection semvers)))); [lia|done|done].
Qed.

Lemma sortCollection_Ascending semvers :
  order.StrictWeakOn semver.LessThan semvers ->
  order.Ascending semver.LessThan (sortCollection semvers).
Proof. apply Sort_Ascending. Qed.

(** In the sorted slice nothing before the last element is greater than
    it. *)
Lemma last_sortCollection_greatest semvers v :
  order.StrictWeakOn semver.LessThan semvers ->
  last (sortCollection semvers) = Some v ->
  forall w, w ∈ semvers -> semver.LessThan v w = false.
Proof.
  intros Hord Hlast w Hw.
  rewrite <- elem_of_sortCollection in Hw.
  apply list_elem_of_lookup in Hw as [k Hk].
  rewrite last_lookup in Hlast.
  pose proof (lookup_lt_Some _ _ _ Hk) as Hlt.
  destruct (decide (k = Nat.pred (length (sortCollection semvers))))
    as [->|Hne].
  - rewrite Hlast in Hk. simplify_eq. apply Hord.
    rewrite <- elem_of_sortCollection. by eapply list_elem_of_lookup_2.
  - apply (sortCollection_Ascending semvers Hord k
             (Nat.pred (length (sortCollection semvers)))); [lia|done|done].
Qed.

End VersionOrder.

Section ResolverClaims.

Import helm.

(** C1 (the code departs from the claim).  With an empty raw list and an
    empty constraint the resolver evaluates [semvers[len(semvers)-1]] on an
    empty slice: the call panics with an index out of range at [-1]; it
    returns neither a "no versions available" error nor the empty string
    its doc comment promises. *)
Theorem getLatestVersion_empty_list_panics :
  getLatestVersion [] "" = Panic (indexOutOfRange (-1)).
Proof. reflexivity. Qed.

(** C2.  If some entry of the raw list fails to parse, then whatever the
    constraint the resolver returns the empty string together with the
    parse error of the first such entry, wrapped as
    [error parsing version "<entry>"]; the entries before it all parse. In
    particular ["1.0.0"; "not-a-version"] yields the error naming
    "not-a-version", never "1.0.0". *)
Theorem getLatestVersion_parse_failure :
  (forall versions constraintStr,
     Exists (fun raw => semver.isErr (semver.NewVersion raw) = true) versions ->
     exists good bad rest err,
       versions = good ++ bad :: rest /\
       Forall (fun raw => exists v, semver.NewVersion raw = Ok v) good /\
       semver.NewVersion bad = Err err /\
       getLatestVersion versions constraintStr =
         Return ("", Some (withMessage err
                             [lit "error parsing version "; quoted bad]))) /\
  (forall constraintStr,
     getLatestVersion ["1.0.0"; "not-a-version"] constraintStr =
       Return ("", Some (withMessage semver.ErrInvalidSemVer
                           [lit "error parsing version ";
                            quoted "not-a-version"]))).
Proof.
  split.
  - intros versions constraintStr Hbad.
    destruct (parseVersions versions) as [semvers|[bad err]] eqn:Hparse.
    + apply parseVersions_inl in Hparse. exfalso.
      apply Exists_exists in Hbad as (raw & Hin & Herr).
      apply list_elem_of_lookup in Hin as [i Hi].
      destruct (Forall2_lookup_l _ _ _ _ _ Hparse Hi) as (v & _ & Hv).
      by rewrite Hv in Herr.
    + pose proof Hparse as (good & rest & -> & Hgood & Herr)%parseVersions_inr.
      exists good, bad, rest, err. split_and!; [done..|].
      unfold getLatestVersion. by rewrite Hparse.
  - intros constraintStr. reflexivity.
Qed.

Lemma getLatestVersion_parse_failure_witness :
  getLatestVersion ["2.1.0"; "latest"; "oops"] ">= 2.0.0" =
    Return ("", Some (withMessage semver.ErrInvalidSemVer
                        [lit "error parsing version "; quoted "latest"])).
Proof.
  destruct (proj1 getLatestVersion_parse_failure
              ["2.1.0"; "latest"; "oops"] ">= 2.0.0")
    as (good & bad & rest & err & Hsplit & Hgood & Hbad & Hres).
  - apply Exists_cons_tl, Exists_cons_hd. reflexivity.
  - rewrite Hres. destruct good as [|g0 [|g1 good]].
    + injection Hsplit as <- _. vm_compute in Hbad. discriminate Hbad.
    + injection Hsplit as <- <- _. vm_compute in Hbad.
      injection Hbad as <-. reflexivity.
    + exfalso. injection Hsplit as <- <- _.
      apply Forall_cons in Hgood as [_ [[v Hv] _]%Forall_cons].
      vm_compute in Hv. discriminate Hv.
Defined.

(** C5.  If every entry of a non-empty raw list parses, then with an empty
    constraint the resolver returns the rendering of a version of the list
    that no version of the list comes after, in the order that reads major,
    then minor, then patch as numbers and puts a prerelease before its
    release; build metadata plays no part in that order, and the comparison
    of the library follows it.  Where that comparison is a strict weak order
    on the parsed versions, as it is unless two prerelease identifiers spell
    one number in two ways, no version of the list is greater under it
    either.  For ["1.0.0"; "1.2.0"; "2.0.0-beta"] the result is
    "2.0.0-beta". *)
Theorem getLatestVersion_unconstrained_greatest :
  (forall versions semvers,
     versions <> [] ->
     allParse versions semvers ->
     exists v,
       v ∈ semvers /\
       getLatestVersion versions "" = Return (semver.String v, None) /\
       (forall w, w ∈ semvers -> ~ precedes v w) /\
       (order.StrictWeakOn semver.LessThan semvers ->
        forall w, w ∈ semvers -> semver.LessThan v w = false)) /\
  (forall v o,
     precedes v o -> semver.Compare v o = -1 /\ semver.Compare o v = 1) /\
  (forall m1 m2 v o,
     (precedes (withMetadata m1 v) (withMetadata m2 o) <-> precedes v o) /\
     semver.Compare (withMetadata m1 v) (withMetadata m2 o) =
     semver.Compare v o) /\
  (forall semvers,
     numeralsUnique semvers -> order.StrictWeakOn semver.LessThan semvers) /\
  getLatestVersion ["1.0.0"; "1.2.0"; "2.0.0-beta"] "" =
    Return ("2.0.0-beta", None).
Proof.
  split_and!; [|apply precedes_Compare| |apply numeralsUnique_StrictWeakOn
              |reflexivity].
  - intros versions semvers Hne Hall.
    rewrite (getLatestVersion_unconstrained _ _ Hall).
    destruct (last (sortCollection semvers)) as [v|] eqn:Hlast.
    + exists v. split_and!; [|done| |].
      * rewrite <- elem_of_sortCollection. rewrite last_lookup in Hlast.
        by eapply list_elem_of_lookup_2.
      * by apply last_sortCollection_notPreceded.
      * intros Hord. by eapply last_sortCollection_greatest.
    + exfalso. apply last_None in Hlast.
      assert (Hnil : semvers = []).
      { apply Permutation_nil_r. rewrite <- Hlast.
        symmetry. apply sortCollection_Permutation. }
      subst. apply Forall2_nil_inv_r in Hall. done.
  - intros m1 m2 v o. split; [apply precedes_metadata|apply Compare_metadata].
Qed.

Lemma getLatestVersion_unconstrained_greatest_witness :
  exists v,
    v ∈ [semver.mkVersion 0 9 1 "" "" "0.9.1";
         semver.mkVersion 1 0 0 "rc.1" "" "v1.0.0-rc.1";
         semver.mkVersion 1 0 0 "" "" "1.0"] /\
    getLatestVersion ["0.9.1"; "v1.0.0-rc.1"; "1.0"] "" =
      Return (semver.String v, None) /\
    (forall w,
       w ∈ [semver.mkVersion 0 9 1 "" "" "0.9.1";
            semver.mkVersion 1 0 0 "rc.1" "" "v1.0.0-rc.1";
            semver.mkVersion 1 0 0 "" "" "1.0"] ->
       ~ precedes v w) /\
    (order.StrictWeakOn semver.LessThan
       [semver.mkVersion 0 9 1 "" "" "0.9.1";
        semver.mkVersion 1 0 0 "rc.1" "" "v1.0.0-rc.1";
        semver.mkVersion 1 0 0 "" "" "1.0"] ->
     forall w,
       w ∈ [semver.mkVersion 0 9 1 "" "" "0.9.1";
            semver.mkVersion 1 0 0 "rc.1" "" "v1.0.0-rc.1";
            semver.mkVersion 1 0 0 "" "" "1.0"] ->
       semver.LessThan v w = false).
Proof.
  apply (proj1 getLatestVersion_unconstrained_greatest
           ["0.9.1"; "v1.0.0-rc.1"; "1.0"]).
  - discriminate.
  - repeat constructor.
Defined.

(** C4.  If every entry parses and the constraint is non-empty and
    parses, then either no version satisfies the constraint and the result
    is empty, or the resolver returns the rendering of a version of the list
    that satisfies the constraint and that no satisfying version of the list
    comes after, in the order of major, minor, patch and prerelease before
    release.  Where the comparison of the library is a strict weak order on
    the parsed versions no satisfying version is greater under it either.
    For ["1.0.0"; "1.2.0"; "2.0.0-beta"] and "^1.0.0" the result is
    "1.2.0". *)
Theorem getLatestVersion_constrained_greatest :
  (forall versions constraintStr semvers constraint,
     allParse versions semvers ->
     constraintStr <> "" ->
     semver.NewConstraint constraintStr = Ok constraint ->
     ((forall w, w ∈ semvers -> semver.Check constraint w = false) /\
      getLatestVersion versions constraintStr = Return ("", None)) \/
     (exists v,
        v ∈ semvers /\ semver.Check constraint v = true /\
        getLatestVersion versions constraintStr =
          Return (semver.String v, None) /\
        (forall w, w ∈ semvers -> semver.Check constraint w = true ->
           ~ precedes v w) /\
        (order.StrictWeakOn semver.LessThan semvers ->
         forall w, w ∈ semvers -> semver.Check constraint w = true ->
           semver.LessThan v w = false))) /\
  getLatestVersion ["1.0.0"; "1.2.0"; "2.0.0-beta"] "^1.0.0" =
    Return ("1.2.0", None).
Proof.
  split; [|reflexivity].
  intros versions constraintStr semvers constraint Hall Hne Hc.
  rewrite (getLatestVersion_constrained _ _ _ _ Hall Hne Hc).
  destruct (lastSatisfying constraint (sortCollection semvers)
              (length (sortCollection semvers))) as [v|] eqn:Hscan.
  - right. exists v.
    apply lastSatisfying_Some in Hscan as (i & Hi & Hv & Hcheck & Hlater).
    (* a satisfying version is at [i] or before it *)
    assert (Hpos : forall w, w ∈ semvers -> semver.Check constraint w = true ->
              w = v \/ exists k, (k < i)%nat /\
                                 sortCollection semvers !! k = Some w).
    { intros w Hw Hcw. rewrite <- elem_of_sortCollection in Hw.
      apply list_elem_of_lookup in Hw as [k Hk].
      destruct (decide (i < k)%nat) as [Hik|Hik].
      { pose proof (lookup_lt_Some _ _ _ Hk).
        rewrite (Hlater k w) in Hcw; [done|lia|done]. }
      destruct (decide (k = i)) as [->|Hne']; [left; congruence|].
      right. exists k. split; [lia|done]. }
    split_and!; [|done|done| |].
    + rewrite <- elem_of_sortCollection. by eapply list_elem_of_lookup_2.
    + intros w Hw Hcw. destruct (Hpos w Hw Hcw) as [->|(k & Hk & Hkw)].
      * apply precedes_irrefl.
      * by apply (sortCollection_ordered semvers k i).
    + intros Hord w Hw Hcw. destruct (Hpos w Hw Hcw) as [->|(k & Hk & Hkw)].
      * by apply Hord.
      * by apply (sortCollection_Ascending semvers Hord k i).
  - left. split; [|done]. intros w Hw.
    rewrite <- elem_of_sortCollection in Hw.
    apply list_elem_of_lookup in Hw as [k Hk].
    eapply lastSatisfying_None; [|exact Hscan| |exact Hk]; [lia|].
    by eapply lookup_lt_Some.
Qed.

Lemma getLatestVersion_constrained_greatest_witness :
  exists v,
    v ∈ [semver.mkVersion 3 1 4 "" "" "3.1.4";
         semver.mkVersion 2 9 0 "" "" "2.9.0";
         semver.mkVersion 3 0 0 "" "" "3.0.0";
         semver.mkVersion 4 0 0 "rc.1" "" "4.0.0-rc.1"] /\
    getLatestVersion ["3.1.4"; "2.9.0"; "3.0.0"; "4.0.0-rc.1"] "~3" =
      Return (semver.String v, None) /\
    semver.String v = "3.1.4".
Proof.
  destruct (semver.NewConstraint "~3") as [c|] eqn:Hc; [|discriminate Hc].
  destruct (proj1 getLatestVersion_constrained_greatest
              ["3.1.4"; "2.9.0"; "3.0.0"; "4.0.0-rc.1"] "~3"
              [semver.mkVersion 3 1 4 "" "" "3.1.4";
               semver.mkVersion 2 9 0 "" "" "2.9.0";
               semver.mkVersion 3 0 0 "" "" "3.0.0";
               semver.mkVersion 4 0 0 "rc.1" "" "4.0.0-rc.1"] c)
    as [[_ Hres]|(v & Hv & _ & Hres & _)].
  - repeat constructor.
  - discriminate.
  - exact Hc.
  - discriminate Hres.
  - exists v. split_and!; [done|done|].
    assert (H : Return (semver.String v, @None error) =
                Return ("3.1.4", None)) by (rewrite <- Hres; reflexivity).
    by injection H.
Defined.

(** C7 fails on the code: [sort.Sort] is not a stable sort.  Of the
    thirteen tags the two that compare equal, "1.0.0+a" and "1.0.0+b",
    leave the sort in the opposite order, and the resolver's answer to the
    pin "1.0.0" shows it. *)
Lemma sortCollection_not_stable :
  exists semvers v,
    parseVersions thirteenTags = inl semvers /\
    v ∈ semvers /\
    order.StrictWeakOn semver.LessThan semvers /\
    semver.String <$> equalTo v semvers = ["1.0.0+a"; "1.0.0+b"] /\
    semver.String <$> equalTo v (sortCollection semvers) =
      ["1.0.0+b"; "1.0.0+a"] /\
    equalTo v (sortCollection semvers) <> equalTo v semvers /\
    getLatestVersion thirteenTags "1.0.0" = Return ("1.0.0+a", None).
Proof.
  destruct (parseVersions thirteenTags) as [semvers|] eqn:Hparse;
    [|discriminate Hparse].
  vm_compute in Hparse. injection Hparse as <-.
  eexists _, (semver.mkVersion 1 0 0 "" "a" "1.0.0+a").
  split_and!; [reflexivity| | |reflexivity|reflexivity| |reflexivity].
  - apply elem_of_cons. by left.
  - apply strictWeakOnb_correct. vm_compute. reflexivity.
  - intros H. apply (f_equal (fmap semver.String)) in H.
    vm_compute in H. discriminate H.
Qed.

(** C7, as the code has it.  The slice the resolver scans is a permutation
    of the parsed versions in which no version comes before one that
    precedes it.  The versions that compare equal to a version are those on
    which [Compare] with it returns 0; in a list of at most twelve entries,
    for which [sort.Sort] is an insertion sort, they keep the order they
    have in the raw list, whatever the list holds.  Where the comparison of
    the library is a strict weak order on the parsed versions the slice is
    ascending under it. *)
Theorem sortCollection_stable_up_to_twelve versions semvers :
  allParse versions semvers ->
  sortCollection semvers ≡ₚ semvers /\
  (forall i j x y, (i < j)%nat ->
     sortCollection semvers !! i = Some x ->
     sortCollection semvers !! j = Some y -> ~ precedes y x) /\
  (forall v x,
     x ∈ equalTo v semvers <-> x ∈ semvers /\ semver.Compare v x = 0) /\
  ((length versions <= 12)%nat ->
   forall v, equalTo v (sortCollection semvers) = equalTo v semvers) /\
  (order.StrictWeakOn semver.LessThan semvers ->
   order.Ascending semver.LessThan (sortCollection semvers)).
Proof.
  intros Hall. split_and!.
  - apply sortCollection_Permutation.
  - apply sortCollection_ordered.
  - intros v x. apply elem_of_equalTo.
  - intros Hlen v. apply Sort_small_stable; [|apply LessThan_coherent].
    by rewrite <- (Forall2_length _ _ _ Hall).
  - apply sortCollection_Ascending.
Qed.

Lemma sortCollection_stable_up_to_twelve_witness :
  stable.strictWeakOnb semver.LessThan
    [semver.mkVersion 2 0 0 "" "a" "2.0.0+a";
     semver.mkVersion 1 0 0 "1" "" "1.0.0-1";
     semver.mkVersion 2 0 0 "" "b" "2.0.0+b";
     semver.mkVersion 1 0 0 "01" "" "1.0.0-01"] = false /\
  semver.String <$>
    equalTo (semver.mkVersion 2 0 0 "" "b" "2.0.0+b")
      (sortCollection
         [semver.mkVersion 2 0 0 "" "a" "2.0.0+a";
          semver.mkVersion 1 0 0 "1" "" "1.0.0-1";
          semver.mkVersion 2 0 0 "" "b" "2.0.0+b";
          semver.mkVersion 1 0 0 "01" "" "1.0.0-01"]) =
  ["2.0.0+a"; "2.0.0+b"].
Proof.
  split; [reflexivity|].
  rewrite (proj1 (proj2 (proj2 (proj2 (sortCollection_stable_up_to_twelve
             ["2.0.0+a"; "1.0.0-1"; "2.0.0+b"; "1.0.0-01"]
             [semver.mkVersion 2 0 0 "" "a" "2.0.0+a";
              semver.mkVersion 1 0 0 "1" "" "1.0.0-1";
              semver.mkVersion 2 0 0 "" "b" "2.0.0+b";
              semver.mkVersion 1 0 0 "01" "" "1.0.0-01"]
             ltac:(repeat constructor)))))).
  - reflexivity.
  - simpl. lia.
Defined.

(** C6.  If every entry parses, the constraint is non-empty and parses, and
    no parsed version satisfies it, the resolver returns the empty string
    and a nil error; so it does for ["1.0.0"; "1.2.0"; "2.0.0-beta"] and
    "^3.0.0". *)
Theorem getLatestVersion_no_match :
  (forall versions constraintStr semvers constraint,
     allParse versions semvers ->
     constraintStr <> "" ->
     semver.NewConstraint constraintStr = Ok constraint ->
     (forall v, v ∈ semvers -> semver.Check constraint v = false) ->
     getLatestVersion versions constraintStr = Return ("", None)) /\
  getLatestVersion ["1.0.0"; "1.2.0"; "2.0.0-beta"] "^3.0.0" =
    Return ("", None).
Proof.
  split; [|reflexivity].
  intros versions constraintStr semvers constraint Hall Hne Hc Hnone.
  rewrite (getLatestVersion_constrained _ _ _ _ Hall Hne Hc).
  rewrite lastSatisfying_all_false; [done|].
  intros v Hv. rewrite elem_of_sortCollection in Hv. by apply Hnone.
Qed.

Lemma getLatestVersion_no_match_witness :
  getLatestVersion ["0.9.0"; "1.4.2"] "< 0.5.0" = Return ("", None).
Proof.
  destruct (semver.NewVersion "0.9.0") as [v0|] eqn:H0; [|discriminate H0].
  destruct (semver.NewVersion "1.4.2") as [v1|] eqn:H1; [|discriminate H1].
  destruct (semver.NewConstraint "< 0.5.0") as [c|] eqn:Hc; [|discriminate Hc].
  apply (proj1 getLatestVersion_no_match _ _ [v0; v1] c).
  - repeat constructor; done.
  - discriminate.
  - done.
  - vm_compute in H0, H1, Hc. simplify_eq.
    intros v [->|[->|[]%elem_of_nil]%elem_of_cons]%elem_of_cons; reflexivity.
Defined.

(** C10.  A winning result is the [String()] rendering of the parsed form
    of some raw entry: major, minor and patch in decimal joined by dots,
    then a hyphen and the prerelease, then a plus and the build metadata,
    each when present.  The raw text itself is not returned: the entry
    "v1.2.3" yields "1.2.3", and "1.2" yields "1.2.0". *)
Theorem getLatestVersion_returns_rendering :
  (forall versions constraintStr result,
     getLatestVersion versions constraintStr = Return (result, None) ->
     result <> "" ->
     exists raw v,
       raw ∈ versions /\ semver.NewVersion raw = Ok v /\
       result = semver.String v /\
       result =
         strconv.Itoa (semver.major v) +:+ "." +:+
         strconv.Itoa (semver.minor v) +:+ "." +:+
         strconv.Itoa (semver.patch v) +:+
         (if String.eqb (semver.pre v) "" then "" else "-" +:+ semver.pre v) +:+
         (if String.eqb (semver.metadata v) "" then ""
          else "+" +:+ semver.metadata v)) /\
  getLatestVersion ["v1.2.3"] "" = Return ("1.2.3", None) /\
  ("1.2.3" ∉ ["v1.2.3"]) /\
  getLatestVersion ["1.2"; "v1"] "" = Return ("1.2.0", None).
Proof.
  split; [|split_and!; [reflexivity| |reflexivity]].
  - intros versions constraintStr result Hres Hne.
    unfold getLatestVersion in Hres.
    destruct (parseVersions versions) as [semvers|[bad err]] eqn:Hparse;
      [|done].
    apply parseVersions_inl in Hparse.
    assert (Hfrom : forall v, v ∈ sortCollection semvers ->
              result = semver.String v ->
              exists raw v, raw ∈ versions /\ semver.NewVersion raw = Ok v /\
                result = semver.String v /\ result = semver.String v).
    { intros v Hv ->. rewrite elem_of_sortCollection in Hv.
      destruct (elem_of_allParse _ _ _ Hparse Hv) as (raw & Hraw & Hp).
      by exists raw, v. }
    simpl in Hres. destruct (String.eqb constraintStr "").
    + unfold at_index in Hres. destruct (_ && _); [|done].
      destruct (_ !! _) as [v|] eqn:Hv; [|done]. simplify_eq.
      apply (Hfrom v); try done. by eapply list_elem_of_lookup_2.
    + destruct (semver.NewConstraint constraintStr) as [c|]; [|done].
      destruct (lastSatisfying _ _ _) as [v|] eqn:Hv; [|by simplify_eq].
      simplify_eq.
      apply lastSatisfying_Some in Hv as (i & _ & Hi & _).
      apply (Hfrom v); try done. by eapply list_elem_of_lookup_2.
  - intros [?|[]%elem_of_nil]%elem_of_cons. discriminate.
Qed.

Lemma getLatestVersion_returns_rendering_witness :
  exists raw v,
    raw ∈ ["v3.1"; "3.0.9"] /\ semver.NewVersion raw = Ok v /\
    "3.1.0" = semver.String v /\
    "3.1.0" =
      strconv.Itoa (semver.major v) +:+ "." +:+
      strconv.Itoa (semver.minor v) +:+ "." +:+
      strconv.Itoa (semver.patch v) +:+
      (if String.eqb (semver.pre v) "" then "" else "-" +:+ semver.pre v) +:+
      (if String.eqb (semver.metadata v) "" then ""
       else "+" +:+ semver.metadata v).
Proof.
  apply (proj1 getLatestVersion_returns_rendering ["v3.1"; "3.0.9"] "~3").
  - reflexivity.
  - discriminate.
Defined.

End ResolverClaims.

(** ** Fetching and orchestration *)

Lemma append_cons c (s1 s2 : string) :
  String c s1 +:+ s2 = String c (s1 +:+ s2).
Proof. reflexivity. Qed.

Lemma append_nil_l (s : string) : "" +:+ s = s.
Proof. reflexivity. Qed.

Lemma append_assoc (s1 s2 s3 : string) :
  (s1 +:+ s2) +:+ s3 = s1 +:+ s2 +:+ s3.
Proof.
  induction s1 as [|c s1 IH]; [done|]. by rewrite !append_cons, IH.
Qed.

Lemma append_nil_r (s : string) : s +:+ "" = s.
Proof. induction s as [|c s IH]; [done|]. by rewrite append_cons, IH. Qed.

Lemma append_length (s1 s2 : string) :
  String.length (s1 +:+ s2) = (String.length s1 + String.length s2)%nat.
Proof.
  induction s1 as [|c s1 IH]; [done|]. rewrite append_cons. simpl. by rewrite IH.
Qed.

Lemma Contains_refl s : Contains s s.
Proof. exists "", "". by rewrite append_nil_l, append_nil_r. Qed.

Lemma Contains_app_l s1 s2 sub : Contains s1 sub -> Contains (s1 +:+ s2) sub.
Proof.
  intros (b & a & ->). exists b, (a +:+ s2). by rewrite !append_assoc.
Qed.

Lemma Contains_app_r s1 s2 sub : Contains s2 sub -> Contains (s1 +:+ s2) sub.
Proof.
  intros (b & a & ->). exists (s1 +:+ b), a. by rewrite !append_assoc.
Qed.

Lemma render_app quote m1 m2 :
  render quote (m1 ++ m2) = render quote m1 +:+ render quote m2.
Proof.
  induction m1 as [|[s|s] m1 IH]; simpl; [done|..];
    by rewrite IH, append_assoc.
Qed.

(** A [%q] operand of a message shows in its text as the verb renders it. *)
Lemma render_quoted quote m s :
  quoted s ∈ m -> Contains (render quote m) (quote s).
Proof.
  induction m as [|f m IH]; intros Hin; [by apply elem_of_nil in Hin|].
  apply elem_of_cons in Hin as [<-|Hin]; simpl.
  - apply Contains_app_l, Contains_refl.
  - destruct f; apply Contains_app_r; auto.
Qed.

Lemma take_append (s1 s2 : string) :
  strings.take (String.length s1) (s1 +:+ s2) = s1.
Proof.
  induction s1 as [|c s1 IH]; [by destruct s2|].
  rewrite append_cons. simpl. by rewrite IH.
Qed.

Lemma drop_append (s1 s2 : string) :
  strings.drop (String.length s1) (s1 +:+ s2) = s2.
Proof. induction s1 as [|c s1 IH]; [done|]. by rewrite append_cons. Qed.

(** One trailing slash is trimmed off the repository URL. *)
Lemma indexURLOf_slash base :
  indexURLOf (base +:+ "/") = base +:+ "/index.yaml".
Proof.
  unfold indexURLOf, strings.TrimSuffix, strings.HasSuffix.
  rewrite append_length. simpl String.length.
  replace (String.length base + 1 - 1)%nat with (String.length base) by lia.
  rewrite drop_append, take_append.
  destruct (Nat.leb_spec 1 (String.length base + 1)); [done|lia].
Qed.

Lemma indexURLOf_no_slash repoURL :
  strings.HasSuffix repoURL "/" = false ->
  indexURLOf repoURL = repoURL +:+ "/index.yaml".
Proof. unfold indexURLOf, strings.TrimSuffix. by intros ->. Qed.

Lemma copyVersions_spec (done : list string) (entries : list helm.entry) :
  helm.copyVersions (done ++ replicate (length entries) "") (length done)
    entries = done ++ (helm.Version <$> entries).
Proof.
  revert done. induction entries as [|e entries IH]; intros done; simpl.
  - done.
  - rewrite insert_app_r_alt, Nat.sub_diag by done. simpl.
    rewrite (cons_middle (helm.Version e) done), app_assoc.
    replace (S (length done)) with (length (done ++ [helm.Version e]))
      by (rewrite length_app; simpl; lia).
    rewrite IH. by rewrite <- app_assoc.
Qed.

Section UpstreamClaims.

Import helm.

Variable Reference : Type.
Variable newRequestError : string -> option error.
Variable Do : Request -> result Response.
Variable yamlUnmarshal : string -> result index.
Variable ParseReference : string -> result Reference.
Variable Tags :
  Reference -> (string -> Credential) -> list (list string) * option error.

Local Abbreviation getChartVersionsFromClassicRepo :=
  (helm.getChartVersionsFromClassicRepo Reference newRequestError Do
     yamlUnmarshal).
Local Abbreviation getChartVersionsFromOCIRepo :=
  (helm.getChartVersionsFromOCIRepo Reference ParseReference Tags).
Local Abbreviation SelectChartVersion :=
  (helm.SelectChartVersion Reference newRequestError Do yamlUnmarshal
     ParseReference Tags).

(** The classic fetcher builds the request for the index URL, and sends it
    unless it cannot be built. *)
Lemma classicRepo_trace repoURL chart creds :
  (getChartVersionsFromClassicRepo repoURL chart creds).2 =
    match newRequestError (indexURLOf repoURL) with
    | Some _ => []
    | None => [HTTPDo Reference (classicRequest repoURL creds)]
    end.
Proof.
  unfold helm.getChartVersionsFromClassicRepo, NewRequest.
  fold (indexURLOf repoURL).
  destruct (newRequestError (indexURLOf repoURL)); [done|].
  assert (Hreq : match creds with
                 | Some c => SetBasicAuth
                     {| Method := "GET"; URL := indexURLOf repoURL;
                        BasicAuth := None |} (Username c) (Password c)
                 | None => {| Method := "GET"; URL := indexURLOf repoURL;
                              BasicAuth := None |}
                 end = classicRequest repoURL creds) by by destruct creds.
  rewrite Hreq. repeat case_match; done.
Qed.

Lemma classicRepo_result repoURL chart creds res body idx :
  newRequestError (indexURLOf repoURL) = None ->
  Do (classicRequest repoURL creds) = Ok res ->
  StatusCode res = 200 ->
  Body res = Ok body ->
  yamlUnmarshal body = Ok idx ->
  (getChartVersionsFromClassicRepo repoURL chart creds).1 =
    match Entries idx !! chart with
    | None =>
        ([], Some (Errorf [lit "no versions of chart "; quoted chart;
                           lit " found in repository index from ";
                           quoted (indexURLOf repoURL)]))
    | Some entries => (Version <$> entries, None)
    end.
Proof.
  intros Hreq Hdo Hstatus Hbody Hyaml.
  unfold helm.getChartVersionsFromClassicRepo, NewRequest.
  fold (indexURLOf repoURL). rewrite Hreq.
  assert (Hr : match creds with
               | Some c => SetBasicAuth
                   {| Method := "GET"; URL := indexURLOf repoURL;
                      BasicAuth := None |} (Username c) (Password c)
               | None => {| Method := "GET"; URL := indexURLOf repoURL;
                            BasicAuth := None |}
               end = classicRequest repoURL creds) by by destruct creds.
  rewrite Hr, Hdo, Hstatus, Hbody, Hyaml. simpl.
  destruct (Entries idx !! chart) as [entries|]; [|done]. simpl.
  f_equal. exact (copyVersions_spec [] entries).
Qed.

(** C8.  When the index request can be built, the response has status 200,
    its body is read and unmarshals into an index: if the chart has no entry
    in the index the fetch fails with the error
    [no versions of chart "<chart>" found in repository index from
    "<index URL>"], and otherwise it returns the [version] field of each of
    the chart's entries, in the order of the index and with repetitions.
    The index URL is the repository URL without one trailing slash,
    followed by [/index.yaml]. *)
Theorem classicRepo_versions_of_index repoURL chart creds res body idx :
  newRequestError (indexURLOf repoURL) = None ->
  Do (classicRequest repoURL creds) = Ok res ->
  StatusCode res = 200 ->
  Body res = Ok body ->
  yamlUnmarshal body = Ok idx ->
  (getChartVersionsFromClassicRepo repoURL chart creds).1 =
    match Entries idx !! chart with
    | None =>
        ([], Some (Errorf [lit "no versions of chart "; quoted chart;
                           lit " found in repository index from ";
                           quoted (indexURLOf repoURL)]))
    | Some entries => (Version <$> entries, None)
    end /\
  indexURLOf repoURL = strings.TrimSuffix repoURL "/" +:+ "/index.yaml" /\
  (forall base, repoURL = base +:+ "/" ->
     indexURLOf repoURL = base +:+ "/index.yaml") /\
  (strings.HasSuffix repoURL "/" = false ->
     indexURLOf repoURL = repoURL +:+ "/index.yaml").
Proof.
  intros Hreq Hdo Hstatus Hbody Hyaml. split_and!.
  - by apply (classicRepo_result repoURL chart creds res body idx).
  - done.
  - intros base ->. apply indexURLOf_slash.
  - apply indexURLOf_no_slash.
Qed.

Lemma classicRequest_eq repoURL creds :
  match creds with
  | Some c => SetBasicAuth
      {| Method := "GET"; URL := indexURLOf repoURL; BasicAuth := None |}
      (Username c) (Password c)
  | None => {| Method := "GET"; URL := indexURLOf repoURL; BasicAuth := None |}
  end = classicRequest repoURL creds.
Proof. by destruct creds. Qed.

(** The classic fetcher reads the credentials only to build the request. *)
Lemma classicRepo_depends_on_response repoURL chart creds1 creds2 :
  Do (classicRequest repoURL creds1) = Do (classicRequest repoURL creds2) ->
  (getChartVersionsFromClassicRepo repoURL chart creds1).1 =
  (getChartVersionsFromClassicRepo repoURL chart creds2).1.
Proof.
  intros Hdo. unfold helm.getChartVersionsFromClassicRepo, NewRequest.
  fold (indexURLOf repoURL).
  destruct (newRequestError (indexURLOf repoURL)); [done|].
  rewrite !classicRequest_eq, Hdo. repeat case_match; done.
Qed.

(** The OCI fetcher reads them only inside the credential callback. *)
Lemma ociRepo_depends_on_tags repoURL creds1 creds2 :
  (forall ref, Tags ref (ociCredential creds1) = Tags ref (ociCredential creds2)) ->
  (getChartVersionsFromOCIRepo repoURL creds1).1 =
  (getChartVersionsFromOCIRepo repoURL creds2).1.
Proof.
  intros Htags. unfold helm.getChartVersionsFromOCIRepo.
  destruct (ParseReference _) as [ref|]; [|done].
  change (fun _ : string => match creds1 with
            | Some c => _ | None => EmptyCredential end)
    with (ociCredential creds1).
  change (fun _ : string => match creds2 with
            | Some c => _ | None => EmptyCredential end)
    with (ociCredential creds2).
  rewrite (Htags ref). by destruct (Tags ref (ociCredential creds2)).
Qed.

(** The orchestrator, for a classic repository: fetch, then resolve. *)
Lemma SelectChartVersion_classic repoURL chart semverConstraint creds :
  isClassic repoURL = true ->
  SelectChartVersion repoURL chart semverConstraint creds =
    match getChartVersionsFromClassicRepo repoURL chart creds with
    | ((_, Some err), trace) =>
        (Return ("", Wrapf (Some err)
                       [lit "error retrieving versions of chart ";
                        quoted chart; lit " from repository ";
                        quoted repoURL]), trace)
    | ((versions, None), trace) =>
        match getLatestVersion versions semverConstraint with
        | Panic e => (Panic e, trace)
        | Return (latestVersion, err) =>
            (Return (latestVersion,
                     Wrapf err
                       [lit "error determining latest version of chart ";
                        quoted chart; lit " from repository ";
                        quoted repoURL]), trace)
        end
    end.
Proof.
  unfold isClassic. intros Hc. unfold helm.SelectChartVersion. rewrite Hc.
  by destruct (getChartVersionsFromClassicRepo _ _ _) as [[? [?|]] ?].
Qed.

(** C3, as the code has it.  The orchestrator does not validate the chart
    name.  For a classic repository and an empty chart name it runs the
    classic fetcher like for any other name: the index request is sent
    whenever it can be built; if the index that comes back has no entry
    under the empty name the call fails with the fetcher's
    [no versions of chart "" found ...] error wrapped with the retrieval
    context, and if it has entries they are resolved. *)
Theorem SelectChartVersion_empty_chart_fetches
    repoURL semverConstraint creds :
  isClassic repoURL = true ->
  newRequestError (indexURLOf repoURL) = None ->
  (SelectChartVersion repoURL "" semverConstraint creds).2 =
    [HTTPDo Reference (classicRequest repoURL creds)] /\
  forall res body idx,
    Do (classicRequest repoURL creds) = Ok res ->
    StatusCode res = 200 ->
    Body res = Ok body ->
    yamlUnmarshal body = Ok idx ->
    (SelectChartVersion repoURL "" semverConstraint creds).1 =
      match Entries idx !! "" with
      | None =>
          Return ("", Some (withMessage
                    (Errorf [lit "no versions of chart "; quoted "";
                             lit " found in repository index from ";
                             quoted (indexURLOf repoURL)])
                    [lit "error retrieving versions of chart "; quoted "";
                     lit " from repository "; quoted repoURL]))
      | Some entries =>
          match getLatestVersion (Version <$> entries) semverConstraint with
          | Panic e => Panic e
          | Return (latestVersion, err) =>
              Return (latestVersion,
                      Wrapf err
                        [lit "error determining latest version of chart ";
                         quoted ""; lit " from repository "; quoted repoURL])
          end
      end.
Proof.
  intros Hclassic Hreq. rewrite (SelectChartVersion_classic _ _ _ _ Hclassic).
  pose proof (classicRepo_trace repoURL "" creds) as Htrace.
  rewrite Hreq in Htrace. split.
  - destruct (getChartVersionsFromClassicRepo repoURL "" creds)
      as [[versions [err|]] trace]; simpl in *; [done|].
    by destruct (getLatestVersion versions semverConstraint) as [[? ?]|].
  - intros res body idx Hdo Hstatus Hbody Hyaml.
    pose proof (classicRepo_result repoURL "" creds res body idx
                  Hreq Hdo Hstatus Hbody Hyaml) as Hres.
    destruct (getChartVersionsFromClassicRepo repoURL "" creds)
      as [[versions err] trace]; simpl in *.
    destruct (Entries idx !! "") as [entries|]; simplify_eq; [|done].
    by destruct (getLatestVersion _ semverConstraint) as [[? ?]|].
Qed.

Lemma SelectChartVersion_error_shape
    repoURL chart semverConstraint creds version err :
  (SelectChartVersion repoURL chart semverConstraint creds).1 =
    Return (version, Some err) ->
  version = "" /\ orchestratorError repoURL chart err /\
  (isRecognised repoURL = false ->
   err = Errorf [lit "repository URL "; quoted repoURL; lit " is invalid"]) /\
  (isRecognised repoURL = true ->
   exists cause msg, err = withMessage cause msg /\ quoted chart ∈ msg /\
                     quoted repoURL ∈ msg).
Proof.
  unfold helm.SelectChartVersion, orchestratorError, isRecognised.
  fold (isClassic repoURL).
  assert (Hmem1 : forall s, quoted chart ∈
            [lit s; quoted chart; lit " from repository "; quoted repoURL])
    by (intros; set_solver).
  assert (Hmem2 : forall s, quoted repoURL ∈
            [lit s; quoted chart; lit " from repository "; quoted repoURL])
    by (intros; set_solver).
  assert (Hfetched : forall fetched : (list string * option error) *
                       list (event Reference),
    match fetched with
    | ((_, Some err0), trace) =>
        (Return ("", Wrapf (Some err0)
             [lit "error retrieving versions of chart "; quoted chart;
              lit " from repository "; quoted repoURL]), trace)
    | ((versions, None), trace) =>
        match getLatestVersion versions semverConstraint with
        | Panic e => (Panic e, trace)
        | Return (latestVersion, err0) =>
            (Return (latestVersion, Wrapf err0
               [lit "error determining latest version of chart ";
                quoted chart; lit " from repository "; quoted repoURL]), trace)
        end
    end.1 = Return (version, Some err) ->
    version = "" /\
    exists cause msg, err = withMessage cause msg /\
      (msg = [lit "error retrieving versions of chart "; quoted chart;
              lit " from repository "; quoted repoURL] \/
       msg = [lit "error determining latest version of chart "; quoted chart;
              lit " from repository "; quoted repoURL])).
  { intros [[versions [e|]] trace]; simpl.
    - intros ?; simplify_eq. split; [done|]. eauto 6.
    - destruct (getLatestVersion versions semverConstraint) as [[v [e|]]|] eqn:Hg;
        simpl; intros ?; simplify_eq.
      split; [|eauto 6].
      unfold getLatestVersion in Hg. repeat case_match; by simplify_eq. }
  destruct (isClassic repoURL) eqn:Hc; simpl.
  - intros (-> & cause & msg & -> & Hmsg)%Hfetched.
    split_and!; [done| |done|].
    + right. exists cause. destruct Hmsg as [->| ->]; auto.
    + intros _. exists cause, msg. destruct Hmsg as [->| ->]; auto.
  - destruct (strings.HasPrefix repoURL "oci://") eqn:Ho; simpl.
    + intros (-> & cause & msg & -> & Hmsg)%Hfetched.
      split_and!; [done| |done|].
      * right. exists cause. destruct Hmsg as [->| ->]; auto.
      * intros _. exists cause, msg. destruct Hmsg as [->| ->]; auto.
    + intros ?; simplify_eq. split_and!; [done|by left|done|done].
Qed.

(** C9.  A call that returns an error returns the empty version, and the
    error is either [repository URL "<url>" is invalid] or a fetcher or
    resolver error annotated with
    [error retrieving versions of chart "<chart>" from repository "<url>"]
    or [error determining latest version of chart "<chart>" from repository
    "<url>"].  Its text therefore shows the repository URL, and for a
    recognised URL the chart name, as the [%q] verb renders them.  The
    credentials reach the upstream only: two calls that differ in the
    credentials alone and get the same answers from the upstream return the
    same version and the same error. *)
Theorem SelectChartVersion_errors_name_chart_and_url_not_credentials :
  (forall repoURL chart semverConstraint creds version err,
     (SelectChartVersion repoURL chart semverConstraint creds).1 =
       Return (version, Some err) ->
     version = "" /\ orchestratorError repoURL chart err /\
     forall quote,
       Contains (render quote (Error err)) (quote repoURL) /\
       (isRecognised repoURL = true ->
        Contains (render quote (Error err)) (quote chart))) /\
  (forall repoURL chart semverConstraint creds1 creds2,
     sameUpstream Reference Do Tags repoURL creds1 creds2 ->
     (SelectChartVersion repoURL chart semverConstraint creds1).1 =
     (SelectChartVersion repoURL chart semverConstraint creds2).1).
Proof.
  split.
  - intros repoURL chart semverConstraint creds version err Hres.
    destruct (SelectChartVersion_error_shape _ _ _ _ _ _ Hres)
      as (Hv & Hshape & Hinvalid & Hwrapped).
    split_and!; [done..|]. intros quote.
    destruct (isRecognised repoURL).
    + destruct Hwrapped as (cause & msg & -> & Hchart & Hurl); [done|].
      simpl. rewrite render_app.
      split; [|intros _]; by apply Contains_app_l, render_quoted.
    + rewrite Hinvalid by done. split; [|done].
      apply render_quoted. set_solver.
  - intros repoURL chart semverConstraint creds1 creds2 [Hdo Htags].
    unfold helm.SelectChartVersion.
    destruct (_ || _).
    + pose proof (classicRepo_depends_on_response repoURL chart _ _ Hdo) as H.
      destruct (getChartVersionsFromClassicRepo repoURL chart creds1)
        as [[vs1 e1] t1],
        (getChartVersionsFromClassicRepo repoURL chart creds2)
        as [[vs2 e2] t2]; simpl in H; simplify_eq.
      destruct e2; [done|].
      by destruct (getLatestVersion vs2 semverConstraint) as [[? ?]|].
    + destruct (strings.HasPrefix repoURL "oci://"); [|done].
      pose proof (ociRepo_depends_on_tags repoURL _ _ Htags) as H.
      destruct (getChartVersionsFromOCIRepo repoURL creds1) as [[vs1 e1] t1],
        (getChartVersionsFromOCIRepo repoURL creds2) as [[vs2 e2] t2];
        simpl in H; simplify_eq.
      destruct e2; [done|].
      by destruct (getLatestVersion vs2 semverConstraint) as [[? ?]|].
Qed.

End UpstreamClaims.

Section UpstreamExamples.

Import helm.

(** C8 at the demo upstream: the three entries of "app" come back as they
    are listed, the repeated one included. *)
Lemma classicRepo_versions_of_index_witness :
  (demo.getChartVersionsFromClassicRepo "https://charts.example.com/" "app"
     demo.alice).1 = (["0.3.0"; "0.4.1"; "0.3.0"], None) /\
  (demo.getChartVersionsFromClassicRepo "https://charts.example.com/" "web"
     demo.alice).1 =
    ([], Some (Errorf [lit "no versions of chart "; quoted "web";
                       lit " found in repository index from ";
                       quoted "https://charts.example.com/index.yaml"])).
Proof.
  split.
  - exact (proj1 (classicRepo_versions_of_index string demo.newRequestError
             demo.Do demo.yamlUnmarshal "https://charts.example.com/" "app"
             demo.alice {| StatusCode := 200; Body := Ok demo.appBody |}
             demo.appBody demo.appIndex eq_refl eq_refl eq_refl eq_refl
             eq_refl)).
  - exact (proj1 (classicRepo_versions_of_index string demo.newRequestError
             demo.Do demo.yamlUnmarshal "https://charts.example.com/" "web"
             demo.alice {| StatusCode := 200; Body := Ok demo.appBody |}
             demo.appBody demo.appIndex eq_refl eq_refl eq_refl eq_refl
             eq_refl)).
Defined.

(** C3 fails on the code: with an empty chart name the index of a classic
    repository is requested all the same.  At one repository the call then
    fails with the fetcher's not-found error, not before the fetch; at the
    other, whose index has an entry under the empty name, it succeeds. *)
Lemma SelectChartVersion_empty_chart_counterexample :
  demo.SelectChartVersion "https://charts.example.com" "" "" None =
    (Return ("", Some (withMessage
               (Errorf [lit "no versions of chart "; quoted "";
                        lit " found in repository index from ";
                        quoted "https://charts.example.com/index.yaml"])
               [lit "error retrieving versions of chart "; quoted "";
                lit " from repository ";
                quoted "https://charts.example.com"])),
     [HTTPDo string
        {| Method := "GET"; URL := "https://charts.example.com/index.yaml";
           BasicAuth := None |}]) /\
  demo.SelectChartVersion "https://odd.example.com" "" "" None =
    (Return ("1.0.0", None),
     [HTTPDo string
        {| Method := "GET"; URL := "https://odd.example.com/index.yaml";
           BasicAuth := None |}]) /\
  ~ (forall repoURL semverConstraint creds,
       isClassic repoURL = true ->
       exists err,
         demo.SelectChartVersion repoURL "" semverConstraint creds =
           (Return ("", Some err), [])).
Proof.
  split_and!; [reflexivity..|].
  intros H. destruct (H "https://odd.example.com" "" None eq_refl) as [err Herr].
  discriminate Herr.
Qed.

Lemma SelectChartVersion_empty_chart_fetches_witness :
  (demo.SelectChartVersion "https://charts.example.com" "" "*" demo.alice).2 =
    [HTTPDo string
       {| Method := "GET"; URL := "https://charts.example.com/index.yaml";
          BasicAuth := Some ("alice", "s3cret") |}].
Proof.
  exact (proj1 (SelectChartVersion_empty_chart_fetches string
           demo.newRequestError demo.Do demo.yamlUnmarshal
           demo.ParseReference demo.Tags "https://charts.example.com" "*"
           demo.alice eq_refl eq_refl)).
Defined.

(** C9 at the demo upstream: a chart that the index does not list, asked
    for with and without credentials. *)
Lemma SelectChartVersion_errors_witness :
  (forall quote,
     Contains
       (render quote
          [lit "error retrieving versions of chart "; quoted "web";
           lit " from repository "; quoted "https://charts.example.com";
           lit ": "; lit "no versions of chart "; quoted "web";
           lit " found in repository index from ";
           quoted "https://charts.example.com/index.yaml"])
       (quote "web")) /\
  (demo.SelectChartVersion "https://charts.example.com" "web" "" demo.alice).1 =
  (demo.SelectChartVersion "https://charts.example.com" "web" "" None).1.
Proof.
  split.
  - intros quote.
    refine (proj2 (proj2 (proj2 (proj1
      (SelectChartVersion_errors_name_chart_and_url_not_credentials string
         demo.newRequestError demo.Do demo.yamlUnmarshal demo.ParseReference
         demo.Tags)
      "https://charts.example.com" "web" "" demo.alice "" _ eq_refl)) quote)
      eq_refl).
  - apply (proj2
      (SelectChartVersion_errors_name_chart_and_url_not_credentials string
         demo.newRequestError demo.Do demo.yamlUnmarshal demo.ParseReference
         demo.Tags)).
    split; [reflexivity|]. intros ref. reflexivity.
Defined.

End UpstreamExamples.
(** * Further properties of the code *)

(** ** getLatestVersion *)

Section ResolverProperties.

Import helm.

(** With an empty constraint the resolver returns a version of the list
    that none of the list comes after. *)
Lemma getLatestVersion_greatest versions semvers :
  versions <> [] -> allParse versions semvers ->
  exists v,
    v ∈ semvers /\
    getLatestVersion versions "" = Return (semver.String v, None) /\
    forall w, w ∈ semvers -> ~ precedes v w.
Proof.
  intros Hne Hall. rewrite (getLatestVersion_unconstrained _ _ Hall).
  destruct (last (sortCollection semvers)) as [v|] eqn:Hlast.
  - exists v. split_and!; [|done|by apply last_sortCollection_notPreceded].
    rewrite <- elem_of_sortCollection. rewrite last_lookup in Hlast.
    by eapply list_elem_of_lookup_2.
  - exfalso. apply last_None in Hlast.
    assert (Hnil : semvers = []).
    { apply Permutation_nil_r. rewrite <- Hlast.
      symmetry. apply sortCollection_Permutation. }
    subst. apply Forall2_nil_inv_r in Hall. done.
Qed.

(** With a constraint the resolver returns nothing when no version of the
    list satisfies it, and else a satisfying version that no satisfying
    version comes after. *)
Lemma getLatestVersion_greatest_satisfying
    versions semvers constraintStr constraint :
  allParse versions semvers -> constraintStr <> "" ->
  semver.NewConstraint constraintStr = Ok constraint ->
  ((forall w, w ∈ semvers -> semver.Check constraint w = false) /\
   getLatestVersion versions constraintStr = Return ("", None)) \/
  (exists v,
     v ∈ semvers /\ semver.Check constraint v = true /\
     getLatestVersion versions constraintStr =
       Return (semver.String v, None) /\
     forall w, w ∈ semvers -> semver.Check constraint w = true ->
       ~ precedes v w).
Proof.
  intros Hall Hne Hc.
  rewrite (getLatestVersion_constrained _ _ _ _ Hall Hne Hc).
  destruct (lastSatisfying constraint (sortCollection semvers)
              (length (sortCollection semvers))) as [v|] eqn:Hscan.
  - right. exists v.
    apply lastSatisfying_Some in Hscan as (i & Hi & Hv & Hcheck & Hlater).
    split_and!; [|done|done|].
    + rewrite <- elem_of_sortCollection. by eapply list_elem_of_lookup_2.
    + intros w Hw Hcw. rewrite <- elem_of_sortCollection in Hw.
      apply list_elem_of_lookup in Hw as [k Hk].
      destruct (decide (i < k)%nat) as [Hik|Hik].
      { pose proof (lookup_lt_Some _ _ _ Hk).
        rewrite (Hlater k w) in Hcw; [done|lia|done]. }
      destruct (decide (k = i)) as [->|Hne'].
      * simplify_eq. apply precedes_irrefl.
      * apply (sortCollection_ordered semvers k i); [lia|done|done].
  - left. split; [|done]. intros w Hw.
    rewrite <- elem_of_sortCollection in Hw.
    apply list_elem_of_lookup in Hw as [k Hk].
    eapply lastSatisfying_None; [|exact Hscan| |exact Hk]; [lia|].
    by eapply lookup_lt_Some.
Qed.

Lemma getLatestVersion_Panic versions constraintStr e :
  getLatestVersion versions constraintStr = Panic e <->
  versions = [] /\ constraintStr = "" /\ e = indexOutOfRange (-1).
Proof.
  split.
  - destruct (parseVersions versions) as [semvers|[bad err]] eqn:Hparse.
    + pose proof Hparse as Hall%parseVersions_inl.
      destruct (String.eqb_spec constraintStr "") as [->|Hne].
      * rewrite (getLatestVersion_unconstrained _ _ Hall).
        destruct (last (sortCollection semvers)) as [v|] eqn:Hlast; [done|].
        intros ?; simplify_eq. split_and!; [|done|done].
        apply last_None in Hlast.
        assert (Hnil : semvers = []).
        { apply Permutation_nil_r. rewrite <- Hlast.
          symmetry. apply sortCollection_Permutation. }
        subst. by apply Forall2_nil_inv_r in Hall.
      * unfold getLatestVersion. rewrite Hparse.
        apply String.eqb_neq in Hne. rewrite Hne.
        destruct (semver.NewConstraint constraintStr); [|done].
        by destruct (lastSatisfying _ _ _).
    + unfold getLatestVersion. by rewrite Hparse.
  - intros (-> & -> & ->). reflexivity.
Qed.

(** X1.  The resolver panics in one case only: an empty list with an empty
    constraint.  With a constraint an empty list is answered like a list
    without a match. *)
Theorem getLatestVersion_panics_only_on_empty versions constraintStr e :
  getLatestVersion versions constraintStr = Panic e <->
  versions = [] /\ constraintStr = "" /\ e = indexOutOfRange (-1).
Proof. apply getLatestVersion_Panic. Qed.

Lemma getLatestVersion_NewConstraint_Err versions semvers constraintStr err :
  allParse versions semvers ->
  constraintStr <> "" ->
  semver.NewConstraint constraintStr = Err err ->
  getLatestVersion versions constraintStr =
    Return ("", Some (withMessage err
                        [lit "error parsing constraint ";
                         quoted constraintStr])).
Proof.
  intros Hall%parseVersions_inl Hne Hc.
  unfold getLatestVersion. rewrite Hall.
  apply String.eqb_neq in Hne. by rewrite Hne, Hc.
Qed.

(** X2.  A constraint that does not parse is reported once every entry has
    parsed, as [error parsing constraint "<constraint>"] around the library's
    error; no version is returned, whatever the list holds. *)
Theorem getLatestVersion_constraint_error :
  forall versions semvers constraintStr err,
    allParse versions semvers ->
    constraintStr <> "" ->
    semver.NewConstraint constraintStr = Err err ->
    getLatestVersion versions constraintStr =
      Return ("", Some (withMessage err
                          [lit "error parsing constraint ";
                           quoted constraintStr])).
Proof. apply getLatestVersion_NewConstraint_Err. Qed.

Lemma getLatestVersion_constraint_error_witness :
  getLatestVersion ["1.0.0"; "2.0.0"] "latest" =
    Return ("", Some (withMessage
                        (fundamental [lit "improper constraint: latest"])
                        [lit "error parsing constraint "; quoted "latest"])).
Proof.
  apply (getLatestVersion_constraint_error ["1.0.0"; "2.0.0"]
           [semver.mkVersion 1 0 0 "" "" "1.0.0";
            semver.mkVersion 2 0 0 "" "" "2.0.0"]).
  - repeat constructor.
  - discriminate.
  - reflexivity.
Defined.

Lemma allParse_Permutation versions versions' semvers :
  versions ≡ₚ versions' -> allParse versions semvers ->
  exists semvers', semvers ≡ₚ semvers' /\ allParse versions' semvers'.
Proof. apply Permutation_Forall2. Qed.

(** X3.  The order of the raw list does not matter but among versions
    that the order of versions does not tell apart: for two lists with the
    same entries, all of which parse, the results are the same or they are
    the renderings of two versions neither of which precedes the other.
    Where any two different versions of the list are ordered the results are
    the same. *)
Theorem getLatestVersion_order_of_list :
  forall versions versions' semvers constraintStr,
    versions ≡ₚ versions' ->
    allParse versions semvers ->
    (getLatestVersion versions constraintStr =
       getLatestVersion versions' constraintStr \/
     exists v v',
       v ∈ semvers /\ v' ∈ semvers /\
       getLatestVersion versions constraintStr =
         Return (semver.String v, None) /\
       getLatestVersion versions' constraintStr =
         Return (semver.String v', None) /\
       ~ precedes v v' /\ ~ precedes v' v) /\
    ((forall x y, x ∈ semvers -> y ∈ semvers ->
        x = y \/ precedes x y \/ precedes y x) ->
     getLatestVersion versions constraintStr =
       getLatestVersion versions' constraintStr).
Proof.
  intros versions versions' semvers constraintStr Hperm Hall.
  destruct (allParse_Permutation _ _ _ Hperm Hall) as (semvers' & Hp & Hall').
  assert (Hin : forall v, v ∈ semvers' <-> v ∈ semvers)
    by (intros v; by rewrite Hp).
  assert (H : getLatestVersion versions constraintStr =
                getLatestVersion versions' constraintStr \/
              exists v v',
                v ∈ semvers /\ v' ∈ semvers /\
                getLatestVersion versions constraintStr =
                  Return (semver.String v, None) /\
                getLatestVersion versions' constraintStr =
                  Return (semver.String v', None) /\
                ~ precedes v v' /\ ~ precedes v' v).
  { destruct (String.eqb_spec constraintStr "") as [->|Hne].
    - destruct versions as [|raw versions].
      { apply Permutation_nil_l in Hperm. subst. by left. }
      assert (versions' <> []).
      { intros ->. by apply Permutation_nil_r in Hperm. }
      destruct (getLatestVersion_greatest (raw :: versions) semvers)
        as (v & Hv & Hres & Hmax); [done|done|].
      destruct (getLatestVersion_greatest versions' semvers')
        as (v' & Hv' & Hres' & Hmax'); [done|done|].
      right. exists v, v'. apply Hin in Hv'.
      split_and!; [done|done|done|done|by apply Hmax|].
      apply Hmax'. by apply Hin.
    - destruct (semver.NewConstraint constraintStr) as [c|err] eqn:Hc.
      + destruct (getLatestVersion_greatest_satisfying versions semvers
                    constraintStr c Hall Hne Hc)
          as [[Hnone Hres]|(v & Hv & Hcv & Hres & Hmax)];
        destruct (getLatestVersion_greatest_satisfying versions' semvers'
                    constraintStr c Hall' Hne Hc)
          as [[Hnone' Hres']|(v' & Hv' & Hcv' & Hres' & Hmax')].
        * left. congruence.
        * apply Hin in Hv'. rewrite (Hnone v' Hv') in Hcv'. done.
        * apply Hin in Hv. rewrite (Hnone' v Hv) in Hcv. done.
        * right. exists v, v'. apply Hin in Hv'.
          split_and!; [done|done|done|done|by apply Hmax|].
          apply Hmax'; [by apply Hin|done].
      + left.
        rewrite (getLatestVersion_NewConstraint_Err versions semvers
                   constraintStr err Hall Hne Hc).
        by rewrite (getLatestVersion_NewConstraint_Err versions' semvers'
                      constraintStr err Hall' Hne Hc). }
  split; [done|]. intros Htotal.
  destruct H as [H|(v & v' & Hv & Hv' & Hres & Hres' & H1 & H2)]; [done|].
  rewrite Hres, Hres'.
  destruct (Htotal v v' Hv Hv') as [->|[?|?]]; done.
Qed.

Lemma getLatestVersion_order_of_list_witness :
  getLatestVersion ["1.2.0"; "0.9.0"; "1.10.0"] "" =
  getLatestVersion ["1.10.0"; "1.2.0"; "0.9.0"] "".
Proof.
  apply (proj2 (getLatestVersion_order_of_list
           ["1.2.0"; "0.9.0"; "1.10.0"] ["1.10.0"; "1.2.0"; "0.9.0"]
           [semver.mkVersion 1 2 0 "" "" "1.2.0";
            semver.mkVersion 0 9 0 "" "" "0.9.0";
            semver.mkVersion 1 10 0 "" "" "1.10.0"] ""
           ltac:(symmetry;
                   apply (Permutation_cons_append ["1.2.0"; "0.9.0"]
                            "1.10.0"))
           ltac:(repeat constructor))).
  intros x y Hx Hy. unfold precedes.
  repeat (apply elem_of_cons in Hx as [->|Hx]);
    repeat (apply elem_of_cons in Hy as [->|Hy]);
    try (by apply elem_of_nil in Hx); try (by apply elem_of_nil in Hy);
    simpl; first [by left | right; lia].
Defined.

(** X4.  Further entries never lower the result: with the same
    constraint, or none, the version selected from a list with more entries
    does not precede the version selected from the list. *)
Theorem getLatestVersion_more_entries :
  forall versions more semvers semvers2,
    allParse versions semvers ->
    allParse more semvers2 ->
    (versions <> [] ->
     exists v v',
       getLatestVersion versions "" = Return (semver.String v, None) /\
       getLatestVersion (versions ++ more) "" =
         Return (semver.String v', None) /\
       ~ precedes v' v) /\
    (forall constraintStr constraint,
       constraintStr <> "" ->
       semver.NewConstraint constraintStr = Ok constraint ->
       (exists w, w ∈ semvers /\ semver.Check constraint w = true) ->
       exists v v',
         getLatestVersion versions constraintStr =
           Return (semver.String v, None) /\
         getLatestVersion (versions ++ more) constraintStr =
           Return (semver.String v', None) /\
         semver.Check constraint v' = true /\
         ~ precedes v' v).
Proof.
  intros versions more semvers semvers2 Hall Hall2.
  assert (Hall' : allParse (versions ++ more) (semvers ++ semvers2))
    by by apply Forall2_app.
  split.
  - intros Hne.
    destruct (getLatestVersion_greatest versions semvers)
      as (v & Hv & Hres & Hmax); [done|done|].
    destruct (getLatestVersion_greatest (versions ++ more)
                (semvers ++ semvers2))
      as (v' & Hv' & Hres' & Hmax'); [|done|].
    { intros [? _]%app_eq_nil. done. }
    exists v, v'. split_and!; [done|done|].
    apply Hmax'. apply elem_of_app. by left.
  - intros constraintStr constraint Hne Hc (w & Hw & Hcw).
    destruct (getLatestVersion_greatest_satisfying versions semvers
                constraintStr constraint Hall Hne Hc)
      as [[Hnone _]|(v & Hv & Hcv & Hres & Hmax)].
    { by rewrite (Hnone w Hw) in Hcw. }
    destruct (getLatestVersion_greatest_satisfying (versions ++ more)
                (semvers ++ semvers2) constraintStr constraint Hall' Hne Hc)
      as [[Hnone' _]|(v' & Hv' & Hcv' & Hres' & Hmax')].
    { rewrite Hnone' in Hcw; [done|]. apply elem_of_app. by left. }
    exists v, v'. split_and!; [done|done|done|].
    apply Hmax'; [|done]. apply elem_of_app. by left.
Qed.

Lemma getLatestVersion_more_entries_witness :
  exists v v',
    getLatestVersion ["1.4.0"; "1.5.0-rc.1"] "" =
      Return (semver.String v, None) /\
    getLatestVersion (["1.4.0"; "1.5.0-rc.1"] ++ ["1.5.0"; "0.1.0"]) "" =
      Return (semver.String v', None) /\
    ~ precedes v' v.
Proof.
  apply (proj1 (getLatestVersion_more_entries
           ["1.4.0"; "1.5.0-rc.1"] ["1.5.0"; "0.1.0"]
           [semver.mkVersion 1 4 0 "" "" "1.4.0";
            semver.mkVersion 1 5 0 "rc.1" "" "1.5.0-rc.1"]
           [semver.mkVersion 1 5 0 "" "" "1.5.0";
            semver.mkVersion 0 1 0 "" "" "0.1.0"]
           ltac:(repeat constructor) ltac:(repeat constructor))).
  discriminate.
Defined.

(** X5.  A constraint can only lower the result: when some version of
    the list satisfies the constraint, the version selected under it
    satisfies it and the version selected without a constraint does not
    precede it; and if the latter satisfies the constraint too, neither
    precedes the other. *)
Theorem getLatestVersion_constraint_lowers :
  forall versions semvers constraintStr constraint,
    allParse versions semvers ->
    constraintStr <> "" ->
    semver.NewConstraint constraintStr = Ok constraint ->
    (exists w, w ∈ semvers /\ semver.Check constraint w = true) ->
    exists vc vu,
      getLatestVersion versions constraintStr =
        Return (semver.String vc, None) /\
      getLatestVersion versions "" = Return (semver.String vu, None) /\
      semver.Check constraint vc = true /\
      ~ precedes vu vc /\
      (semver.Check constraint vu = true -> ~ precedes vc vu).
Proof.
  intros versions semvers constraintStr constraint Hall Hne Hc (w & Hw & Hcw).
  destruct (getLatestVersion_greatest_satisfying versions semvers
              constraintStr constraint Hall Hne Hc)
    as [[Hnone _]|(vc & Hvc & Hcvc & Hres & Hmax)].
  { by rewrite (Hnone w Hw) in Hcw. }
  destruct (getLatestVersion_greatest versions semvers)
    as (vu & Hvu & Hresu & Hmaxu); [|done|].
  { intros ->. apply Forall2_nil_inv_l in Hall. subst.
    by apply elem_of_nil in Hw. }
  exists vc, vu. split_and!; [done|done|done|by apply Hmaxu|].
  intros Hcvu. by apply Hmax.
Qed.

Lemma getLatestVersion_constraint_lowers_witness :
  exists vc vu,
    getLatestVersion ["2.0.0"; "1.3.0"; "1.2.9"] "~1.2" =
      Return (semver.String vc, None) /\
    getLatestVersion ["2.0.0"; "1.3.0"; "1.2.9"] "" =
      Return (semver.String vu, None) /\
    ~ precedes vu vc.
Proof.
  destruct (semver.NewConstraint "~1.2") as [c|] eqn:Hc; [|discriminate Hc].
  destruct (getLatestVersion_constraint_lowers
              ["2.0.0"; "1.3.0"; "1.2.9"]
              [semver.mkVersion 2 0 0 "" "" "2.0.0";
               semver.mkVersion 1 3 0 "" "" "1.3.0";
               semver.mkVersion 1 2 9 "" "" "1.2.9"] "~1.2" c)
    as (vc & vu & H1 & H2 & _ & H3 & _).
  - repeat constructor.
  - discriminate.
  - exact Hc.
  - exists (semver.mkVersion 1 2 9 "" "" "1.2.9"). split.
    + apply elem_of_cons; right. apply elem_of_cons; right.
      apply elem_of_cons; by left.
    + vm_compute in Hc. injection Hc as <-. reflexivity.
  - by exists vc, vu.
Defined.

End ResolverProperties.

(** ** The fetchers and SelectChartVersion *)

Section UpstreamProperties.

Import helm.

Variable Reference : Type.
Variable newRequestError : string -> option error.
Variable Do : Request -> result Response.
Variable yamlUnmarshal : string -> result index.
Variable ParseReference : string -> result Reference.
Variable Tags :
  Reference -> (string -> Credential) -> list (list string) * option error.

Local Abbreviation getChartVersionsFromClassicRepo :=
  (helm.getChartVersionsFromClassicRepo Reference newRequestError Do
     yamlUnmarshal).
Local Abbreviation getChartVersionsFromOCIRepo :=
  (helm.getChartVersionsFromOCIRepo Reference ParseReference Tags).
Local Abbreviation SelectChartVersion :=
  (helm.SelectChartVersion Reference newRequestError Do yamlUnmarshal
     ParseReference Tags).

(** X6.  When the classic fetcher fails it returns no versions, and the
    text of its error holds the URL of the index, as [%q] renders it. *)
Theorem classicRepo_failure_names_index :
  forall quote repoURL chart creds versions err trace,
    getChartVersionsFromClassicRepo repoURL chart creds =
      ((versions, Some err), trace) ->
    versions = [] /\
    Contains (render quote (Error err)) (quote (indexURLOf repoURL)).
Proof.
  clear ParseReference Tags.
  intros quote repoURL chart creds versions err trace.
  unfold helm.getChartVersionsFromClassicRepo.
  fold (indexURLOf repoURL).
  intros H. repeat case_match; simplify_eq; (split; [done|]);
    apply render_quoted; simpl; set_solver.
Qed.

(** X7.  The classic fetcher sends one request at most: a GET for the URL
    of the index, with basic authentication exactly when credentials are
    given.  It sends none when the request cannot be built, and fails.
    What it sends depends neither on the chart nor on any answer. *)
Theorem classicRepo_request repoURL chart creds :
  (getChartVersionsFromClassicRepo repoURL chart creds).2 =
    match newRequestError (indexURLOf repoURL) with
    | Some _ => []
    | None =>
        [HTTPDo Reference
           {| Method := "GET"; URL := indexURLOf repoURL;
              BasicAuth :=
                match creds with
                | Some c => Some (Username c, Password c)
                | None => None
                end |}]
    end /\
  forall err,
    newRequestError (indexURLOf repoURL) = Some err ->
    (getChartVersionsFromClassicRepo repoURL chart creds).1 =
      ([], Some (withMessage err
                   [lit "error preparing HTTP/S request to ";
                    quoted (indexURLOf repoURL)])).
Proof.
  split; [exact (classicRepo_trace _ _ _ _ repoURL chart creds)|].
  intros err Herr. unfold helm.getChartVersionsFromClassicRepo, NewRequest.
  fold (indexURLOf repoURL). by rewrite Herr.
Qed.

(** X8.  Any status but 200 fails the classic fetcher with an error whose
    text gives the status code in decimal and the URL of the index; the
    body of the response is not looked at. *)
Theorem classicRepo_unexpected_status :
  forall quote repoURL chart creds res,
    newRequestError (indexURLOf repoURL) = None ->
    Do (classicRequest repoURL creds) = Ok res ->
    StatusCode res <> 200 ->
    exists err,
      (getChartVersionsFromClassicRepo repoURL chart creds).1 =
        ([], Some err) /\
      render quote (Error err) =
        "received unexpected HTTP " +:+ strconv.Itoa (StatusCode res) +:+
        " when querying repository index at " +:+
        quote (indexURLOf repoURL).
Proof.
  intros quote repoURL chart creds res Hreq Hdo Hstatus.
  unfold helm.getChartVersionsFromClassicRepo, NewRequest.
  fold (indexURLOf repoURL). rewrite Hreq, classicRequest_eq, Hdo.
  apply Z.eqb_neq in Hstatus. rewrite Hstatus. simpl.
  eexists. split; [done|]. simpl. by rewrite append_nil_r.
Qed.

Lemma foldl_app_concat (done : list string) (pages : list (list string)) :
  foldl (fun versions t => versions ++ t) done pages = done ++ concat pages.
Proof.
  revert done. induction pages as [|t pages IH]; intros done; simpl.
  - by rewrite app_nil_r.
  - by rewrite IH, app_assoc.
Qed.

Lemma HasPrefix_append (prefix s : string) :
  strings.HasPrefix (prefix +:+ s) prefix = true.
Proof.
  induction prefix as [|c prefix IH]; [by destruct s|].
  rewrite append_cons. simpl. by rewrite Ascii.eqb_refl.
Qed.

Lemma TrimPrefix_append (prefix s : string) :
  strings.TrimPrefix (prefix +:+ s) prefix = s.
Proof.
  unfold strings.TrimPrefix. by rewrite HasPrefix_append, drop_append.
Qed.

Lemma ociRepo_result rest creds :
  getChartVersionsFromOCIRepo ("oci://" +:+ rest) creds =
    match ParseReference rest with
    | Err err =>
        (([], Some (withMessage err
                      [lit "error parsing repository URL ";
                       quoted ("oci://" +:+ rest)])),
         [])
    | Ok ref =>
        ((concat (Tags ref (ociCredential creds)).1,
          Wrapf (Tags ref (ociCredential creds)).2
            [lit "error retrieving versions of chart from repository ";
             quoted ("oci://" +:+ rest)]),
         [RegistryTags Reference ref (ociCredential creds)])
    end.
Proof.
  unfold helm.getChartVersionsFromOCIRepo.
  rewrite TrimPrefix_append.
  destruct (ParseReference rest) as [ref|err]; [|done].
  change (fun _ : string => match creds with
            | Some c => _ | None => EmptyCredential end)
    with (ociCredential creds).
  destruct (Tags ref (ociCredential creds)) as [pages err]. simpl.
  by rewrite foldl_app_concat.
Qed.

(** X9.  For the URL [oci://<rest>] the OCI fetcher parses [<rest>] as the
    reference.  If that fails it asks the registry nothing; else it lists
    the tags once, with the credentials given or the empty credential, and
    returns the pages of tags one after the other, together with the error
    of the listing, wrapped, if there is one. *)
Theorem ociRepo_versions rest creds :
  getChartVersionsFromOCIRepo ("oci://" +:+ rest) creds =
    match ParseReference rest with
    | Err err =>
        (([], Some (withMessage err
                      [lit "error parsing repository URL ";
                       quoted ("oci://" +:+ rest)])),
         [])
    | Ok ref =>
        ((concat (Tags ref (ociCredential creds)).1,
          Wrapf (Tags ref (ociCredential creds)).2
            [lit "error retrieving versions of chart from repository ";
             quoted ("oci://" +:+ rest)]),
         [RegistryTags Reference ref (ociCredential creds)])
    end.
Proof. apply ociRepo_result. Qed.

Lemma SelectChartVersion_oci rest chart semverConstraint creds :
  SelectChartVersion ("oci://" +:+ rest) chart semverConstraint creds =
    match getChartVersionsFromOCIRepo ("oci://" +:+ rest) creds with
    | ((_, Some err), trace) =>
        (Return ("", Wrapf (Some err)
                       [lit "error retrieving versions of chart ";
                        quoted chart; lit " from repository ";
                        quoted ("oci://" +:+ rest)]), trace)
    | ((versions, None), trace) =>
        match getLatestVersion versions semverConstraint with
        | Panic e => (Panic e, trace)
        | Return (latestVersion, err) =>
            (Return (latestVersion,
                     Wrapf err
                       [lit "error determining latest version of chart ";
                        quoted chart; lit " from repository ";
                        quoted ("oci://" +:+ rest)]), trace)
        end
    end.
Proof.
  unfold helm.SelectChartVersion.
  change (strings.HasPrefix ("oci://" +:+ rest) "http://") with false.
  change (strings.HasPrefix ("oci://" +:+ rest) "https://") with false.
  rewrite HasPrefix_append.
  simpl. by destruct (getChartVersionsFromOCIRepo _ _) as [[? [?|]] ?].
Qed.

(** X10.  For an OCI repository the chart name changes nothing but the
    text of an error: the registry is asked the same, and the same version
    comes back. *)
Theorem SelectChartVersion_oci_ignores_chart
    rest chart1 chart2 semverConstraint creds :
  (SelectChartVersion ("oci://" +:+ rest) chart1 semverConstraint creds).2 =
  (SelectChartVersion ("oci://" +:+ rest) chart2 semverConstraint creds).2 /\
  sameButErrorText
    (SelectChartVersion ("oci://" +:+ rest) chart1 semverConstraint creds).1
    (SelectChartVersion ("oci://" +:+ rest) chart2 semverConstraint creds).1.
Proof.
  rewrite !SelectChartVersion_oci.
  destruct (getChartVersionsFromOCIRepo _ _) as [[versions [err|]] trace];
    [done|].
  destruct (getLatestVersion versions semverConstraint) as [[v [e|]]|];
    done.
Qed.

(** X11.  A selection asks upstream once at most: nothing for a URL that
    is neither of a classic nor of an OCI repository, which is answered
    with the invalid-URL error; for a classic URL the request for the index
    and nothing of the registry; else the tag listing of the registry. *)
Theorem SelectChartVersion_upstream_calls
    repoURL chart semverConstraint creds :
  (length (SelectChartVersion repoURL chart semverConstraint creds).2 <= 1)%nat
  /\
  (isRecognised repoURL = false ->
   SelectChartVersion repoURL chart semverConstraint creds =
     (Return ("", Some (Errorf [lit "repository URL "; quoted repoURL;
                                lit " is invalid"])), [])) /\
  (isClassic repoURL = true ->
   forall ev,
     ev ∈ (SelectChartVersion repoURL chart semverConstraint creds).2 ->
     ev = HTTPDo Reference (classicRequest repoURL creds)) /\
  (isClassic repoURL = false ->
   forall ev,
     ev ∈ (SelectChartVersion repoURL chart semverConstraint creds).2 ->
     exists ref,
       ParseReference (strings.TrimPrefix repoURL "oci://") = Ok ref /\
       ev = RegistryTags Reference ref (ociCredential creds)).
Proof.
  assert (Hoci : (getChartVersionsFromOCIRepo repoURL creds).2 =
            match ParseReference (strings.TrimPrefix repoURL "oci://") with
            | Err _ => []
            | Ok ref => [RegistryTags Reference ref (ociCredential creds)]
            end).
  { unfold helm.getChartVersionsFromOCIRepo.
    destruct (ParseReference _) as [ref|]; [|done].
    change (fun _ : string => match creds with
              | Some c => _ | None => EmptyCredential end)
      with (ociCredential creds).
    by destruct (Tags ref (ociCredential creds)). }
  pose proof (classicRepo_trace Reference newRequestError Do yamlUnmarshal
                repoURL chart creds) as Hclassic.
  unfold isRecognised, isClassic, helm.SelectChartVersion.
  destruct (_ || _) eqn:Hc; simpl.
  - destruct (getChartVersionsFromClassicRepo repoURL chart creds)
      as [[versions err] trace]. simpl in Hclassic. subst trace.
    destruct err as [e|];
      [|destruct (getLatestVersion versions semverConstraint) as [[? ?]|]];
      simpl; destruct (newRequestError (indexURLOf repoURL)); simpl;
      (split_and!; [lia|done| |done]);
      intros _ ev Hev;
      first [by apply elem_of_nil in Hev
            |by apply list_elem_of_singleton in Hev].
  - destruct (strings.HasPrefix repoURL "oci://"); simpl.
    + destruct (getChartVersionsFromOCIRepo repoURL creds)
        as [[versions err] trace]. simpl in Hoci. subst trace.
      destruct err as [e|];
        [|destruct (getLatestVersion versions semverConstraint) as [[? ?]|]];
        simpl; destruct (ParseReference _) as [ref|]; simpl;
        (split_and!; [lia|done|done|]);
        intros _ ev Hev;
        first [by apply elem_of_nil in Hev
              |exists ref; split; [done|];
               by apply list_elem_of_singleton in Hev].
    + split_and!; [lia|done|done|]. intros _ ev Hev.
      by apply elem_of_nil in Hev.
Qed.

(** X12.  A selection panics only when no constraint is given and the
    fetch brought no version and no error, and then with an index out of
    range at -1.  So it does for an OCI repository without tags and for an
    index that lists the chart without entries. *)
Theorem SelectChartVersion_panics :
  (forall repoURL chart semverConstraint creds e,
     (SelectChartVersion repoURL chart semverConstraint creds).1 = Panic e ->
     semverConstraint = "" /\ e = indexOutOfRange (-1) /\
     (if isClassic repoURL
      then (getChartVersionsFromClassicRepo repoURL chart creds).1
      else (getChartVersionsFromOCIRepo repoURL creds).1) = ([], None)) /\
  (forall rest chart creds ref pages,
     ParseReference rest = Ok ref ->
     Tags ref (ociCredential creds) = (pages, None) ->
     concat pages = [] ->
     (SelectChartVersion ("oci://" +:+ rest) chart "" creds).1 =
       Panic (indexOutOfRange (-1))) /\
  (forall repoURL chart creds res body idx,
     isClassic repoURL = true ->
     newRequestError (indexURLOf repoURL) = None ->
     Do (classicRequest repoURL creds) = Ok res ->
     StatusCode res = 200 ->
     Body res = Ok body ->
     yamlUnmarshal body = Ok idx ->
     Entries idx !! chart = Some [] ->
     (SelectChartVersion repoURL chart "" creds).1 =
       Panic (indexOutOfRange (-1))).
Proof.
  split_and!.
  - intros repoURL chart semverConstraint creds e.
    unfold helm.SelectChartVersion. fold (isClassic repoURL).
    destruct (isClassic repoURL).
    + destruct (getChartVersionsFromClassicRepo repoURL chart creds)
        as [[versions [err|]] trace]; [done|].
      destruct (getLatestVersion versions semverConstraint) as [[? ?]|e']
        eqn:Hlatest; [done|].
      apply getLatestVersion_Panic in Hlatest as (-> & -> & ->).
      simpl. intros ?; by simplify_eq.
    + destruct (strings.HasPrefix repoURL "oci://"); [|done].
      destruct (getChartVersionsFromOCIRepo repoURL creds)
        as [[versions [err|]] trace]; [done|].
      destruct (getLatestVersion versions semverConstraint) as [[? ?]|e']
        eqn:Hlatest; [done|].
      apply getLatestVersion_Panic in Hlatest as (-> & -> & ->).
      simpl. intros ?; by simplify_eq.
  - intros rest chart creds ref pages Href Htags Hnone.
    rewrite SelectChartVersion_oci, ociRepo_result, Href, Htags. simpl.
    by rewrite Hnone.
  - intros repoURL chart creds res body idx Hc Hreq Hdo Hstatus Hbody Hyaml
      Hentries.
    rewrite (SelectChartVersion_classic Reference newRequestError Do
               yamlUnmarshal ParseReference Tags repoURL chart "" creds Hc).
    pose proof (classicRepo_result Reference newRequestError Do yamlUnmarshal
                  repoURL chart creds res body idx
                  Hreq Hdo Hstatus Hbody Hyaml) as Hres.
    rewrite Hentries in Hres.
    destruct (getChartVersionsFromClassicRepo repoURL chart creds)
      as [[versions err] trace]. simpl in Hres. by simplify_eq.
Qed.

(** X13.  End to end for a classic repository.  When the index is served
    with status 200 and lists the chart, the selection is what the resolver
    makes of the listed versions, its error wrapped, after the one request
    for the index.  With entries that all parse and no constraint it is the
    rendering of a listed version that none of them comes after, with no
    error. *)
Theorem SelectChartVersion_classic_resolves :
  forall repoURL chart semverConstraint creds res body idx entries,
    isClassic repoURL = true ->
    newRequestError (indexURLOf repoURL) = None ->
    Do (classicRequest repoURL creds) = Ok res ->
    StatusCode res = 200 ->
    Body res = Ok body ->
    yamlUnmarshal body = Ok idx ->
    Entries idx !! chart = Some entries ->
    SelectChartVersion repoURL chart semverConstraint creds =
      (match getLatestVersion (Version <$> entries) semverConstraint with
       | Panic e => Panic e
       | Return (latestVersion, err) =>
           Return (latestVersion,
                   Wrapf err
                     [lit "error determining latest version of chart ";
                      quoted chart; lit " from repository "; quoted repoURL])
       end,
       [HTTPDo Reference (classicRequest repoURL creds)]) /\
    forall semvers,
      entries <> [] -> allParse (Version <$> entries) semvers ->
      exists v,
        v ∈ semvers /\
        (SelectChartVersion repoURL chart "" creds).1 =
          Return (semver.String v, None) /\
        forall w, w ∈ semvers -> ~ precedes v w.
Proof.
  intros repoURL chart semverConstraint creds res body idx entries Hc Hreq
    Hdo Hstatus Hbody Hyaml Hentries.
  assert (Hsel : forall c,
            SelectChartVersion repoURL chart c creds =
              (match getLatestVersion (Version <$> entries) c with
               | Panic e => Panic e
               | Return (latestVersion, err) =>
                   Return (latestVersion,
                           Wrapf err
                             [lit "error determining latest version of chart ";
                              quoted chart; lit " from repository ";
                              quoted repoURL])
               end,
               [HTTPDo Reference (classicRequest repoURL creds)])).
  { intros c.
    rewrite (SelectChartVersion_classic Reference newRequestError Do
               yamlUnmarshal ParseReference Tags repoURL chart c creds Hc).
    pose proof (classicRepo_result Reference newRequestError Do yamlUnmarshal
                  repoURL chart creds res body idx
                  Hreq Hdo Hstatus Hbody Hyaml) as Hres.
    pose proof (classicRepo_trace Reference newRequestError Do yamlUnmarshal
                  repoURL chart creds) as Htrace.
    rewrite Hentries in Hres. rewrite Hreq in Htrace.
    destruct (getChartVersionsFromClassicRepo repoURL chart creds)
      as [[versions err] trace]. simpl in Hres, Htrace. simplify_eq.
    by destruct (getLatestVersion _ c) as [[? ?]|]. }
  split; [apply Hsel|].
  intros semvers Hne Hall.
  destruct (getLatestVersion_greatest (Version <$> entries) semvers)
    as (v & Hv & Hres & Hmax); [|done|].
  { by destruct entries. }
  exists v. split_and!; [done| |done]. by rewrite Hsel, Hres.
Qed.

(** X14.  End to end for an OCI repository.  When the reference parses
    and the tags are listed without error, the selection is what the
    resolver makes of all the tags, its error wrapped, after the one
    listing.  With tags that all parse and no constraint it is the
    rendering of a tag's version that none of them comes after, with no
    error. *)
Theorem SelectChartVersion_oci_resolves :
  forall rest chart semverConstraint creds ref pages,
    ParseReference rest = Ok ref ->
    Tags ref (ociCredential creds) = (pages, None) ->
    SelectChartVersion ("oci://" +:+ rest) chart semverConstraint creds =
      (match getLatestVersion (concat pages) semverConstraint with
       | Panic e => Panic e
       | Return (latestVersion, err) =>
           Return (latestVersion,
                   Wrapf err
                     [lit "error determining latest version of chart ";
                      quoted chart; lit " from repository ";
                      quoted ("oci://" +:+ rest)])
       end,
       [RegistryTags Reference ref (ociCredential creds)]) /\
    forall semvers,
      concat pages <> [] -> allParse (concat pages) semvers ->
      exists v,
        v ∈ semvers /\
        (SelectChartVersion ("oci://" +:+ rest) chart "" creds).1 =
          Return (semver.String v, None) /\
        forall w, w ∈ semvers -> ~ precedes v w.
Proof.
  intros rest chart semverConstraint creds ref pages Href Htags.
  assert (Hsel : forall c,
            SelectChartVersion ("oci://" +:+ rest) chart c creds =
              (match getLatestVersion (concat pages) c with
               | Panic e => Panic e
               | Return (latestVersion, err) =>
                   Return (latestVersion,
                           Wrapf err
                             [lit "error determining latest version of chart ";
                              quoted chart; lit " from repository ";
                              quoted ("oci://" +:+ rest)])
               end,
               [RegistryTags Reference ref (ociCredential creds)])).
  { intros c. rewrite SelectChartVersion_oci, ociRepo_result, Href, Htags.
    simpl. by destruct (getLatestVersion _ c) as [[? ?]|]. }
  split; [apply Hsel|].
  intros semvers Hne Hall.
  destruct (getLatestVersion_greatest (concat pages) semvers)
    as (v & Hv & Hres & Hmax); [done|done|].
  exists v. split_and!; [done| |done]. by rewrite Hsel, Hres.
Qed.

End UpstreamProperties.

(** ** UpdateChartDependencies *)

Section DependenciesProperties.

Variable LookPath : string -> string * option error.
Variable Exec : exec.Cmd -> string * option error.

Local Abbreviation UpdateChartDependencies :=
  (helm.UpdateChartDependencies LookPath Exec).

Lemma UpdateChartDependencies_run homePath chartPath :
  exists path err,
    UpdateChartDependencies homePath chartPath =
      (Wrapf
         (Exec {| exec.Path := path;
                  exec.Args := ["helm"; "dependency"; "update"; chartPath];
                  exec.Env := Some ["HOME=" +:+ homePath];
                  exec.Err := err |}).2
         [lit "error running `helm dependency update` for chart at ";
          quoted chartPath],
       {| exec.Path := path;
          exec.Args := ["helm"; "dependency"; "update"; chartPath];
          exec.Env := Some ["HOME=" +:+ homePath];
          exec.Err := err |}).
Proof.
  unfold helm.UpdateChartDependencies, exec.Command.
  change (filepath.Base "helm") with "helm". simpl.
  destruct (LookPath "helm") as [lp [e|]];
    destruct (String.eqb lp ""); simpl;
    [exists "helm", (Some e)|exists lp, (Some e)
    |exists "helm", None|exists lp, None];
    by destruct (Exec _).
Qed.

(** X15.  [UpdateChartDependencies] runs one command,
    [helm dependency update <chartPath>], the chart path being one
    argument whatever it holds, in an environment that consists of
    [HOME=<homePath>] and nothing else.  It returns nil exactly when the run
    does, and else the error of the run wrapped with the chart path. *)
Theorem UpdateChartDependencies_command homePath chartPath :
  exec.Args (UpdateChartDependencies homePath chartPath).2 =
    ["helm"; "dependency"; "update"; chartPath] /\
  exec.Env (UpdateChartDependencies homePath chartPath).2 =
    Some ["HOME=" +:+ homePath] /\
  (UpdateChartDependencies homePath chartPath).1 =
    Wrapf (Exec (UpdateChartDependencies homePath chartPath).2).2
      [lit "error running `helm dependency update` for chart at ";
       quoted chartPath] /\
  ((UpdateChartDependencies homePath chartPath).1 = None <->
   (Exec (UpdateChartDependencies homePath chartPath).2).2 = None).
Proof.
  destruct (UpdateChartDependencies_run homePath chartPath)
    as (path & err & ->). simpl.
  split_and!; [done..|]. by destruct (Exec _).2.
Qed.

End DependenciesProperties.

(** ** CreateStage *)

Section ServerProperties.

Import api.

Variable StageSpecProto StageSpec StageRest StageProto : Type.
Variable zeroRest : StageRest.
Variable yamlUnmarshal : string -> result (Stage StageSpec StageRest).
Variable FromStageSpecProto : option StageSpecProto -> StageSpec.
Variable ToStageProto : Stage StageSpec StageRest -> StageProto.
Variable validateProject : string -> option handlerError.
Variable clientCreate :
  Stage StageSpec StageRest -> result (Stage StageSpec StageRest).
Variable IsAlreadyExists : error -> bool.

Local Abbreviation requestedStage :=
  (api.requestedStage StageSpecProto StageSpec StageRest zeroRest
     yamlUnmarshal FromStageSpecProto).
Local Abbreviation CreateStage :=
  (api.CreateStage StageSpecProto StageSpec StageRest StageProto zeroRest
     yamlUnmarshal FromStageSpecProto ToStageProto validateProject
     clientCreate IsAlreadyExists).

(** X16.  A request without a usable stage is refused with the code
    InvalidArgument before anything is asked of the cluster: YAML that does
    not unmarshal; a typed stage without a project, and, the project being
    there, one without a name; no stage at all, which a stage of empty YAML
    or a nil typed stage counts as. *)
Theorem CreateStage_invalid_argument :
  (forall yaml err,
     yaml <> "" -> yamlUnmarshal yaml = Err err ->
     CreateStage (stageYaml yaml) =
       ((None, Some (invalidArgument
                       (Some (withMessage err [lit "invalid yaml"])))),
        [])) /\
  (forall typed,
     Project typed = "" ->
     CreateStage (stageTyped (Some typed)) =
       ((None, Some (invalidArgument
                       (Some (New "project should not be empty")))),
        [])) /\
  (forall typed,
     Project typed <> "" -> TypedName typed = "" ->
     CreateStage (stageTyped (Some typed)) =
       ((None, Some (invalidArgument
                       (Some (New "name should not be empty")))),
        [])) /\
  (forall msg,
     msg = stageNotSet \/ msg = stageTyped None \/ msg = stageYaml "" ->
     CreateStage msg =
       ((None, Some (invalidArgument
                       (Some (New "stage should not be empty")))),
        [])).
Proof.
  unfold api.CreateStage, api.requestedStage. split_and!.
  - intros yaml err Hne%String.eqb_neq Herr. simpl. by rewrite Hne, Herr.
  - intros typed Hp. simpl. by rewrite Hp.
  - intros typed Hp%String.eqb_neq Hn. simpl. by rewrite Hp, Hn.
  - intros msg [->|[->| ->]]; done.
Qed.

Lemma CreateStage_of_requested msg :
  CreateStage msg =
    match requestedStage msg with
    | inr err => ((None, Some err), [])
    | inl stage =>
        match validateProject (Namespace stage) with
        | Some err =>
            ((None, Some err), [ValidateProject (Namespace stage)])
        | None =>
            (match clientCreate stage with
             | Err err =>
                 (None,
                  Some (if IsAlreadyExists err
                        then connectError
                               (connect.NewError connect.CodeAlreadyExists
                                  (Some err))
                        else otherError
                               (withMessage err [lit "create stage"])))
             | Ok created =>
                 (Some {| ResponseStage := ToStageProto created |}, None)
             end,
             [ValidateProject (Namespace stage); Create stage])
        end
    end.
Proof.
  unfold api.CreateStage, GetNamespace.
  destruct (requestedStage msg) as [stage|err]; [|done].
  destruct (validateProject _); [done|].
  destruct (clientCreate stage) as [created|err]; [done|].
  by destruct (IsAlreadyExists err).
Qed.

(** X17.  Nothing is created in a project that has not been validated:
    when [CreateStage] asks the cluster to create a stage, it is the stage
    of the request, the project validation of its namespace came first and
    succeeded, and nothing else was asked.  The stage of a typed request has
    the project for its namespace, the name given, the spec converted, and
    all else zero. *)
Theorem CreateStage_validates_first :
  (forall msg stage,
     Create stage ∈ (CreateStage msg).2 ->
     requestedStage msg = inl stage /\
     validateProject (Namespace stage) = None /\
     (CreateStage msg).2 =
       [ValidateProject (Namespace stage); Create stage]) /\
  (forall typed,
     Project typed <> "" -> TypedName typed <> "" ->
     requestedStage (stageTyped (Some typed)) =
       inl {| Namespace := Project typed;
              Name := TypedName typed;
              StageSpecOf := FromStageSpecProto (Spec typed);
              Rest := zeroRest |}).
Proof.
  split.
  - intros msg stage. rewrite CreateStage_of_requested.
    destruct (requestedStage msg) as [stage'|err]; simpl;
      [|by intros ?%elem_of_nil].
    destruct (validateProject _) eqn:Hv; simpl.
    + intros [?|?%elem_of_nil]%elem_of_cons; done.
    + intros [?|[?|?%elem_of_nil]%elem_of_cons]%elem_of_cons; [done| |done].
      by simplify_eq.
  - intros typed Hp%String.eqb_neq Hn%String.eqb_neq.
    unfold api.requestedStage. simpl. by rewrite Hp, Hn.
Qed.

(** X18.  After the stage of the request is made out: an error of the
    project validation is returned as it is, and nothing is created; an
    error of the creation that says the stage exists already is returned
    with the code AlreadyExists around it; any other error of the creation
    is returned wrapped as [create stage: ...], and not as a connect
    error. *)
Theorem CreateStage_errors :
  forall msg stage,
    requestedStage msg = inl stage ->
    (forall err,
       validateProject (Namespace stage) = Some err ->
       CreateStage msg =
         ((None, Some err), [ValidateProject (Namespace stage)])) /\
    (forall err,
       validateProject (Namespace stage) = None ->
       clientCreate stage = Err err ->
       (CreateStage msg).1 =
         (None,
          Some (if IsAlreadyExists err
                then connectError
                       (connect.NewError connect.CodeAlreadyExists (Some err))
                else otherError (withMessage err [lit "create stage"])))).
Proof.
  intros msg stage Hreq. rewrite CreateStage_of_requested, Hreq. split.
  - by intros err ->.
  - by intros err -> ->.
Qed.


End ServerProperties.

(** ** The properties at work *)

Section PropertyExamples.

Import helm.

Lemma classicRepo_failure_names_index_witness :
  exists err,
    sample.getChartVersionsFromClassicRepo "https://down.example.com/" "app"
      None =
      (([], Some err),
       [HTTPDo string (classicRequest "https://down.example.com/" None)]) /\
    forall quote,
      Contains (render quote (Error err))
        (quote "https://down.example.com/index.yaml").
Proof.
  eexists. split; [reflexivity|]. intros quote.
  exact (proj2 (classicRepo_failure_names_index string
                  sample.newRequestError sample.Do sample.yamlUnmarshal quote
                  "https://down.example.com/" "app" None [] _ _ eq_refl)).
Defined.

Lemma classicRepo_unexpected_status_witness :
  exists err,
    (sample.getChartVersionsFromClassicRepo "https://other.example.com"
       "app" None).1 = ([], Some err) /\
    render id (Error err) =
      "received unexpected HTTP 404 when querying repository index at https://other.example.com/index.yaml".
Proof.
  apply (classicRepo_unexpected_status string sample.newRequestError
           sample.Do sample.yamlUnmarshal id "https://other.example.com"
           "app" None {| StatusCode := 404; Body := Ok "not found" |}).
  - reflexivity.
  - reflexivity.
  - discriminate.
Defined.

Lemma SelectChartVersion_panics_witness :
  (sample.SelectChartVersion "oci://registry.example.com/charts/new" "" ""
     None).1 = Panic (indexOutOfRange (-1)) /\
  (sample.SelectChartVersion "https://new.example.com" "app" "" None).1 =
    Panic (indexOutOfRange (-1)).
Proof.
  split.
  - apply (proj1 (proj2 (SelectChartVersion_panics string
             sample.newRequestError sample.Do sample.yamlUnmarshal
             sample.ParseReference sample.Tags))
             "registry.example.com/charts/new" "" None
             "registry.example.com/charts/new" []);
      reflexivity.
  - apply (proj2 (proj2 (SelectChartVersion_panics string
             sample.newRequestError sample.Do sample.yamlUnmarshal
             sample.ParseReference sample.Tags))
             "https://new.example.com" "app" None
             {| StatusCode := 200; Body := Ok sample.newBody |}
             sample.newBody sample.newIndex);
      reflexivity.
Defined.

Lemma SelectChartVersion_classic_resolves_witness :
  sample.SelectChartVersion "https://charts.example.com/" "app" "" None =
    (Return ("1.1.0", None),
     [HTTPDo string (classicRequest "https://charts.example.com/" None)]).
Proof.
  apply (proj1 (SelectChartVersion_classic_resolves string
           sample.newRequestError sample.Do sample.yamlUnmarshal
           sample.ParseReference sample.Tags
           "https://charts.example.com/" "app" "" None
           {| StatusCode := 200; Body := Ok sample.appBody |}
           sample.appBody sample.appIndex
           [mkEntry "1.0.0"; mkEntry "v1.1.0"; mkEntry "1.1.0-rc.1"]
           eq_refl eq_refl eq_refl eq_refl eq_refl eq_refl eq_refl)).
Defined.

Lemma SelectChartVersion_oci_resolves_witness :
  sample.SelectChartVersion "oci://registry.example.com/charts/app" ""
    "< 2.0.0" (Some (mkCredentials "alice" "s3cret")) =
    (Return ("1.1.0", None),
     [RegistryTags string "registry.example.com/charts/app"
        (ociCredential (Some (mkCredentials "alice" "s3cret")))]).
Proof.
  apply (proj1 (SelectChartVersion_oci_resolves string
           sample.newRequestError sample.Do sample.yamlUnmarshal
           sample.ParseReference sample.Tags
           "registry.example.com/charts/app" "" "< 2.0.0"
           (Some (mkCredentials "alice" "s3cret"))
           "registry.example.com/charts/app"
           [["1.0.0"; "1.1.0"]; ["2.0.0"]] eq_refl eq_refl)).
Defined.

Lemma CreateStage_errors_witness :
  (sample.CreateStage
     (api.stageTyped (Some (api.mkTypedStageSpec string "kargo-demo" "prod"
                              None)))).1 =
    (None,
     Some (api.connectError
             (connect.NewError connect.CodeAlreadyExists
                (Some sample.alreadyExists)))) /\
  sample.CreateStage
    (api.stageTyped (Some (api.mkTypedStageSpec string "nowhere" "prod"
                             None))) =
    ((None,
      Some (api.connectError
              (connect.NewError connect.CodeNotFound
                 (Some (New "project not found"))))),
     [api.ValidateProject "nowhere"]).
Proof.
  split.
  - apply (proj2 (CreateStage_errors string string string
             (api.Stage string string) ""
             sample.yamlUnmarshalStage (default "") id sample.validateProject
             sample.clientCreate sample.IsAlreadyExists
             (api.stageTyped (Some (api.mkTypedStageSpec string "kargo-demo"
                                      "prod" None)))
             (api.mkStage string string "kargo-demo" "prod" "" "")
             eq_refl) sample.alreadyExists eq_refl eq_refl).
  - apply (proj1 (CreateStage_errors string string string
             (api.Stage string string) ""
             sample.yamlUnmarshalStage (default "") id sample.validateProject
             sample.clientCreate sample.IsAlreadyExists
             (api.stageTyped (Some (api.mkTypedStageSpec string "nowhere"
                                      "prod" None)))
             (api.mkStage string string "nowhere" "prod" "" "")
             eq_refl)).
    reflexivity.
Defined.

End PropertyExamples.
